(** * Modbus ASCII transport: LRC checksum, frame codec and bus timing

    A shallow embedding of [lrc.go] and of the ASCII transport
    ([asciiTransport], [readASCIIFrame], [assembleASCIIFrame],
    [toHexUpper], [newASCIITransport], [ExecuteRequest]) together with the
    properties the design document states about them. *)

From Stdlib Require Import ZArith NArith List Bool Lia String.
From Stdlib Require Import Strings.Byte.
From Stdlib Require Import Sorting.Permutation.
Import ListNotations.
Local Open Scope Z_scope.

(** ** Go's [byte] (uint8)

    A byte is one of the 256 constructors of [Byte.byte]; arithmetic goes
    through [Z] and is reduced modulo 256 on the way back, as Go's uint8
    arithmetic does. *)

Definition byte_val (b : byte) : Z := Z.of_N (Byte.to_N b).

Definition to_byte (z : Z) : byte :=
  match Byte.of_N (Z.to_N (z mod 256)) with
  | Some b => b
  | None => x00
  end.

(** [^x] on a uint8: every one of the eight bits flipped. *)
Definition byte_not (b : byte) : Z := Z.lxor (byte_val b) 255.

Definition byte_eqb (a b : byte) : bool := Byte.eqb a b.

(** A Go string literal as the bytes it denotes. *)
Definition bytes (s : string) : list byte := list_byte_of_string s.

Definition CR : byte := x0d.
Definition LF : byte := x0a.
Definition COLON : byte := x3a.

(** ** lrc.go *)

(** The loop [for _, b := range buf { sum += b }] with [sum] a byte. *)
Definition lrc_sum (buf : list byte) : byte :=
  fold_left (fun sum b => to_byte (byte_val sum + byte_val b)) buf x00.

Definition computeLRC (buf : list byte) : byte :=
  let sum := lrc_sum buf in
  to_byte (byte_not sum + 1).

Definition verifyLRC (buf : list byte) (lrc : byte) : bool :=
  byte_eqb (computeLRC buf) lrc.

(** The plain (unreduced) sum of the byte values of a sequence. *)
Definition total (buf : list byte) : Z :=
  fold_right (fun b acc => byte_val b + acc) 0 buf.


(** ** Go slices and [int] lengths

    [len], indexing and re-slicing, on [Z] as Go's [int].  Go panics on an
    index out of range; every use below is guarded by a length test, as in
    the source, so the default value is never observed. *)

Definition len {A} (l : list A) : Z := Z.of_nat (List.length l).

Definition index (l : list byte) (i : Z) : byte := nth (Z.to_nat i) l x00.

(** [l[lo:hi]] *)
Definition slice {A} (l : list A) (lo hi : Z) : list A :=
  firstn (Z.to_nat (hi - lo)) (skipn (Z.to_nat lo) l).

(** ** Errors

    The four transport errors of the package, and whatever else a link
    returns: an operating-system or network error, of which the code only
    asks whether it is a timeout ([os.IsTimeout]). *)

Inductive error : Type :=
| ErrRequestTimedOut
| ErrBadLRC
| ErrProtocolError
| ErrShortFrame
| LinkError (is_timeout : bool) (code : nat).

Definition error_eqb (a b : error) : bool :=
  match a, b with
  | ErrRequestTimedOut, ErrRequestTimedOut => true
  | ErrBadLRC, ErrBadLRC => true
  | ErrProtocolError, ErrProtocolError => true
  | ErrShortFrame, ErrShortFrame => true
  | LinkError t c, LinkError t' c' => Bool.eqb t t' && Nat.eqb c c'
  | _, _ => false
  end.

Definition os_IsTimeout (e : error) : bool :=
  match e with
  | LinkError t _ => t
  | _ => false
  end.

(** ** The protocol data unit *)

Record pdu : Type := mkPdu {
  unitId : byte;
  functionCode : byte;
  payload : list byte
}.

(** ** encoding/hex, as far as the transport uses it *)

Definition fromHexChar (c : byte) : option Z :=
  let v := byte_val c in
  if (48 <=? v) && (v <=? 57) then Some (v - 48)
  else if (97 <=? v) && (v <=? 102) then Some (v - 97 + 10)
  else if (65 <=? v) && (v <=? 70) then Some (v - 65 + 10)
  else None.

(** [hex.Decode]: [Some] of the decoded bytes, [None] when it returns an
    error (a character that is no hex digit, or an odd number of them). *)
Fixpoint hex_Decode (src : list byte) : option (list byte) :=
  match src with
  | [] => Some []
  | [_] => None
  | p :: q :: rest =>
      match fromHexChar p, fromHexChar q with
      | Some a, Some b =>
          match hex_Decode rest with
          | Some out => Some (to_byte (Z.lor (Z.shiftl a 4) b) :: out)
          | None => None
          end
      | _, _ => None
      end
  end.

(** ** Time

    An instant ([time.Time]) is a number of nanoseconds on an unbounded
    scale; a [time.Duration] is a signed 64-bit count of nanoseconds:
    products and negation wrap, [Time.Sub] saturates. *)

Definition wrap64 (z : Z) : Z := (z + 2 ^ 63) mod 2 ^ 64 - 2 ^ 63.

Definition sat64 (z : Z) : Z := Z.max (- 2 ^ 63) (Z.min (2 ^ 63 - 1) z).

Definition dur_mul (a b : Z) : Z := wrap64 (a * b).
Definition dur_div (a b : Z) : Z := wrap64 (Z.quot a b).
Definition dur_neg (a : Z) : Z := wrap64 (- a).

Definition Microsecond : Z := 1000.

Definition time_Add (t d : Z) : Z := t + d.
Definition time_Sub (t u : Z) : Z := sat64 (t - u).

(** The zero [time.Time] (January 1, year 1), in nanoseconds relative to
    the Unix epoch. *)
Definition zero_time : Z := -62135596800 * 1000000000.

(** ** The link and the clock

    What the transport can observe of its environment: a clock, and a link
    whose calls are answered from a script.  Before every call into the
    environment an amount of time taken from [delays] passes (nothing
    happens instantly, and a sleep may overshoot); the link records when it
    was written to and read from. *)

Inductive read_outcome : Type :=
| RdByte (b : byte)      (* cnt = 1, err = nil *)
| RdNone                 (* cnt = 0, err = nil *)
| RdErr (e : error).     (* err != nil *)

Inductive event : Type :=
| EvWrite (t : Z) (frame : list byte)
| EvRead (t : Z).

Record world : Type := mkWorld {
  clock : Z;
  delays : list N;
  rx : list read_outcome;
  deadline_err : option error;
  write_result : list byte -> Z * option error;
  trace : list event
}.

Definition set_clock (t : Z) (w : world) : world :=
  mkWorld t (delays w) (rx w) (deadline_err w) (write_result w) (trace w).

Definition set_rx (r : list read_outcome) (w : world) : world :=
  mkWorld (clock w) (delays w) r (deadline_err w) (write_result w) (trace w).

Definition record (e : event) (w : world) : world :=
  mkWorld (clock w) (delays w) (rx w) (deadline_err w) (write_result w)
          (trace w ++ [e]).

Definition tick (w : world) : world :=
  match delays w with
  | [] => w
  | d :: ds =>
      mkWorld (clock w + Z.of_N d) ds (rx w) (deadline_err w)
              (write_result w) (trace w)
  end.

Definition time_Now (w : world) : Z * world :=
  let w := tick w in (clock w, w).

Definition time_Since (t : Z) (w : world) : Z * world :=
  let '(now, w) := time_Now w in (time_Sub now t, w).

(** [time.Sleep d] pauses for at least [d]; it returns at once when [d] is
    zero or negative. *)
Definition time_Sleep (d : Z) (w : world) : world :=
  let w := tick w in set_clock (clock w + Z.max 0 d) w.

Definition link_SetDeadline (t : Z) (w : world) : option error * world :=
  let w := tick w in (deadline_err w, w).

Definition link_Write (frame : list byte) (w : world)
  : (Z * option error) * world :=
  let w := tick w in
  (write_result w frame, record (EvWrite (clock w) frame) w).

(** A one-byte [Read].  When the script is exhausted nothing more arrives
    on the link and the armed deadline expires. *)
Definition link_Read (w : world) : read_outcome * world :=
  let w := record (EvRead (clock (tick w))) (tick w) in
  match rx w with
  | [] => (RdErr (LinkError true 0), w)
  | r :: rest => (r, set_rx rest w)
  end.

(** ** The ASCII transport *)

Definition maxASCIIFrameLength : Z := 513.

Record asciiTransport : Type := mkTransport {
  timeout : Z;
  lastActivity : Z;
  t35 : Z;
  t1 : Z
}.

Definition set_lastActivity (t : Z) (a : asciiTransport) : asciiTransport :=
  mkTransport (timeout a) t (t35 a) (t1 a).

Definition set_t35 (d : Z) (a : asciiTransport) : asciiTransport :=
  mkTransport (timeout a) (lastActivity a) d (t1 a).

Definition hex_table : list byte := bytes "0123456789ABCDEF".

Definition toHexUpper (b : byte) : list byte :=
  [index hex_table (Z.shiftr (byte_val b) 4);
   index hex_table (Z.land (byte_val b) 15)].

Definition assembleASCIIFrame (p : pdu) : list byte :=
  let buf := [unitId p; functionCode p] in
  let buf := buf ++ payload p in
  let lrc := computeLRC buf in
  let buf := buf ++ [lrc] in
  let frame := [COLON] in
  let frame := fold_left (fun frame b => frame ++ toHexUpper b) buf frame in
  frame ++ [CR; LF].

(** The [for] loop of [readASCIIFrame]: one [link.Read] per round, by
    recursion on what the link still has to deliver ([inp] is [rx w]).
    It ends with the accumulated [rxbuf] at the first line feed, or with
    the error it returns. *)
Fixpoint read_loop (colon : bool) (rxbuf : list byte)
    (inp : list read_outcome) (w : world) : (list byte + error) * world :=
  let w := record (EvRead (clock (tick w))) (tick w) in
  match inp with
  | [] => (inr ErrRequestTimedOut, set_rx [] w)
  | RdErr e :: rest =>
      (inr (if os_IsTimeout e then ErrRequestTimedOut else e), set_rx rest w)
  | RdNone :: rest => read_loop colon rxbuf rest (set_rx rest w)
  | RdByte b :: rest =>
      if negb colon && negb (byte_eqb b COLON) then
        (* ignore noise until we find the start of a frame *)
        read_loop colon rxbuf rest (set_rx rest w)
      else
        let rxbuf := rxbuf ++ [b] in
        if maxASCIIFrameLength <? len rxbuf then
          (inr ErrProtocolError, set_rx rest w)
        else if byte_eqb b LF then
          (inl rxbuf, set_rx rest w)
        else read_loop true rxbuf rest (set_rx rest w)
  end.

(** What [readASCIIFrame] does with [rxbuf] once the loop has ended. *)
Definition decode_frame (rxbuf : list byte) : pdu + error :=
  if len rxbuf <? 3 then inr ErrProtocolError
  else if negb (byte_eqb (index rxbuf (len rxbuf - 2)) CR) then
    inr ErrProtocolError
  else
    let hexPayload := slice rxbuf 1 (len rxbuf - 2) in
    if len hexPayload <? 6 then inr ErrShortFrame
    else if negb (Z.rem (len hexPayload) 2 =? 0) then inr ErrProtocolError
    else
      match hex_Decode hexPayload with
      | None => inr ErrProtocolError
      | Some raw =>
          if len raw <? 3 then inr ErrShortFrame
          else
            let data := slice raw 0 (len raw - 1) in
            let lrc := index raw (len raw - 1) in
            if negb (verifyLRC data lrc) then inr ErrBadLRC
            else inl (mkPdu (index data 0) (index data 1)
                            (slice data 2 (len data)))
      end.

Definition readASCIIFrame (w : world) : (pdu + error) * world :=
  match read_loop false [] (rx w) w with
  | (inr err, w) => (inr err, w)
  | (inl rxbuf, w) => (decode_frame rxbuf, w)
  end.

(** Modelled from the spec: [discard], whose source is not among the files
    of the transport.  The bytes that still arrive on the link are read
    and thrown away, until a read fails. *)
Fixpoint discard_loop (inp : list read_outcome) (w : world) : world :=
  let w := record (EvRead (clock (tick w))) (tick w) in
  match inp with
  | [] => set_rx [] w
  | RdErr _ :: rest => set_rx rest w
  | _ :: rest => discard_loop rest (set_rx rest w)
  end.

Definition discard (w : world) : world := discard_loop (rx w) w.

Definition ExecuteRequest (at_ : asciiTransport) (req : pdu) (w : world)
  : (pdu + error) * asciiTransport * world :=
  let '(now, w) := time_Now w in
  let '(err, w) := link_SetDeadline (time_Add now (timeout at_)) w in
  match err with
  | Some e => (inr e, at_, w)
  | None =>
      (* respect inter-frame delay *)
      let '(t, w) :=
        time_Since (time_Add (lastActivity at_) (t35 at_)) w in
      let w := if t <? 0 then time_Sleep (dur_neg t) w else w in
      let '(ts, w) := time_Now w in
      let frame := assembleASCIIFrame req in
      let '((n, err), w) := link_Write frame w in
      match err with
      | Some e => (inr e, at_, w)
      | None =>
          let at_ :=
            set_lastActivity (time_Add ts (dur_mul n (t1 at_))) at_ in
          (* allow bus idle time *)
          let '(now, w) := time_Now w in
          let w :=
            time_Sleep
              (time_Sub (time_Add (lastActivity at_) (t35 at_)) now) w in
          let '(res, w) := readASCIIFrame w in
          let recover :=
            match res with
            | inr e => error_eqb e ErrBadLRC || error_eqb e ErrProtocolError
                       || error_eqb e ErrShortFrame
            | inl _ => false
            end in
          let w :=
            if recover then
              discard (time_Sleep (dur_mul maxASCIIFrameLength (t1 at_)) w)
            else w in
          let timed_out :=
            match res with
            | inr e => error_eqb e ErrRequestTimedOut
            | inl _ => false
            end in
          if negb timed_out then
            let '(now, w) := time_Now w in
            (res, set_lastActivity now at_, w)
          else (res, at_, w)
      end
  end.

Section Construction.

(** [serialCharTime], the time one character takes on the wire at a given
    speed, is defined with the RTU transport; the constructor only needs
    its value. *)
Variable serialCharTime : N -> Z.

(** The link is part of the [world]; [addr] and [customLogger] only
    configure the logger. *)
Definition newASCIITransport (speed : N) (timeout : Z) : asciiTransport :=
  (* default to 19200 if no speed is provided *)
  let speed := if (speed =? 0)%N then 19200%N else speed in
  let at_ := mkTransport timeout zero_time 0 (serialCharTime speed) in
  if (19200 <=? speed)%N then set_t35 (dur_mul 1750 Microsecond) at_
  else set_t35 (dur_div (dur_mul (serialCharTime speed) 35) 10) at_.

End Construction.

(** An otherwise quiet environment in which the link delivers [inp]. *)
Definition wire (inp : list read_outcome) : world :=
  mkWorld 0 [] inp None (fun frame => (len frame, None)) [].

(** ** The server side of the transport *)

(** Reads a request from the link. *)
Definition ReadRequest (at_ : asciiTransport) (w : world)
  : (pdu + error) * asciiTransport * world :=
  let '(now, w) := time_Now w in
  let '(err, w) := link_SetDeadline (time_Add now (timeout at_)) w in
  match err with
  | Some e => (inr e, at_, w)
  | None =>
      let '(req, w) := readASCIIFrame w in
      match req with
      | inl _ =>
          let '(now, w) := time_Now w in
          (req, set_lastActivity now at_, w)
      | inr _ => (req, at_, w)
      end
  end.

(** Writes a response to the link; [None] is Go's [nil] error. *)
Definition WriteResponse (at_ : asciiTransport) (res : pdu) (w : world)
  : option error * asciiTransport * world :=
  let '(now, w) := time_Now w in
  let '(err, w) := link_SetDeadline (time_Add now (timeout at_)) w in
  match err with
  | Some e => (Some e, at_, w)
  | None =>
      let frame := assembleASCIIFrame res in
      let '((n, err), w) := link_Write frame w in
      match err with
      | Some e => (Some e, at_, w)
      | None =>
          let '(now, w) := time_Now w in
          (None,
           set_lastActivity (time_Add now (dur_mul n (t1 at_))) at_, w)
      end
  end.

(** ** tests/modbus_server_harness.go: the handler of the test server

    The handler keeps four tables and serves them by address.  Its mutex
    is left out: the calls are modelled one at a time. *)

Inductive handler_error : Type :=
| ErrIllegalFunction
| ErrIllegalDataAddress.

(** What a handler call ends in: the values and a [nil] error, an error,
    or a run-time panic (index out of range). *)
Inductive handled (A : Type) : Type :=
| Returned (res : list A)
| Failed (e : handler_error)
| Panicked.

Arguments Returned {A} res.
Arguments Failed {A} e.
Arguments Panicked {A}.

Record harnessHandler : Type := mkHandler {
  unitID : byte;
  coils : list bool;
  discrete : list bool;
  holding : list Z;
  input : list Z
}.

(** Modelled from the spec: the request descriptors of the library
    ("unitId, address, quantity, isWrite, optional write values"), whose
    declarations are outside these files.  Addresses and quantities are
    unsigned, so that [int(req.Addr) + int(req.Quantity)] is their sum. *)
Record request (A : Type) : Type := mkRequest {
  UnitId : byte;
  Addr : N;
  Quantity : N;
  IsWrite : bool;
  Args : list A
}.

Arguments mkRequest {A}.
Arguments UnitId {A}.
Arguments Addr {A}.
Arguments Quantity {A}.
Arguments IsWrite {A}.
Arguments Args {A}.

Definition CoilsRequest : Type := request bool.
Definition DiscreteInputsRequest : Type := request bool.
Definition HoldingRegistersRequest : Type := request Z.
Definition InputRegistersRequest : Type := request Z.

(** [l[i] = v]; [None] is the panic on an index out of range. *)
Fixpoint assign {A} (l : list A) (i : nat) (v : A) : option (list A) :=
  match l, i with
  | [], _ => None
  | _ :: tl, O => Some (v :: tl)
  | hd :: tl, S i' =>
      match assign tl i' v with
      | Some tl' => Some (hd :: tl')
      | None => None
      end
  end.

(** The loop [for i := 0; i < int(req.Quantity); i++] of the handlers of
    a writable table, with [todo] rounds left from index [i] on; [None] is
    a panic.  The table comes back as the loop leaves it. *)
Fixpoint serve_loop {A} (isWrite : bool) (args : list A) (addr : nat)
    (todo i : nat) (table res : list A) : option (list A) * list A :=
  match todo with
  | O => (Some res, table)
  | S todo' =>
      let written :=
        if isWrite then
          match nth_error args i with
          | Some v => assign table (addr + i) v
          | None => None
          end
        else Some table in
      match written with
      | None => (None, table)
      | Some table' =>
          match nth_error table' (addr + i) with
          | Some x =>
              serve_loop isWrite args addr todo' (S i) table' (res ++ [x])
          | None => (None, table')
          end
      end
  end.

(** The body shared by the four handlers, on the table they serve;
    read-only tables are served with [isWrite = false]. *)
Definition serve {A} (h_unit : byte) (req : request A) (writable : bool)
    (table : list A) : handled A * list A :=
  if negb (byte_eqb (UnitId req) h_unit) then (Failed ErrIllegalFunction, table)
  else if Z.of_nat (List.length table)
          <? Z.of_N (Addr req) + Z.of_N (Quantity req)
  then (Failed ErrIllegalDataAddress, table)
  else
    match serve_loop (writable && IsWrite req) (Args req)
                     (N.to_nat (Addr req)) (N.to_nat (Quantity req)) 0
                     table [] with
    | (Some res, table') => (Returned res, table')
    | (None, table') => (Panicked, table')
    end.

Definition set_coils (t : list bool) (h : harnessHandler) : harnessHandler :=
  mkHandler (unitID h) t (discrete h) (holding h) (input h).

Definition set_holding (t : list Z) (h : harnessHandler) : harnessHandler :=
  mkHandler (unitID h) (coils h) (discrete h) t (input h).

Definition HandleCoils (h : harnessHandler) (req : CoilsRequest)
  : handled bool * harnessHandler :=
  let '(r, t) := serve (unitID h) req true (coils h) in (r, set_coils t h).

Definition HandleDiscreteInputs (h : harnessHandler)
    (req : DiscreteInputsRequest) : handled bool * harnessHandler :=
  let '(r, _) := serve (unitID h) req false (discrete h) in (r, h).

Definition HandleHoldingRegisters (h : harnessHandler)
    (req : HoldingRegistersRequest) : handled Z * harnessHandler :=
  let '(r, t) := serve (unitID h) req true (holding h) in
  (r, set_holding t h).

Definition HandleInputRegisters (h : harnessHandler)
    (req : InputRegistersRequest) : handled Z * harnessHandler :=
  let '(r, _) := serve (unitID h) req false (input h) in (r, h).

(** The tables the test server starts with. *)
Definition newHarnessHandler (unit : byte) : harnessHandler :=
  let holdingBase := [0x1111; 0x2222; 0x1234; 0xabcd; 0x0000; 0x7fff; 0x8000] in
  let holdingExtra := map (fun i => (0x1000 + Z.of_nat i) mod 65536) (seq 0 130) in
  let holding := holdingBase ++ holdingExtra in
  mkHandler unit
    [true; false; true; true; false; false; true; false]
    [false; true; true; false; true; false; false; true]
    holding
    [0x9999; 0xaaaa; 0xbbbb; 0xcccc].



(** The values a request addresses in a table: [Quantity] of them from
    [Addr] on. *)
Definition window {A} (req : request A) (t : list A) : list A :=
  firstn (N.to_nat (Quantity req)) (skipn (N.to_nat (Addr req)) t).

(** ** Vocabulary of the statements *)

(** The part of [ExecuteRequest] that follows a successful write, from
    the assignment to [lastActivity] on, given the instant [ts] sampled
    before the write and the number [n] of bytes written. *)
Definition after_write (at_ : asciiTransport) (ts n : Z) (w : world)
  : (pdu + error) * asciiTransport * world :=
  let at_ := set_lastActivity (time_Add ts (dur_mul n (t1 at_))) at_ in
  let '(now, w) := time_Now w in
  let w :=
    time_Sleep (time_Sub (time_Add (lastActivity at_) (t35 at_)) now) w in
  let '(res, w) := readASCIIFrame w in
  let recover :=
    match res with
    | inr e => error_eqb e ErrBadLRC || error_eqb e ErrProtocolError
               || error_eqb e ErrShortFrame
    | inl _ => false
    end in
  let w :=
    if recover then
      discard (time_Sleep (dur_mul maxASCIIFrameLength (t1 at_)) w)
    else w in
  let timed_out :=
    match res with
    | inr e => error_eqb e ErrRequestTimedOut
    | inl _ => false
    end in
  if negb timed_out then
    let '(now, w) := time_Now w in
    (res, set_lastActivity now at_, w)
  else (res, at_, w).

(** The errors after which [ExecuteRequest] flushes the link. *)
Definition is_framing_error (res : pdu + error) : bool :=
  match res with
  | inr e => error_eqb e ErrBadLRC || error_eqb e ErrProtocolError
             || error_eqb e ErrShortFrame
  | inl _ => false
  end.

(** The instant [ts] that [ExecuteRequest] samples with [time.Now()] just
    before it writes the frame: the calls it makes up to there, in their
    order (the deadline, the wait for the inter-frame silence, the
    sample). *)
Definition write_sample (at_ : asciiTransport) (w : world) : Z :=
  let '(now, w) := time_Now w in
  let '(_, w) := link_SetDeadline (time_Add now (timeout at_)) w in
  let '(t, w) :=
    time_Since (time_Add (lastActivity at_) (t35 at_)) w in
  let w := if t <? 0 then time_Sleep (dur_neg t) w else w in
  fst (time_Now w).

(** The time that passes before the call number [k] (from 0) into the
    environment; none once the script of delays is exhausted. *)
Definition delay (k : nat) (w : world) : Z := Z.of_N (nth k (delays w) 0%N).

(** One of the characters [0-9A-F]. *)
Definition is_upper_hex (c : byte) : bool :=
  let v := byte_val c in
  ((48 <=? v) && (v <=? 57)) || ((65 <=? v) && (v <=? 70)).

(** Every byte of a sequence written with [toHexUpper], in order. *)
Definition hex_encode (buf : list byte) : list byte :=
  flat_map toHexUpper buf.

(** What a call that also changes the environment returned, and what the
    link has left to deliver afterwards. *)
Definition outcome {A} (r : A * world) : A * list read_outcome :=
  (fst r, rx (snd r)).

(** The bytes [bs] arriving on the link one by one. *)
Definition arriving (bs : list byte) : list read_outcome := map RdByte bs.

(** The environment goes from [w] to [w'] by letting time pass and by
    reading from the link, and in no other way: the clock does not go
    back, the link answers [SetDeadline] and [Write] as before, and the
    trace grows by reads issued at or after [clock w]. *)
Definition is_read_after (t0 : Z) (e : event) : Prop :=
  match e with
  | EvRead t => t0 <= t
  | EvWrite _ _ => False
  end.

Definition listens (w w' : world) : Prop :=
  clock w <= clock w' /\
  deadline_err w' = deadline_err w /\
  write_result w' = write_result w /\
  exists reads : list event,
    trace w' = trace w ++ reads /\ Forall (is_read_after (clock w)) reads.

(** Time passes, and nothing else happens. *)
Definition idles (w w' : world) : Prop :=
  clock w <= clock w' /\
  deadline_err w' = deadline_err w /\
  write_result w' = write_result w /\
  trace w' = trace w.

(** ** Facts about bytes *)

Lemma byte_val_range (b : byte) : 0 <= byte_val b < 256.
Proof.
  unfold byte_val. pose proof (Byte.to_N_bounded b). lia.
Qed.

Lemma byte_val_to_byte (z : Z) : byte_val (to_byte z) = z mod 256.
Proof.
  unfold to_byte, byte_val.
  assert (Hr : 0 <= z mod 256 < 256) by (apply Z.mod_pos_bound; lia).
  destruct (Byte.of_N (Z.to_N (z mod 256))) as [b|] eqn:E.
  - apply Byte.to_of_N in E. rewrite E. lia.
  - apply Byte.of_N_None_iff in E. lia.
Qed.

Lemma to_byte_byte_val (b : byte) : to_byte (byte_val b) = b.
Proof.
  unfold to_byte, byte_val.
  pose proof (Byte.to_N_bounded b) as Hb.
  rewrite Z.mod_small by lia.
  rewrite N2Z.id, Byte.of_to_N. reflexivity.
Qed.

Lemma byte_eqb_eq (a b : byte) : byte_eqb a b = true <-> a = b.
Proof.
  unfold byte_eqb. split.
  - apply Byte.byte_dec_bl.
  - apply Byte.byte_dec_lb.
Qed.

Lemma byte_eqb_refl (a : byte) : byte_eqb a a = true.
Proof. apply byte_eqb_eq. reflexivity. Qed.

Lemma byte_eqb_neq (a b : byte) : a <> b -> byte_eqb a b = false.
Proof.
  intros H. destruct (byte_eqb a b) eqn:E; [|reflexivity].
  apply byte_eqb_eq in E. contradiction.
Qed.

Lemma byte_not_spec (b : byte) : byte_not b = 255 - byte_val b.
Proof. destruct b; reflexivity. Qed.

(** ** Facts about the checksum *)

Lemma lrc_sum_from (buf : list byte) (s : byte) :
  byte_val (fold_left (fun sum b => to_byte (byte_val sum + byte_val b)) buf s)
  = (byte_val s + total buf) mod 256.
Proof.
  revert s. induction buf as [|b buf IH]; intros s; simpl.
  - rewrite Z.add_0_r. symmetry. apply Z.mod_small, byte_val_range.
  - rewrite IH, byte_val_to_byte.
    rewrite Zplus_mod_idemp_l. f_equal. lia.
Qed.

Lemma lrc_sum_spec (buf : list byte) :
  byte_val (lrc_sum buf) = total buf mod 256.
Proof.
  unfold lrc_sum. rewrite lrc_sum_from. reflexivity.
Qed.

Lemma computeLRC_val (buf : list byte) :
  byte_val (computeLRC buf) = (- total buf) mod 256.
Proof.
  unfold computeLRC. cbv zeta.
  rewrite byte_val_to_byte, byte_not_spec, lrc_sum_spec.
  replace (255 - total buf mod 256 + 1) with (256 - total buf mod 256) by lia.
  rewrite Zminus_mod_idemp_r.
  replace (256 - total buf) with (- total buf + 1 * 256) by lia.
  apply Z_mod_plus_full.
Qed.

(** C2. For every byte sequence [B], the empty one included,
    [verifyLRC B (computeLRC B)] is true, and [verifyLRC B X] is false for
    every byte [X] other than [computeLRC B]. *)
Theorem verifyLRC_accepts_exactly_computeLRC :
  forall B : list byte,
    verifyLRC B (computeLRC B) = true /\
    (forall X : byte, X <> computeLRC B -> verifyLRC B X = false).
Proof.
  intros B. unfold verifyLRC. split.
  - apply byte_eqb_refl.
  - intros X HX. apply byte_eqb_neq. congruence.
Qed.

Lemma verifyLRC_accepts_exactly_computeLRC_witness :
  verifyLRC [] (computeLRC []) = true /\
  x01 <> computeLRC [x10; x11; x12] /\
  verifyLRC [x10; x11; x12] x01 = false.
Proof.
  split; [| split].
  - apply (proj1 (verifyLRC_accepts_exactly_computeLRC [])).
  - vm_compute. discriminate.
  - apply (proj2 (verifyLRC_accepts_exactly_computeLRC [x10; x11; x12])).
    vm_compute. discriminate.
Defined.

(** C3. [computeLRC] is defined on every byte sequence, the empty one
    included, and returns the two's complement of the sum of its bytes
    modulo 256: the byte [s'] with [s + s' = 0 (mod 256)] for the reduced
    sum [s].  In particular
    [computeLRC [01 03 00 13 00 0a] = df] and [computeLRC [10 11 12] = cd]. *)
Theorem computeLRC_twos_complement :
  (forall buf : list byte,
      exists lrc : byte,
        computeLRC buf = lrc /\
        byte_val lrc = (256 - total buf mod 256) mod 256 /\
        (total buf + byte_val lrc) mod 256 = 0) /\
  computeLRC [] = x00 /\
  computeLRC [x01; x03; x00; x13; x00; x0a] = xdf /\
  computeLRC [x10; x11; x12] = xcd.
Proof.
  split; [| repeat split; reflexivity].
  intros buf. exists (computeLRC buf). split; [reflexivity|].
  rewrite computeLRC_val.
  assert (E : (256 - total buf mod 256) mod 256 = (- total buf) mod 256).
  { rewrite Zminus_mod_idemp_r.
    replace (256 - total buf) with (- total buf + 1 * 256) by lia.
    apply Z_mod_plus_full. }
  split; [symmetry; exact E|].
  rewrite Zplus_mod_idemp_r.
  replace (total buf + - total buf) with 0 by lia. reflexivity.
Qed.

(** ** Facts about the hexadecimal codec *)

Lemma toHexUpper_decode (b : byte) (rest : list byte) :
  hex_Decode (toHexUpper b ++ rest) =
  match hex_Decode rest with
  | Some out => Some (b :: out)
  | None => None
  end.
Proof. destruct b; reflexivity. Qed.

Lemma toHexUpper_chars (b : byte) :
  exists c d : byte,
    toHexUpper b = [c; d] /\
    is_upper_hex c = true /\ is_upper_hex d = true.
Proof.
  exists (index hex_table (Z.shiftr (byte_val b) 4)).
  exists (index hex_table (Z.land (byte_val b) 15)).
  destruct b; repeat split; reflexivity.
Qed.

Lemma is_upper_hex_plain (c : byte) :
  is_upper_hex c = true -> c <> LF /\ c <> CR /\ c <> COLON.
Proof.
  destruct c; intros H; try discriminate H;
    repeat split; discriminate.
Qed.

Lemma hex_encode_decode (buf : list byte) :
  hex_Decode (hex_encode buf) = Some buf.
Proof.
  induction buf as [|b buf IH]; [reflexivity|].
  unfold hex_encode in *. cbn [flat_map].
  rewrite toHexUpper_decode, IH. reflexivity.
Qed.

Lemma hex_encode_len (buf : list byte) :
  len (hex_encode buf) = 2 * len buf.
Proof.
  unfold len. induction buf as [|b buf IH]; [reflexivity|].
  unfold hex_encode in *. cbn [flat_map].
  destruct (toHexUpper_chars b) as (c & d & -> & _).
  cbn [app List.length]. lia.
Qed.

Lemma hex_encode_upper (buf : list byte) :
  Forall (fun c => is_upper_hex c = true) (hex_encode buf).
Proof.
  induction buf as [|b buf IH]; [constructor|].
  unfold hex_encode in *. cbn [flat_map].
  destruct (toHexUpper_chars b) as (c & d & -> & Hc & Hd).
  cbn [app]. repeat constructor; assumption.
Qed.

Lemma fold_toHexUpper (buf frame : list byte) :
  fold_left (fun frame b => frame ++ toHexUpper b) buf frame
  = frame ++ hex_encode buf.
Proof.
  revert frame. induction buf as [|b buf IH]; intros frame; cbn.
  - now rewrite app_nil_r.
  - rewrite IH, <- app_assoc. reflexivity.
Qed.

(** The frame, written as one expression. *)
Lemma assembleASCIIFrame_eq (p : pdu) :
  assembleASCIIFrame p =
  COLON ::
    hex_encode (unitId p :: functionCode p :: payload p
                ++ [computeLRC (unitId p :: functionCode p :: payload p)])
    ++ [CR; LF].
Proof.
  unfold assembleASCIIFrame. cbv zeta.
  rewrite fold_toHexUpper. reflexivity.
Qed.

(** ** Facts about the read loop *)

Lemma len_app {A} (l l' : list A) : len (l ++ l') = len l + len l'.
Proof. unfold len. rewrite length_app. lia. Qed.

Lemma len_cons {A} (a : A) (l : list A) : len (a :: l) = len l + 1.
Proof. unfold len. cbn [List.length]. lia. Qed.

Lemma len_nonneg {A} (l : list A) : 0 <= len l.
Proof. unfold len. lia. Qed.

(** The loop and the link primitive agree on a round. *)
Lemma read_loop_round (colon : bool) (rxbuf : list byte) (w : world) :
  read_loop colon rxbuf (rx w) w =
  match link_Read w with
  | (RdErr e, w') =>
      (inr (if os_IsTimeout e then ErrRequestTimedOut else e), w')
  | (RdNone, w') => read_loop colon rxbuf (rx w') w'
  | (RdByte b, w') =>
      if negb colon && negb (byte_eqb b COLON) then
        read_loop colon rxbuf (rx w') w'
      else if maxASCIIFrameLength <? len (rxbuf ++ [b]) then
        (inr ErrProtocolError, w')
      else if byte_eqb b LF then (inl (rxbuf ++ [b]), w')
      else read_loop true (rxbuf ++ [b]) (rx w') w'
  end.
Proof.
  unfold link_Read. cbn [record rx].
  destruct (rx (tick w)) as [|r rest] eqn:E;
    assert (E' : rx w = rx (tick w))
      by (unfold tick; destruct (delays w); reflexivity);
    rewrite E', E.
  - cbn. unfold set_rx, record. cbn. rewrite E. reflexivity.
  - destruct r; reflexivity.
Qed.

(** Neither the result of the loop nor what it leaves on the link depends
    on the clock or on the trace. *)
Lemma read_loop_indep (inp : list read_outcome) :
  forall colon rxbuf w w',
    outcome (read_loop colon rxbuf inp w) =
    outcome (read_loop colon rxbuf inp w').
Proof.
  induction inp as [|r rest IH]; intros colon rxbuf w w'.
  - reflexivity.
  - destruct r as [b| |e].
    + cbn [read_loop].
      destruct (negb colon && negb (byte_eqb b COLON)); [apply IH|].
      destruct (maxASCIIFrameLength <? len (rxbuf ++ [b])); [reflexivity|].
      destruct (byte_eqb b LF); [reflexivity|apply IH].
    + cbn [read_loop]. apply IH.
    + reflexivity.
Qed.

Lemma read_loop_noise (noise : list byte) (rest : list read_outcome) :
  Forall (fun b => b <> COLON) noise ->
  forall rxbuf w,
    outcome (read_loop false rxbuf (arriving noise ++ rest) w) =
    outcome (read_loop false rxbuf rest w).
Proof.
  induction 1 as [|b noise Hb _ IH]; intros rxbuf w; [reflexivity|].
  cbn [arriving map app read_loop].
  rewrite (byte_eqb_neq _ _ Hb). cbn [negb andb].
  fold (arriving noise). rewrite IH. apply read_loop_indep.
Qed.

Lemma read_loop_body (body : list byte) (rest : list read_outcome) :
  Forall (fun b => b <> LF) body ->
  forall rxbuf w,
    len rxbuf + len body + 1 <= maxASCIIFrameLength ->
    outcome (read_loop true rxbuf (arriving body ++ RdByte LF :: rest) w) =
    (inl (rxbuf ++ body ++ [LF]), rest).
Proof.
  unfold maxASCIIFrameLength.
  induction 1 as [|b body Hb _ IH]; intros rxbuf w Hlen.
  - cbn [arriving map app read_loop negb andb].
    replace (maxASCIIFrameLength <? len (rxbuf ++ [LF])) with false.
    + reflexivity.
    + symmetry. apply Z.ltb_ge. unfold maxASCIIFrameLength.
      rewrite len_app. cbn in *. lia.
  - cbn [arriving map app read_loop negb andb].
    replace (maxASCIIFrameLength <? len (rxbuf ++ [b])) with false.
    + rewrite (byte_eqb_neq _ _ Hb). fold (arriving body).
      rewrite IH.
      * rewrite <- app_assoc. reflexivity.
      * rewrite len_app. rewrite len_cons in Hlen. cbn in *. lia.
    + symmetry. apply Z.ltb_ge. unfold maxASCIIFrameLength.
      rewrite len_app. rewrite len_cons in Hlen.
      pose proof (len_nonneg body). cbn in *. lia.
Qed.

Lemma Forall_firstn_of {A} (P : A -> Prop) (l : list A) (n : nat) :
  Forall P l -> Forall P (firstn n l).
Proof.
  intros H. revert n. induction H as [|a l Ha _ IH]; intros [|n]; cbn;
    constructor; auto.
Qed.

(** The byte that makes the buffer longer than [maxASCIIFrameLength] ends
    the loop, whatever it is. *)
Lemma read_loop_overflow (body : list byte) (rest : list read_outcome) :
  forall rxbuf w,
    len rxbuf <= maxASCIIFrameLength ->
    Forall (fun b => b <> LF)
           (firstn (Z.to_nat (maxASCIIFrameLength - len rxbuf)) body) ->
    maxASCIIFrameLength < len rxbuf + len body ->
    fst (read_loop true rxbuf (arriving body ++ rest) w) =
    inr ErrProtocolError.
Proof.
  induction body as [|b body IH]; intros rxbuf w Hle Hlf Hlen.
  - exfalso. cbn in Hlen. lia.
  - cbn [arriving map app read_loop negb andb].
    rewrite len_cons in Hlen.
    destruct (maxASCIIFrameLength <? len (rxbuf ++ [b])) eqn:E;
      [reflexivity|].
    apply Z.ltb_ge in E. rewrite len_app in E. cbn in E.
    replace (Z.to_nat (maxASCIIFrameLength - len rxbuf))
      with (S (Z.to_nat (maxASCIIFrameLength - (len rxbuf + 1))))
      in Hlf by lia.
    cbn [firstn] in Hlf. inversion Hlf as [|? ? Hb Hlf']; subst.
    rewrite (byte_eqb_neq _ _ Hb). fold (arriving body).
    apply IH.
    + rewrite len_app. cbn. lia.
    + rewrite len_app. exact Hlf'.
    + rewrite len_app. cbn. lia.
Qed.

Lemma readASCIIFrame_outcome (w : world) :
  outcome (readASCIIFrame w) =
  match outcome (read_loop false [] (rx w) w) with
  | (inl rxbuf, remaining) => (decode_frame rxbuf, remaining)
  | (inr err, remaining) => (inr err, remaining)
  end.
Proof.
  unfold readASCIIFrame, outcome.
  destruct (read_loop false [] (rx w) w) as [[rxbuf|err] w']; reflexivity.
Qed.

(** A complete line: the colon, a body without line feed, the line feed. *)
Lemma readASCIIFrame_line (body : list byte) (rest : list read_outcome)
    (w : world) :
  Forall (fun b => b <> LF) body ->
  len body + 2 <= maxASCIIFrameLength ->
  outcome (readASCIIFrame
             (set_rx (arriving (COLON :: body ++ [LF]) ++ rest) w)) =
  (decode_frame (COLON :: body ++ [LF]), rest).
Proof.
  intros Hbody Hlen. rewrite readASCIIFrame_outcome. cbn [set_rx rx].
  unfold arriving. rewrite map_cons, map_app. cbn [map app].
  rewrite <- app_assoc. cbn [app read_loop negb andb].
  change (byte_eqb COLON COLON) with true.
  change (byte_eqb COLON LF) with false. cbn [negb].
  change (maxASCIIFrameLength <? len [COLON]) with false. cbv iota.
  fold (arriving body). rewrite read_loop_body; [reflexivity|assumption|].
  change (len [COLON]) with 1. lia.
Qed.

(** ** Facts about decoding *)

Lemma index_framed (c : byte) (h : list byte) :
  index (c :: h ++ [CR; LF]) (len (c :: h ++ [CR; LF]) - 2) = CR.
Proof.
  unfold index, len. cbn [List.length]. rewrite length_app. cbn [List.length].
  replace (Z.to_nat (Z.of_nat (S (List.length h + 2)) - 2))
    with (S (List.length h)) by lia.
  cbn [nth]. rewrite app_nth2 by lia.
  replace (List.length h - List.length h)%nat with 0%nat by lia.
  reflexivity.
Qed.

Lemma slice_framed (c : byte) (h : list byte) :
  slice (c :: h ++ [CR; LF]) 1 (len (c :: h ++ [CR; LF]) - 2) = h.
Proof.
  unfold slice, len. cbn [List.length]. rewrite length_app. cbn [List.length].
  replace (Z.to_nat (Z.of_nat (S (List.length h + 2)) - 2 - 1))
    with (List.length h) by lia.
  change (Z.to_nat 1) with 1%nat. cbn [skipn].
  rewrite firstn_app, firstn_all, Nat.sub_diag. cbn [firstn].
  apply app_nil_r.
Qed.

(** [decode_frame] on a line that ends in carriage return and line feed,
    in terms of the region [h] between the start character and them. *)
Lemma decode_frame_framed (c : byte) (h : list byte) :
  decode_frame (c :: h ++ [CR; LF]) =
  if len h <? 6 then inr ErrShortFrame
  else if negb (Z.rem (len h) 2 =? 0) then inr ErrProtocolError
  else
    match hex_Decode h with
    | None => inr ErrProtocolError
    | Some raw =>
        if len raw <? 3 then inr ErrShortFrame
        else
          let data := slice raw 0 (len raw - 1) in
          let lrc := index raw (len raw - 1) in
          if negb (verifyLRC data lrc) then inr ErrBadLRC
          else inl (mkPdu (index data 0) (index data 1)
                          (slice data 2 (len data)))
    end.
Proof.
  unfold decode_frame.
  rewrite index_framed, slice_framed.
  replace (len (c :: h ++ [CR; LF]) <? 3) with false.
  - rewrite byte_eqb_refl. reflexivity.
  - symmetry. apply Z.ltb_ge. rewrite len_cons, len_app.
    pose proof (len_nonneg h). cbn. lia.
Qed.

Lemma readASCIIFrame_overflow (body : list byte) (rest : list read_outcome)
    (w : world) :
  Forall (fun b => b <> LF)
         (firstn (Z.to_nat (maxASCIIFrameLength - 1)) body) ->
  maxASCIIFrameLength <= len body ->
  fst (readASCIIFrame (set_rx (arriving (COLON :: body) ++ rest) w)) =
  inr ErrProtocolError.
Proof.
  intros Hlf Hlen.
  change (fst (readASCIIFrame ?x)) with (fst (outcome (readASCIIFrame x))).
  rewrite readASCIIFrame_outcome. cbn [set_rx rx].
  cbn [arriving map app read_loop negb andb].
  change (byte_eqb COLON COLON) with true.
  change (byte_eqb COLON LF) with false. cbn [negb].
  change (maxASCIIFrameLength <? len [COLON]) with false. cbv iota.
  fold (arriving body).
  match goal with
  | |- context [outcome (read_loop true ?b ?i ?v)] =>
      pose proof (read_loop_overflow body rest b v) as H
  end.
  change (len [COLON]) with 1 in H.
  unfold outcome.
  rewrite (surjective_pairing (read_loop true _ _ _)) at 1.
  cbn [fst snd]. rewrite H.
  - reflexivity.
  - unfold maxASCIIFrameLength. lia.
  - exact Hlf.
  - lia.
Qed.

Lemma slice_init (l : list byte) (x : byte) :
  slice (l ++ [x]) 0 (len (l ++ [x]) - 1) = l.
Proof.
  unfold slice. rewrite len_app. change (len [x]) with 1.
  replace (Z.to_nat (len l + 1 - 1 - 0)) with (List.length l)
    by (unfold len; lia).
  change (Z.to_nat 0) with 0%nat. cbn [skipn].
  rewrite firstn_app, firstn_all, Nat.sub_diag. apply app_nil_r.
Qed.

Lemma index_last (l : list byte) (x : byte) :
  index (l ++ [x]) (len (l ++ [x]) - 1) = x.
Proof.
  unfold index. rewrite len_app. change (len [x]) with 1.
  replace (Z.to_nat (len l + 1 - 1)) with (List.length l)
    by (unfold len; lia).
  rewrite app_nth2 by lia. rewrite Nat.sub_diag. reflexivity.
Qed.

Lemma slice_tail2 (a b : byte) (l : list byte) :
  slice (a :: b :: l) 2 (len (a :: b :: l)) = l.
Proof.
  unfold slice. rewrite !len_cons.
  replace (Z.to_nat (len l + 1 + 1 - 2)) with (List.length l)
    by (unfold len; lia).
  change (Z.to_nat 2) with 2%nat. cbn [skipn]. apply firstn_all.
Qed.

(** Decoding undoes assembling, whatever the length of the payload. *)
Lemma decode_frame_assembled (p : pdu) :
  decode_frame (assembleASCIIFrame p) = inl p.
Proof.
  rewrite assembleASCIIFrame_eq, decode_frame_framed.
  set (data := unitId p :: functionCode p :: payload p).
  change (unitId p :: functionCode p :: payload p ++ [computeLRC data])
    with (data ++ [computeLRC data]).
  rewrite hex_encode_len, hex_encode_decode.
  assert (Hlen : len (data ++ [computeLRC data]) = len (payload p) + 3).
  { rewrite len_app. subst data. rewrite !len_cons. cbn. lia. }
  pose proof (len_nonneg (payload p)) as Hp.
  replace (2 * len (data ++ [computeLRC data]) <? 6) with false
    by (symmetry; apply Z.ltb_ge; lia).
  replace (Z.rem (2 * len (data ++ [computeLRC data])) 2 =? 0) with true
    by (symmetry; apply Z.eqb_eq; rewrite Z.mul_comm; apply Z.rem_mul; lia).
  cbn [negb].
  replace (len (data ++ [computeLRC data]) <? 3) with false
    by (symmetry; apply Z.ltb_ge; lia).
  cbv zeta. rewrite slice_init, index_last.
  unfold verifyLRC. rewrite byte_eqb_refl. cbn [negb].
  subst data. rewrite slice_tail2. destruct p; reflexivity.
Qed.

Lemma assembleASCIIFrame_len (p : pdu) :
  len (assembleASCIIFrame p) = 2 * len (payload p) + 9.
Proof.
  rewrite assembleASCIIFrame_eq, len_cons, len_app, hex_encode_len.
  rewrite !len_cons, len_app, len_cons.
  change (len (@nil byte)) with 0. lia.
Qed.

Lemma assembled_body_plain (p : pdu) :
  Forall (fun b => b <> LF)
    (hex_encode (unitId p :: functionCode p :: payload p
       ++ [computeLRC (unitId p :: functionCode p :: payload p)]) ++ [CR]).
Proof.
  apply Forall_app. split.
  - eapply Forall_impl; [|apply hex_encode_upper].
    intros c Hc. apply is_upper_hex_plain in Hc. tauto.
  - repeat constructor. discriminate.
Qed.

Lemma readASCIIFrame_indep (w : world) :
  outcome (readASCIIFrame w) = outcome (readASCIIFrame (wire (rx w))).
Proof.
  rewrite !readASCIIFrame_outcome. cbn [wire rx].
  rewrite (read_loop_indep (rx w) false [] w (wire (rx w))). reflexivity.
Qed.

Lemma odd_rem2 (n : Z) : 0 <= n -> Z.odd n = true -> (Z.rem n 2 =? 0) = false.
Proof.
  intros Hn Hodd. rewrite Zodd_mod in Hodd. apply Z.eqb_eq in Hodd.
  rewrite Z.rem_mod_nonneg by lia. rewrite Hodd. reflexivity.
Qed.

(** ** The frame codec *)

(** C10. For every PDU [P], [assembleASCIIFrame P] has exactly
    [2 * len (payload P) + 9] bytes; its first byte is the colon, its last
    two are carriage return and line feed, and the bytes in between are
    upper-case hexadecimal digits that spell, two per byte and in this
    order, the unit id, the function code, the payload and the LRC. *)
Theorem assembleASCIIFrame_shape :
  forall P : pdu,
    let frame := assembleASCIIFrame P in
    let data := unitId P :: functionCode P :: payload P in
    len frame = 2 * len (payload P) + 9 /\
    index frame 0 = COLON /\
    index frame (len frame - 2) = CR /\
    index frame (len frame - 1) = LF /\
    exists interior : list byte,
      frame = COLON :: interior ++ [CR; LF] /\
      Forall (fun c => is_upper_hex c = true) interior /\
      interior = flat_map toHexUpper (data ++ [computeLRC data]) /\
      hex_Decode interior = Some (data ++ [computeLRC data]).
Proof.
  intros P frame data. subst frame.
  split; [apply assembleASCIIFrame_len|].
  rewrite assembleASCIIFrame_eq. fold data.
  change (unitId P :: functionCode P :: payload P ++ [computeLRC data])
    with (data ++ [computeLRC data]).
  split; [reflexivity|].
  split; [apply index_framed|].
  split.
  - replace (COLON :: hex_encode (data ++ [computeLRC data]) ++ [CR; LF])
      with ((COLON :: hex_encode (data ++ [computeLRC data]) ++ [CR])
              ++ [LF])
      by (cbn [app]; rewrite <- app_assoc; reflexivity).
    apply index_last.
  - exists (hex_encode (data ++ [computeLRC data])).
    split; [reflexivity|].
    split; [apply hex_encode_upper|].
    split; [reflexivity|apply hex_encode_decode].
Qed.

(** Reading back what was assembled, as long as the frame fits. *)
Lemma ascii_roundtrip_core (P : pdu) (rest : list read_outcome) (w : world) :
  len (payload P) <= 252 ->
  outcome (readASCIIFrame
             (set_rx (arriving (assembleASCIIFrame P) ++ rest) w)) =
  (inl P, rest).
Proof.
  intros Hlen.
  rewrite <- (decode_frame_assembled P).
  rewrite assembleASCIIFrame_eq.
  set (h := hex_encode _).
  replace (COLON :: h ++ [CR; LF]) with (COLON :: (h ++ [CR]) ++ [LF])
    by (rewrite <- app_assoc; reflexivity).
  apply readASCIIFrame_line.
  - apply assembled_body_plain.
  - subst h. rewrite len_app, hex_encode_len, !len_cons, len_app, len_cons.
    change (len (@nil byte)) with 0. unfold maxASCIIFrameLength. lia.
Qed.

(** C1, as the code has it.  For every PDU [P] whose payload has at most
    252 bytes, the bytes of [assembleASCIIFrame P] arriving on the link
    make [readASCIIFrame] return [P] (unit id, function code and payload),
    and leave on the link what follows the frame; and
    [assembleASCIIFrame {33, 11, [22 33]}] is [":3311223367\r\n"]. *)
Theorem ascii_roundtrip_within_frame_limit :
  (forall (P : pdu) (rest : list read_outcome) (w : world),
      len (payload P) <= 252 ->
      outcome (readASCIIFrame
                 (set_rx (arriving (assembleASCIIFrame P) ++ rest) w)) =
      (inl P, rest)) /\
  assembleASCIIFrame (mkPdu x33 x11 [x22; x33]) =
  bytes ":3311223367" ++ [CR; LF].
Proof.
  split; [|reflexivity].
  intros P rest w Hlen. apply ascii_roundtrip_core. exact Hlen.
Qed.

Lemma ascii_roundtrip_within_frame_limit_witness :
  len (payload (mkPdu x33 x11 [x22; x33])) <= 252 /\
  outcome (readASCIIFrame
             (set_rx (arriving (assembleASCIIFrame (mkPdu x33 x11 [x22; x33]))
                        ++ [RdByte x3a])
                     (wire []))) =
  (inl (mkPdu x33 x11 [x22; x33]), [RdByte x3a]).
Proof.
  split.
  - cbn. lia.
  - apply (proj1 ascii_roundtrip_within_frame_limit). cbn. lia.
Defined.

(** A PDU with a payload of 253 bytes is assembled into a frame of 515
    bytes, which [readASCIIFrame] refuses. *)
Lemma ascii_roundtrip_fails_on_long_payload :
  let P := mkPdu x01 x03 (repeat x00 253) in
  fst (readASCIIFrame (wire (arriving (assembleASCIIFrame P)))) =
  inr ErrProtocolError /\
  fst (readASCIIFrame (wire (arriving (assembleASCIIFrame P)))) <> inl P.
Proof.
  assert (E : fst (readASCIIFrame
                     (wire (arriving (assembleASCIIFrame
                                        (mkPdu x01 x03 (repeat x00 253))))))
              = inr ErrProtocolError) by (vm_compute; reflexivity).
  cbv zeta. rewrite E. split; [reflexivity|discriminate].
Qed.

(** C4. On the frame [":31030411223362\r\n"] [readASCIIFrame] returns the
    PDU with unit id 31, function code 03 and payload [04 11 22 33]; on the
    same frame with the two digits of the LRC replaced by ["00"] it returns
    the bad-LRC error; on [":33\r\n"] it returns the short-frame error. *)
Theorem readASCIIFrame_examples :
  forall w : world,
    fst (readASCIIFrame
           (set_rx (arriving (bytes ":31030411223362" ++ [CR; LF])) w)) =
    inl (mkPdu x31 x03 [x04; x11; x22; x33]) /\
    fst (readASCIIFrame
           (set_rx (arriving (bytes ":31030411223300" ++ [CR; LF])) w)) =
    inr ErrBadLRC /\
    fst (readASCIIFrame
           (set_rx (arriving (bytes ":33" ++ [CR; LF])) w)) =
    inr ErrShortFrame.
Proof.
  intros w.
  assert (H : forall inp,
             fst (readASCIIFrame (set_rx inp w)) =
             fst (readASCIIFrame (wire inp))).
  { intros inp.
    change (fst (outcome (readASCIIFrame (set_rx inp w))) =
            fst (outcome (readASCIIFrame (wire inp)))).
    rewrite (readASCIIFrame_indep (set_rx inp w)). reflexivity. }
  rewrite !H. repeat split; vm_compute; reflexivity.
Qed.

(** A frame whose region between the colon and the line end has three
    characters is answered with the short-frame error. *)
Lemma odd_short_region_is_short_frame :
  Z.odd (len (bytes "333")) = true /\
  fst (readASCIIFrame
         (wire (arriving (COLON :: bytes "333" ++ [CR; LF])))) =
  inr ErrShortFrame /\
  fst (readASCIIFrame
         (wire (arriving (COLON :: bytes "333" ++ [CR; LF])))) <>
  inr ErrProtocolError.
Proof.
  assert (E : fst (readASCIIFrame
                     (wire (arriving (COLON :: bytes "333" ++ [CR; LF]))))
              = inr ErrShortFrame) by (vm_compute; reflexivity).
  rewrite E. repeat split; [discriminate].
Qed.

(** C5, as the code has it.  For every received frame whose region [h]
    between the colon and the closing carriage return and line feed has
    odd length, [readASCIIFrame] returns the protocol error when [h] has
    at least 6 characters (so 7 or more), and the short-frame error when it
    has fewer (1, 3 or 5); it never succeeds. *)
Theorem odd_region_rejected :
  forall (h : list byte) (rest : list read_outcome) (w : world),
    Forall (fun b => b <> LF) h ->
    Z.odd (len h) = true ->
    fst (readASCIIFrame
           (set_rx (arriving (COLON :: h ++ [CR; LF]) ++ rest) w)) =
    if len h <? 6 then inr ErrShortFrame else inr ErrProtocolError.
Proof.
  intros h rest w Hlf Hodd.
  pose proof (len_nonneg h) as Hnn.
  assert (Hbody : Forall (fun b => b <> LF) (h ++ [CR])).
  { apply Forall_app. split; [assumption|].
    repeat constructor. discriminate. }
  destruct (Z_le_gt_dec (len h + 3) maxASCIIFrameLength) as [Hfit|Hbig].
  - replace (COLON :: h ++ [CR; LF]) with (COLON :: (h ++ [CR]) ++ [LF])
      by (rewrite <- app_assoc; reflexivity).
    change (fst (readASCIIFrame ?x)) with (fst (outcome (readASCIIFrame x))).
    rewrite readASCIIFrame_line;
      [| assumption | rewrite len_app; change (len [CR]) with 1; lia].
    cbn [fst]. rewrite <- app_assoc. cbn [app].
    rewrite decode_frame_framed.
    destruct (len h <? 6); [reflexivity|].
    rewrite (odd_rem2 _ Hnn Hodd). reflexivity.
  - unfold maxASCIIFrameLength in Hbig.
    replace (len h <? 6) with false by (symmetry; apply Z.ltb_ge; lia).
    apply readASCIIFrame_overflow.
    + replace (h ++ [CR; LF]) with ((h ++ [CR]) ++ [LF])
        by (rewrite <- app_assoc; reflexivity).
      rewrite firstn_app.
      replace (Z.to_nat (maxASCIIFrameLength - 1) - List.length (h ++ [CR]))%nat
        with 0%nat.
      * cbn [firstn]. rewrite app_nil_r. apply Forall_firstn_of, Hbody.
      * rewrite length_app. cbn [List.length].
        unfold maxASCIIFrameLength, len in *. lia.
    + rewrite len_app. change (len [CR; LF]) with 2.
      unfold maxASCIIFrameLength. lia.
Qed.

Lemma odd_region_rejected_witness :
  Forall (fun b => b <> LF) (bytes "3333333") /\
  Z.odd (len (bytes "3333333")) = true /\
  fst (readASCIIFrame
         (set_rx (arriving (COLON :: bytes "3333333" ++ [CR; LF]) ++ [])
                 (wire []))) =
  inr ErrProtocolError.
Proof.
  assert (H : Forall (fun b => b <> LF) (bytes "3333333"))
    by (repeat constructor; discriminate).
  split; [exact H|]. split; [reflexivity|].
  apply (odd_region_rejected (bytes "3333333") [] (wire []) H).
  reflexivity.
Defined.

(** C6. Bytes that arrive before the first colon are line noise: for every
    byte sequence [noise] without a colon, [readASCIIFrame] on [noise]
    followed by anything (a well-formed frame in particular) returns what
    it returns without [noise], and leaves the same bytes on the link.
    From the colon on, bytes are accumulated up to the first line feed, and
    the line is then decoded; a line that has not ended after 513 bytes is
    answered with the protocol error. *)
Theorem readASCIIFrame_scans_for_frame :
  (forall (noise : list byte) (rest : list read_outcome) (w : world),
      Forall (fun b => b <> COLON) noise ->
      outcome (readASCIIFrame (set_rx (arriving noise ++ rest) w)) =
      outcome (readASCIIFrame (set_rx rest w))) /\
  (forall (noise : list byte) (P : pdu) (rest : list read_outcome)
          (w : world),
      Forall (fun b => b <> COLON) noise ->
      len (payload P) <= 252 ->
      outcome (readASCIIFrame
                 (set_rx (arriving (noise ++ assembleASCIIFrame P) ++ rest)
                         w)) =
      (inl P, rest)) /\
  (forall (body : list byte) (rest : list read_outcome) (w : world),
      Forall (fun b => b <> LF) body ->
      len (COLON :: body ++ [LF]) <= maxASCIIFrameLength ->
      outcome (readASCIIFrame
                 (set_rx (arriving (COLON :: body ++ [LF]) ++ rest) w)) =
      (decode_frame (COLON :: body ++ [LF]), rest)) /\
  (forall (body : list byte) (rest : list read_outcome) (w : world),
      Forall (fun b => b <> LF)
             (firstn (Z.to_nat (maxASCIIFrameLength - 1)) body) ->
      maxASCIIFrameLength < len (COLON :: body) ->
      fst (readASCIIFrame (set_rx (arriving (COLON :: body) ++ rest) w)) =
      inr ErrProtocolError) /\
  maxASCIIFrameLength = 513.
Proof.
  assert (Hnoise :
    forall (noise : list byte) (rest : list read_outcome) (w : world),
      Forall (fun b => b <> COLON) noise ->
      outcome (readASCIIFrame (set_rx (arriving noise ++ rest) w)) =
      outcome (readASCIIFrame (set_rx rest w))).
  { intros noise rest w Hnoise.
    rewrite !readASCIIFrame_outcome. cbn [set_rx rx].
    rewrite (read_loop_noise noise rest Hnoise).
    rewrite (read_loop_indep rest false [] _ (set_rx rest w)).
    reflexivity. }
  split; [exact Hnoise|]. split; [|split; [|split]].
  - intros noise P rest w Hn Hlen.
    unfold arriving. rewrite map_app, <- app_assoc.
    fold (arriving noise) (arriving (assembleASCIIFrame P)).
    rewrite (Hnoise noise _ w Hn).
    apply ascii_roundtrip_core. exact Hlen.
  - intros body rest w Hlf Hlen. apply readASCIIFrame_line; [assumption|].
    rewrite len_cons, len_app in Hlen. change (len [LF]) with 1 in Hlen.
    lia.
  - intros body rest w Hlf Hlen. apply readASCIIFrame_overflow;
      [assumption|]. rewrite len_cons in Hlen. lia.
  - reflexivity.
Qed.

Lemma readASCIIFrame_scans_for_frame_witness :
  let P := mkPdu x33 x11 [x22; x33] in
  let long := repeat x30 513 in
  (Forall (fun b => b <> COLON) (bytes "xx") /\
   len (payload P) <= 252 /\
   Forall (fun b => b <> LF) (bytes "33" ++ [CR]) /\
   len (COLON :: (bytes "33" ++ [CR]) ++ [LF]) <= maxASCIIFrameLength /\
   Forall (fun b => b <> LF)
          (firstn (Z.to_nat (maxASCIIFrameLength - 1)) long) /\
   maxASCIIFrameLength < len (COLON :: long)) /\
  outcome (readASCIIFrame
             (set_rx (arriving (bytes "xx") ++ [RdErr ErrBadLRC]) (wire []))) =
  outcome (readASCIIFrame (set_rx [RdErr ErrBadLRC] (wire []))) /\
  outcome (readASCIIFrame
             (set_rx (arriving (bytes "xx" ++ assembleASCIIFrame P)
                        ++ [RdNone])
                     (wire []))) =
  (inl P, [RdNone]) /\
  outcome (readASCIIFrame
             (set_rx (arriving (COLON :: (bytes "33" ++ [CR]) ++ [LF])
                        ++ [RdNone])
                     (wire []))) =
  (inr ErrShortFrame, [RdNone]) /\
  fst (readASCIIFrame (set_rx (arriving (COLON :: long) ++ []) (wire []))) =
  inr ErrProtocolError.
Proof.
  intros P long.
  assert (H1 : Forall (fun b => b <> COLON) (bytes "xx"))
    by (repeat constructor; discriminate).
  assert (H2 : len (payload P) <= 252) by (cbn; lia).
  assert (H3 : Forall (fun b => b <> LF) (bytes "33" ++ [CR]))
    by (repeat constructor; discriminate).
  assert (H4 : len (COLON :: (bytes "33" ++ [CR]) ++ [LF])
               <= maxASCIIFrameLength) by (vm_compute; discriminate).
  assert (H5 : Forall (fun b => b <> LF)
                      (firstn (Z.to_nat (maxASCIIFrameLength - 1)) long)).
  { apply Forall_firstn_of, Forall_forall. intros b Hb.
    apply repeat_spec in Hb. subst b. discriminate. }
  assert (H6 : maxASCIIFrameLength < len (COLON :: long))
    by (vm_compute; reflexivity).
  split; [repeat split; assumption|].
  destruct readASCIIFrame_scans_for_frame as (T1 & T2 & T3 & T4 & _).
  split; [exact (T1 _ _ _ H1)|].
  split; [exact (T2 _ _ _ _ H1 H2)|].
  split; [exact (T3 _ _ _ H3 H4)|].
  exact (T4 _ _ _ H5 H6).
Defined.

(** ** Construction of the transport *)

Lemma wrap64_small (z : Z) : - 2 ^ 63 <= z < 2 ^ 63 -> wrap64 z = z.
Proof.
  intros H. unfold wrap64. rewrite Z.mod_small; lia.
Qed.

(** C7. [newASCIITransport] sets t3.5 to the fixed 1750 microseconds when
    the speed is 19200 baud or more, and otherwise to 3.5 times the
    character time t1, computed as [t1 * 35 / 10] in whole nanoseconds; a
    speed of zero is the default 19200 baud. *)
Theorem newASCIITransport_timing :
  forall (serialCharTime : N -> Z) (speed : N) (timeout : Z),
    let at_ := newASCIITransport serialCharTime speed timeout in
    (speed = 0%N ->
     at_ = newASCIITransport serialCharTime 19200 timeout /\
     t1 at_ = serialCharTime 19200%N) /\
    (speed = 0%N \/ (19200 <= speed)%N -> t35 at_ = 1750 * Microsecond) /\
    (speed <> 0%N -> t1 at_ = serialCharTime speed) /\
    (speed <> 0%N -> (speed < 19200)%N ->
     t35 at_ = dur_div (dur_mul (t1 at_) 35) 10 /\
     (0 <= t1 at_ -> t1 at_ * 35 < 2 ^ 63 ->
      2 * t35 at_ <= 7 * t1 at_ < 2 * t35 at_ + 2)) /\
    1750 * Microsecond = 1750000.
Proof.
  intros sct speed tmo at_. subst at_. unfold newASCIITransport.
  split; [|split; [|split; [|split]]].
  - intros ->. split; reflexivity.
  - intros [-> | H]; [reflexivity|].
    destruct (speed =? 0)%N; [reflexivity|].
    apply N.leb_le in H. rewrite H. reflexivity.
  - intros H. apply N.eqb_neq in H. rewrite H.
    destruct (19200 <=? speed)%N; reflexivity.
  - intros H0 Hlt. apply N.eqb_neq in H0. rewrite H0.
    replace (19200 <=? speed)%N with false
      by (symmetry; apply N.leb_gt; exact Hlt).
    cbn [set_t35 t35 t1]. split; [reflexivity|].
    intros Hpos Hfit. unfold dur_div, dur_mul.
    rewrite (wrap64_small (sct speed * 35)) by lia.
    rewrite Z.quot_div_nonneg by lia.
    pose proof (Z.div_mod (sct speed * 35) 10 ltac:(lia)) as Hdm.
    pose proof (Z.mod_pos_bound (sct speed * 35) 10 ltac:(lia)) as Hm.
    rewrite wrap64_small by lia. lia.
  - reflexivity.
Qed.

Lemma newASCIITransport_timing_witness :
  let sct := fun speed : N => 11000000000 / Z.of_N speed in
  (9600%N <> 0%N /\ (9600 < 19200)%N /\
   0 <= t1 (newASCIITransport sct 9600 300000000) /\
   t1 (newASCIITransport sct 9600 300000000) * 35 < 2 ^ 63) /\
  t1 (newASCIITransport sct 9600 300000000) = 1145833 /\
  t35 (newASCIITransport sct 9600 300000000) = 4010415 /\
  2 * t35 (newASCIITransport sct 9600 300000000)
  <= 7 * t1 (newASCIITransport sct 9600 300000000)
  < 2 * t35 (newASCIITransport sct 9600 300000000) + 2 /\
  t35 (newASCIITransport sct 0 300000000) = 1750000 /\
  t35 (newASCIITransport sct 115200 300000000) = 1750000 /\
  newASCIITransport sct 0 300000000 = newASCIITransport sct 19200 300000000.
Proof.
  intros sct.
  assert (H1 : 9600%N <> 0%N) by discriminate.
  assert (H2 : (9600 < 19200)%N) by reflexivity.
  assert (H3 : 0 <= t1 (newASCIITransport sct 9600 300000000))
    by (vm_compute; discriminate).
  assert (H4 : t1 (newASCIITransport sct 9600 300000000) * 35 < 2 ^ 63)
    by (vm_compute; reflexivity).
  destruct (newASCIITransport_timing sct 9600 300000000)
    as (_ & _ & T3 & T4 & _).
  destruct (newASCIITransport_timing sct 0 300000000)
    as (T1 & T2 & _).
  destruct (newASCIITransport_timing sct 115200 300000000)
    as (_ & T5 & _).
  split; [repeat split; assumption|].
  split; [exact (T3 H1)|].
  split; [etransitivity; [exact (proj1 (T4 H1 H2))|reflexivity]|].
  split; [exact (proj2 (T4 H1 H2) H3 H4)|].
  split; [exact (T2 (or_introl eq_refl))|].
  split; [apply T5; right; vm_compute; discriminate|].
  exact (proj1 (T1 eq_refl)).
Defined.

(** ** Facts about the environment *)

Lemma is_read_after_le (t0 t1 : Z) (e : event) :
  t0 <= t1 -> is_read_after t1 e -> is_read_after t0 e.
Proof. destruct e; cbn; lia. Qed.

Lemma Forall_read_after_le (t0 t1 : Z) (l : list event) :
  t0 <= t1 -> Forall (is_read_after t1) l -> Forall (is_read_after t0) l.
Proof.
  intros H. apply Forall_impl. intros e. now apply is_read_after_le.
Qed.

Lemma listens_refl (w : world) : listens w w.
Proof.
  repeat split; try lia. exists []. split; [now rewrite app_nil_r|constructor].
Qed.

Lemma listens_trans (a b c : world) :
  listens a b -> listens b c -> listens a c.
Proof.
  intros (H1 & H2 & H3 & r1 & E1 & F1) (K1 & K2 & K3 & r2 & E2 & F2).
  repeat split; try lia; try congruence.
  exists (r1 ++ r2). split.
  - rewrite E2, E1, app_assoc. reflexivity.
  - apply Forall_app. split; [assumption|].
    now apply (Forall_read_after_le _ (clock b)).
Qed.

Lemma listens_tick (w : world) : listens w (tick w).
Proof.
  unfold tick. destruct (delays w) as [|d ds]; [apply listens_refl|].
  repeat split; cbn; try lia.
  exists []. split; [now rewrite app_nil_r|constructor].
Qed.

Lemma listens_set_rx (r : list read_outcome) (w : world) :
  listens w (set_rx r w).
Proof.
  repeat split; cbn; try lia.
  exists []. split; [now rewrite app_nil_r|constructor].
Qed.

Lemma listens_set_clock (t : Z) (w : world) :
  clock w <= t -> listens w (set_clock t w).
Proof.
  intros H. repeat split; cbn; try lia.
  exists []. split; [now rewrite app_nil_r|constructor].
Qed.

Lemma listens_record_read (t : Z) (w : world) :
  clock w <= t -> listens w (record (EvRead t) w).
Proof.
  intros H. repeat split; cbn; try lia.
  exists [EvRead t]. split; [reflexivity|]. repeat constructor. exact H.
Qed.

Lemma listens_read (w : world) :
  listens w (record (EvRead (clock (tick w))) (tick w)).
Proof.
  eapply listens_trans; [apply listens_tick|].
  apply listens_record_read. lia.
Qed.

Lemma listens_Sleep (d : Z) (w : world) : listens w (time_Sleep d w).
Proof.
  unfold time_Sleep.
  eapply listens_trans; [apply listens_tick|].
  apply listens_set_clock. lia.
Qed.

Lemma listens_read_loop (inp : list read_outcome) :
  forall colon rxbuf w, listens w (snd (read_loop colon rxbuf inp w)).
Proof.
  induction inp as [|r rest IH]; intros colon rxbuf w.
  - cbn [read_loop snd].
    eapply listens_trans; [apply listens_read|apply listens_set_rx].
  - assert (Hstep : listens w
              (set_rx rest (record (EvRead (clock (tick w))) (tick w))))
      by (eapply listens_trans; [apply listens_read|apply listens_set_rx]).
    destruct r as [b| |e]; cbn [read_loop].
    + destruct (negb colon && negb (byte_eqb b COLON)).
      * eapply listens_trans; [exact Hstep|apply IH].
      * destruct (maxASCIIFrameLength <? len (rxbuf ++ [b]));
          [exact Hstep|].
        destruct (byte_eqb b LF); [exact Hstep|].
        eapply listens_trans; [exact Hstep|apply IH].
    + eapply listens_trans; [exact Hstep|apply IH].
    + exact Hstep.
Qed.

Lemma listens_readASCIIFrame (w : world) :
  listens w (snd (readASCIIFrame w)).
Proof.
  unfold readASCIIFrame.
  pose proof (listens_read_loop (rx w) false [] w) as H.
  destruct (read_loop false [] (rx w) w) as [[rxbuf|err] w']; exact H.
Qed.

Lemma listens_discard (w : world) : listens w (discard w).
Proof.
  unfold discard. generalize (rx w) as inp. intros inp. revert w.
  induction inp as [|r rest IH]; intros w.
  - cbn [discard_loop].
    eapply listens_trans; [apply listens_read|apply listens_set_rx].
  - assert (Hstep : listens w
              (set_rx rest (record (EvRead (clock (tick w))) (tick w))))
      by (eapply listens_trans; [apply listens_read|apply listens_set_rx]).
    destruct r as [b| |e]; cbn [discard_loop];
      try exact Hstep; (eapply listens_trans; [exact Hstep|apply IH]).
Qed.

(** ** Facts about the calls into the environment *)

Lemma idles_refl (w : world) : idles w w.
Proof. repeat split; lia. Qed.

Lemma idles_trans (a b c : world) : idles a b -> idles b c -> idles a c.
Proof.
  intros (H1 & H2 & H3 & H4) (K1 & K2 & K3 & K4).
  repeat split; try lia; congruence.
Qed.

Lemma idles_tick (w : world) : idles w (tick w).
Proof.
  unfold tick. destruct (delays w) as [|d ds]; [apply idles_refl|].
  repeat split; cbn; lia.
Qed.

Lemma idles_listens (w w' : world) : idles w w' -> listens w w'.
Proof.
  intros (H1 & H2 & H3 & H4). repeat split; try assumption.
  exists []. split; [now rewrite app_nil_r|constructor].
Qed.

Lemma time_Now_spec (w w' : world) (now : Z) :
  time_Now w = (now, w') -> idles w w' /\ now = clock w'.
Proof.
  unfold time_Now. intros E. inversion E; subst.
  split; [apply idles_tick|reflexivity].
Qed.

Lemma link_SetDeadline_spec (t : Z) (w w' : world) (err : option error) :
  link_SetDeadline t w = (err, w') -> idles w w' /\ err = deadline_err w.
Proof.
  unfold link_SetDeadline. intros E. inversion E; subst.
  split; [apply idles_tick|apply (idles_tick w)].
Qed.

Lemma time_Since_spec (t0 : Z) (w w' : world) (t : Z) :
  time_Since t0 w = (t, w') -> idles w w' /\ t = sat64 (clock w' - t0).
Proof.
  unfold time_Since, time_Now. intros E. inversion E; subst.
  split; [apply idles_tick|reflexivity].
Qed.

Lemma time_Sleep_spec (d : Z) (w : world) :
  idles w (time_Sleep d w) /\ clock w + Z.max 0 d <= clock (time_Sleep d w).
Proof.
  unfold time_Sleep. destruct (idles_tick w) as (H1 & H2 & H3 & H4).
  cbn [set_clock clock]. repeat split; cbn; try assumption; lia.
Qed.

Lemma link_Write_spec (frame : list byte) (w w' : world)
    (r : Z * option error) :
  link_Write frame w = (r, w') ->
  r = write_result w frame /\
  clock w <= clock w' /\
  deadline_err w' = deadline_err w /\
  write_result w' = write_result w /\
  trace w' = trace w ++ [EvWrite (clock w') frame].
Proof.
  unfold link_Write. intros E. inversion E; subst. clear E.
  destruct (idles_tick w) as (H1 & H2 & H3 & H4).
  cbn [record clock deadline_err write_result trace].
  split; [now rewrite H3|]. split; [exact H1|].
  split; [exact H2|]. split; [exact H3|].
  now rewrite H4.
Qed.

Lemma error_eqb_eq (a b : error) : error_eqb a b = true <-> a = b.
Proof.
  split.
  - destruct a, b; cbn; try discriminate; try reflexivity.
    intros H. apply andb_prop in H. destruct H as [H1 H2].
    apply Bool.eqb_prop in H1. apply Nat.eqb_eq in H2. congruence.
  - intros <-. destruct a; cbn; try reflexivity.
    rewrite Bool.eqb_reflx, Nat.eqb_refl. reflexivity.
Qed.

Lemma sat64_neg (x : Z) :
  - 2 ^ 63 < x -> sat64 x < 0 -> sat64 x = x /\ dur_neg (sat64 x) = - x.
Proof.
  unfold sat64, dur_neg. intros H1 H2.
  assert (E : Z.max (- 2 ^ 63) (Z.min (2 ^ 63 - 1) x) = x) by lia.
  rewrite E. split; [reflexivity|]. apply wrap64_small. lia.
Qed.

Lemma sat64_nonneg (x : Z) : 0 <= sat64 x -> 0 <= x.
Proof. unfold sat64. lia. Qed.

Lemma sat64_below (x : Z) : x < 2 ^ 63 -> x <= sat64 x.
Proof. unfold sat64. lia. Qed.

(** ** One request, step by step *)

Lemma ExecuteRequest_run (at_ : asciiTransport) (req : pdu) (w : world) :
  let frame := assembleASCIIFrame req in
  let n := fst (write_result w frame) in
  let est := fun ts : Z => ts + dur_mul n (t1 at_) in
  let '(res, at', w') := ExecuteRequest at_ req w in
  (timeout at' = timeout at_ /\ t35 at' = t35 at_ /\ t1 at' = t1 at_) /\
  clock w <= clock w' /\
  match deadline_err w with
  | Some e =>
      res = inr e /\ lastActivity at' = lastActivity at_ /\
      trace w' = trace w
  | None =>
      exists ts tw : Z,
        clock w <= ts <= tw /\
        (lastActivity at_ + t35 at_ < clock w + 2 ^ 63 ->
         lastActivity at_ + t35 at_ <= ts) /\
        match snd (write_result w frame) with
        | Some e =>
            res = inr e /\ lastActivity at' = lastActivity at_ /\
            trace w' = trace w ++ [EvWrite tw frame]
        | None =>
            exists reads : list event,
              trace w' = trace w ++ EvWrite tw frame :: reads /\
              Forall (is_read_after tw) reads /\
              (dur_mul n (t1 at_) + t35 at_ < 2 ^ 63 ->
               Forall (is_read_after (est ts + t35 at_)) reads) /\
              (res = inr ErrRequestTimedOut -> lastActivity at' = est ts) /\
              (res <> inr ErrRequestTimedOut ->
               lastActivity at' = clock w')
        end
  end.
Proof.
  intros frame n est. unfold ExecuteRequest.
  destruct (time_Now w) as [now w0] eqn:E0.
  apply time_Now_spec in E0. destruct E0 as [I0 _].
  destruct (link_SetDeadline (time_Add now (timeout at_)) w0)
    as [err w1] eqn:E1.
  apply link_SetDeadline_spec in E1. destruct E1 as [I1 Eerr].
  pose proof (idles_trans _ _ _ I0 I1) as I01.
  assert (Ed : err = deadline_err w)
    by (rewrite Eerr; apply I0).
  rewrite <- Ed. destruct err as [e|].
  { destruct I01 as (H1 & H2 & H3 & H4). repeat split; assumption. }
  destruct (time_Since (time_Add (lastActivity at_) (t35 at_)) w1)
    as [t w2] eqn:E2.
  apply time_Since_spec in E2. destruct E2 as [I2 Et].
  set (w3 := if t <? 0 then time_Sleep (dur_neg t) w2 else w2).
  assert (I3 : idles w2 w3)
    by (subst w3; destruct (t <? 0);
        [apply time_Sleep_spec|apply idles_refl]).
  destruct (time_Now w3) as [ts w4] eqn:E4.
  apply time_Now_spec in E4. destruct E4 as [I4 Ets].
  pose proof (idles_trans _ _ _ I01 (idles_trans _ _ _ I2
               (idles_trans _ _ _ I3 I4))) as I04.
  destruct (link_Write (assembleASCIIFrame req) w4) as [[n' err] w5] eqn:E5.
  apply link_Write_spec in E5.
  destruct E5 as (Er & C5 & D5 & W5 & T5).
  fold frame in Er, T5.
  destruct I04 as (C04 & _ & W04 & T04).
  assert (Ew : write_result w frame = (n', err))
    by (rewrite Er, W04; reflexivity).
  assert (Tr5 : trace w5 = trace w ++ [EvWrite (clock w5) frame])
    by (rewrite T5, T04; reflexivity).
  assert (Hts : clock w <= ts <= clock w5) by (subst ts; lia).
  assert (Hsilence : lastActivity at_ + t35 at_ < clock w + 2 ^ 63 ->
                     lastActivity at_ + t35 at_ <= ts).
  { intros Hfar. subst ts.
    destruct I4 as (C4 & _). destruct I3 as (C3 & _).
    destruct (idles_trans _ _ _ I01 I2) as (C2 & _).
    enough (lastActivity at_ + t35 at_ <= clock w3) by lia.
    subst w3. unfold time_Add in Et.
    destruct (t <? 0) eqn:Eneg.
    - apply Z.ltb_lt in Eneg. rewrite Et in Eneg.
      destruct (sat64_neg (clock w2 - (lastActivity at_ + t35 at_)))
        as [_ Hneg]; [lia|exact Eneg|].
      rewrite Et, Hneg.
      pose proof (proj2 (time_Sleep_spec
                  (- (clock w2 - (lastActivity at_ + t35 at_))) w2)).
      lia.
    - apply Z.ltb_ge in Eneg. rewrite Et in Eneg.
      apply sat64_nonneg in Eneg. lia. }
  rewrite Ew. cbn [snd]. destruct err as [e|].
  { split; [repeat split|]. split; [lia|].
    exists ts, (clock w5). split; [exact Hts|]. split; [exact Hsilence|].
    split; [reflexivity|]. split; [reflexivity|exact Tr5]. }
  assert (En : n = n') by (subst n; rewrite Ew; reflexivity).
  subst n'. cbn [lastActivity set_lastActivity t35 t1 timeout].
  destruct (time_Now w5) as [now2 w6] eqn:E6.
  apply time_Now_spec in E6. destruct E6 as [I6 Enow2].
  set (d := time_Sub (time_Add (time_Add ts (dur_mul n (t1 at_))) (t35 at_))
                     now2).
  destruct (time_Sleep_spec d w6) as [I7 C7].
  set (w7 := time_Sleep d w6) in *.
  destruct (readASCIIFrame w7) as [res w8] eqn:E8.
  pose proof (listens_readASCIIFrame w7) as L8. rewrite E8 in L8.
  cbn [snd] in L8.
  set (recover := match res with
                  | inl _ => false
                  | inr e => error_eqb e ErrBadLRC
                             || error_eqb e ErrProtocolError
                             || error_eqb e ErrShortFrame
                  end).
  set (w9 := if recover
             then discard
                    (time_Sleep (dur_mul maxASCIIFrameLength (t1 at_)) w8)
             else w8).
  assert (L9 : listens w8 w9).
  { subst w9. destruct recover; [|apply listens_refl].
    eapply listens_trans; [apply listens_Sleep|apply listens_discard]. }
  set (timed_out := match res with
                    | inl _ => false
                    | inr e => error_eqb e ErrRequestTimedOut
                    end).
  assert (Hto : timed_out = true <-> res = inr ErrRequestTimedOut).
  { subst timed_out. destruct res as [p|e].
    - split; discriminate.
    - rewrite error_eqb_eq. split; congruence. }
  assert (Hfinal : forall w', listens w9 w' ->
     clock w <= clock w' /\
     exists reads : list event,
       trace w' = trace w ++ EvWrite (clock w5) frame :: reads /\
       Forall (is_read_after (clock w5)) reads /\
       (dur_mul n (t1 at_) + t35 at_ < 2 ^ 63 ->
        Forall (is_read_after (est ts + t35 at_)) reads)).
  { intros w' L10.
    pose proof (listens_trans _ _ _ L8 (listens_trans _ _ _ L9 L10)) as L.
    destruct L as (CL & _ & _ & reads & TL & FL).
    destruct (idles_trans _ _ _ I6 I7) as (C67 & _ & _ & T67).
    split; [lia|]. exists reads. split.
    - rewrite TL, T67, Tr5, <- app_assoc. reflexivity.
    - split.
      + apply (Forall_read_after_le _ (clock w7)); [lia|exact FL].
      + intros Hfit. apply (Forall_read_after_le _ (clock w7)); [|exact FL].
        subst est. cbv beta.
        assert (Hd : ts + dur_mul n (t1 at_) + t35 at_ - now2 <= d).
        { subst d. unfold time_Sub, time_Add. apply sat64_below.
          destruct I6 as (C6 & _). lia. }
        destruct I6 as (C6 & _). lia. }
  destruct (negb timed_out) eqn:Eto.
  - destruct (time_Now w9) as [now3 w10] eqn:E10.
    apply time_Now_spec in E10. destruct E10 as [I10 Enow3].
    cbn [lastActivity set_lastActivity t35 t1 timeout].
    destruct (Hfinal w10 (idles_listens _ _ I10)) as (Hc & reads & Ht & F1 & F2).
    split; [repeat split|]. split; [exact Hc|].
    exists ts, (clock w5). split; [exact Hts|]. split; [exact Hsilence|].
    exists reads. split; [exact Ht|]. split; [exact F1|].
    split; [exact F2|]. split.
    + intros Hres. apply Hto in Hres. rewrite Hres in Eto. discriminate.
    + intros _. exact Enow3.
  - cbn [lastActivity set_lastActivity t35 t1 timeout].
    destruct (Hfinal w9 (listens_refl w9)) as (Hc & reads & Ht & F1 & F2).
    split; [repeat split|]. split; [exact Hc|].
    exists ts, (clock w5). split; [exact Hts|]. split; [exact Hsilence|].
    exists reads. split; [exact Ht|]. split; [exact F1|].
    split; [exact F2|]. split.
    + intros _. reflexivity.
    + intros Hres. exfalso. apply Hres. apply Hto.
      destruct timed_out; [reflexivity|discriminate].
Qed.

Lemma reads_hold_no_write (x t : Z) (f : list byte) (reads : list event) :
  Forall (is_read_after x) reads -> ~ In (EvWrite t f) reads.
Proof.
  intros F Hin. rewrite Forall_forall in F. exact (F _ Hin).
Qed.

Lemma reads_are_late (x t : Z) (reads : list event) :
  Forall (is_read_after x) reads -> In (EvRead t) reads -> x <= t.
Proof.
  intros F Hin. rewrite Forall_forall in F. exact (F _ Hin).
Qed.

(** * Further properties of the code *)

(** ** More about the checksum *)

Lemma byte_val_inj (a b : byte) : byte_val a = byte_val b -> a = b.
Proof.
  intros H. rewrite <- (to_byte_byte_val a), <- (to_byte_byte_val b), H.
  reflexivity.
Qed.

Lemma total_app (a b : list byte) : total (a ++ b) = total a + total b.
Proof.
  induction a as [|x a IH]; cbn [app total fold_right]; [reflexivity|].
  fold (total (a ++ b)) (total a). rewrite IH. lia.
Qed.

Lemma total_cons (x : byte) (a : list byte) :
  total (x :: a) = byte_val x + total a.
Proof. reflexivity. Qed.

(** The checksum only depends on the sum of the bytes modulo 256. *)
Lemma computeLRC_congr (a b : list byte) :
  total a mod 256 = total b mod 256 <-> computeLRC a = computeLRC b.
Proof.
  split.
  - intros H. unfold computeLRC. cbv zeta.
    replace (lrc_sum a) with (lrc_sum b); [reflexivity|].
    apply byte_val_inj. rewrite !lrc_sum_spec. symmetry. exact H.
  - intros H. apply (f_equal byte_val) in H.
    rewrite !computeLRC_val in H.
    pose proof (Z.mod_pos_bound (total a) 256 ltac:(lia)).
    pose proof (Z.mod_pos_bound (total b) 256 ltac:(lia)).
    pose proof (Z.mod_pos_bound (- total a) 256 ltac:(lia)).
    pose proof (Z.mod_pos_bound (- total b) 256 ltac:(lia)).
    pose proof (Z.div_mod (total a) 256 ltac:(lia)).
    pose proof (Z.div_mod (total b) 256 ltac:(lia)).
    pose proof (Z.div_mod (- total a) 256 ltac:(lia)).
    pose proof (Z.div_mod (- total b) 256 ltac:(lia)).
    lia.
Qed.

(** X1. A sequence followed by its own LRC sums to zero: the running sum
    of [computeLRC] over it is 0, and so is its LRC.  A receiver may
    check a frame by adding up all of its bytes, the LRC included. *)
Theorem lrc_closes_the_sum :
  forall data : list byte,
    lrc_sum (data ++ [computeLRC data]) = x00 /\
    computeLRC (data ++ [computeLRC data]) = x00 /\
    verifyLRC (data ++ [computeLRC data]) x00 = true.
Proof.
  intros data.
  assert (Hs : lrc_sum (data ++ [computeLRC data]) = x00).
  { apply byte_val_inj. rewrite lrc_sum_spec, total_app, total_cons.
    cbn [total fold_right]. rewrite Z.add_0_r, computeLRC_val.
    rewrite Zplus_mod_idemp_r.
    replace (total data + - total data) with 0 by lia. reflexivity. }
  assert (Hc : computeLRC (data ++ [computeLRC data]) = x00)
    by (unfold computeLRC at 1; cbv zeta; rewrite Hs; reflexivity).
  repeat split; try assumption.
  unfold verifyLRC. rewrite Hc. reflexivity.
Qed.

(** X2. The LRC detects every corruption of a single byte: when one byte
    of a sequence is replaced by a different one, the LRC changes, and
    [verifyLRC] refuses the old LRC for the new sequence. *)
Theorem lrc_detects_single_byte_corruption :
  forall (a b : list byte) (x y : byte),
    x <> y ->
    computeLRC (a ++ y :: b) <> computeLRC (a ++ x :: b) /\
    verifyLRC (a ++ y :: b) (computeLRC (a ++ x :: b)) = false.
Proof.
  intros a b x y Hxy.
  assert (Hne : computeLRC (a ++ y :: b) <> computeLRC (a ++ x :: b)).
  { intros E. apply computeLRC_congr in E.
    rewrite !total_app, !total_cons in E.
    pose proof (byte_val_range x) as Hx.
    pose proof (byte_val_range y) as Hy.
    apply Hxy, byte_val_inj.
    set (s := total a) in *. set (r := total b) in *.
    pose proof (Z.div_mod (s + (byte_val y + r)) 256 ltac:(lia)).
    pose proof (Z.div_mod (s + (byte_val x + r)) 256 ltac:(lia)).
    lia. }
  split; [exact Hne|].
  unfold verifyLRC. apply byte_eqb_neq. exact Hne.
Qed.

Lemma lrc_detects_single_byte_corruption_witness :
  x03 <> x04 /\
  computeLRC ([x01] ++ x04 :: [x00; x13]) <>
  computeLRC ([x01] ++ x03 :: [x00; x13]) /\
  verifyLRC ([x01] ++ x04 :: [x00; x13])
            (computeLRC ([x01] ++ x03 :: [x00; x13])) = false.
Proof.
  assert (H : x03 <> x04) by discriminate.
  split; [exact H|].
  exact (lrc_detects_single_byte_corruption [x01] [x00; x13] x03 x04 H).
Defined.

Lemma total_perm (a b : list byte) : Permutation a b -> total a = total b.
Proof.
  induction 1 as [|x a b _ IH|x y a|a b c _ IH1 _ IH2].
  - reflexivity.
  - rewrite !total_cons, IH. reflexivity.
  - rewrite !total_cons. lia.
  - congruence.
Qed.

(** X3. The LRC does not depend on the order of the bytes: sequences that
    are permutations of one another have the same LRC, so a reordering is
    never detected; and the LRC of a concatenation is the sum, modulo
    256, of the LRCs of its parts. *)
Theorem lrc_ignores_order :
  (forall a b : list byte,
      Permutation a b -> computeLRC a = computeLRC b) /\
  (forall a b : list byte,
      computeLRC (a ++ b) =
      to_byte (byte_val (computeLRC a) + byte_val (computeLRC b))).
Proof.
  split.
  - intros a b Hp. apply computeLRC_congr.
    rewrite (total_perm a b Hp). reflexivity.
  - intros a b. apply byte_val_inj.
    rewrite byte_val_to_byte, !computeLRC_val, total_app.
    rewrite <- Zplus_mod. f_equal. lia.
Qed.

Lemma lrc_ignores_order_witness :
  Permutation [x10; x11; x12] [x12; x10; x11] /\
  computeLRC [x10; x11; x12] = computeLRC [x12; x10; x11].
Proof.
  assert (H : Permutation [x10; x11; x12] [x12; x10; x11]).
  { apply Permutation_sym.
    apply (Permutation_cons_app [x10; x11] [] x12).
    rewrite app_nil_r. apply Permutation_refl. }
  split; [exact H|].
  exact (proj1 lrc_ignores_order _ _ H).
Defined.

(** ** More about the frame codec *)

Lemma list_pair_ind {A} (P : list A -> Prop) :
  P [] -> (forall x, P [x]) -> (forall x y l, P l -> P (x :: y :: l)) ->
  forall l, P l.
Proof.
  intros H0 H1 H2 l.
  enough (P l /\ forall x, P (x :: l)) by tauto.
  induction l as [|a l [IH1 IH2]]; split; auto.
Qed.

Lemma hex_Decode_len (raw : list byte) :
  forall h, hex_Decode h = Some raw -> len h = 2 * len raw.
Proof.
  induction raw as [|x raw IH]; intros h E.
  - destruct h as [|p [|q h]]; [reflexivity|discriminate|].
    cbn [hex_Decode] in E.
    destruct (fromHexChar p), (fromHexChar q); try discriminate.
    destruct (hex_Decode h); discriminate.
  - destruct h as [|p [|q h]]; [discriminate|discriminate|].
    cbn [hex_Decode] in E.
    destruct (fromHexChar p), (fromHexChar q); try discriminate.
    destruct (hex_Decode h) as [out|] eqn:Eh; [|discriminate].
    inversion E; subst. rewrite !len_cons, (IH h Eh). lia.
Qed.

Lemma hex_Decode_nonhex (h : list byte) :
  Exists (fun c => fromHexChar c = None) h -> hex_Decode h = None.
Proof.
  induction h as [|x|x y h IH] using list_pair_ind; intros E.
  - inversion E.
  - reflexivity.
  - cbn [hex_Decode].
    destruct (fromHexChar x) eqn:Ex; [|reflexivity].
    destruct (fromHexChar y) eqn:Ey; [|reflexivity].
    rewrite IH; [reflexivity|].
    inversion E as [? ? Hx|? ? E']; subst; [congruence|].
    inversion E' as [? ? Hy|? ? E'']; subst; [congruence|exact E''].
Qed.

Lemma hex_Decode_same_digits (h h' : list byte) :
  Forall2 (fun c d => fromHexChar c = fromHexChar d) h h' ->
  hex_Decode h = hex_Decode h'.
Proof.
  revert h'. induction h as [|x|x y h IH] using list_pair_ind; intros h' F.
  - inversion F. reflexivity.
  - inversion F as [|? ? ? ? _ F']; subst. inversion F'. reflexivity.
  - inversion F as [|? x' ? ? Hx F']; subst.
    inversion F' as [|? y' ? h'' Hy F'']; subst.
    cbn [hex_Decode]. rewrite Hx, Hy, (IH h'' F''). reflexivity.
Qed.

Lemma Forall2_len {A B} (R : A -> B -> Prop) (l : list A) (l' : list B) :
  Forall2 R l l' -> len l = len l'.
Proof.
  intros F. unfold len. now rewrite (Forall2_length F).
Qed.

(** A line that ends in carriage return and line feed: decoded if it
    fits in the buffer, refused if it does not. *)
Lemma readASCIIFrame_framed (h : list byte) (rest : list read_outcome)
    (w : world) :
  Forall (fun b => b <> LF) h ->
  fst (readASCIIFrame
         (set_rx (arriving (COLON :: h ++ [CR; LF]) ++ rest) w)) =
  if len h + 3 <=? maxASCIIFrameLength
  then decode_frame (COLON :: h ++ [CR; LF])
  else inr ErrProtocolError.
Proof.
  intros Hlf.
  assert (Hbody : Forall (fun b => b <> LF) (h ++ [CR])).
  { apply Forall_app. split; [assumption|].
    repeat constructor. discriminate. }
  destruct (len h + 3 <=? maxASCIIFrameLength) eqn:Efit.
  - apply Z.leb_le in Efit.
    replace (COLON :: h ++ [CR; LF]) with (COLON :: (h ++ [CR]) ++ [LF])
      by (rewrite <- app_assoc; reflexivity).
    change (fst (readASCIIFrame ?x)) with (fst (outcome (readASCIIFrame x))).
    rewrite readASCIIFrame_line;
      [reflexivity | assumption
       | rewrite len_app; change (len [CR]) with 1; lia].
  - apply Z.leb_gt in Efit. unfold maxASCIIFrameLength in Efit.
    apply readASCIIFrame_overflow.
    + replace (h ++ [CR; LF]) with ((h ++ [CR]) ++ [LF])
        by (rewrite <- app_assoc; reflexivity).
      rewrite firstn_app.
      replace (Z.to_nat (maxASCIIFrameLength - 1)
               - List.length (h ++ [CR]))%nat with 0%nat.
      * cbn [firstn]. rewrite app_nil_r. apply Forall_firstn_of, Hbody.
      * rewrite length_app. cbn [List.length].
        unfold maxASCIIFrameLength, len in *. lia.
    + rewrite len_app. change (len [CR; LF]) with 2.
      unfold maxASCIIFrameLength. lia.
Qed.

(** The frame of [data] closed by an arbitrary byte in the place of the
    LRC. *)
Lemma decode_frame_closed (uid fc : byte) (pl : list byte) (x : byte) :
  decode_frame (COLON :: hex_encode (uid :: fc :: pl ++ [x]) ++ [CR; LF]) =
  if verifyLRC (uid :: fc :: pl) x then inl (mkPdu uid fc pl)
  else inr ErrBadLRC.
Proof.
  rewrite decode_frame_framed.
  set (data := uid :: fc :: pl).
  change (uid :: fc :: pl ++ [x]) with (data ++ [x]).
  rewrite hex_encode_len, hex_encode_decode.
  assert (Hlen : len (data ++ [x]) = len pl + 3).
  { rewrite len_app. subst data. rewrite !len_cons. cbn. lia. }
  pose proof (len_nonneg pl) as Hp.
  replace (2 * len (data ++ [x]) <? 6) with false
    by (symmetry; apply Z.ltb_ge; lia).
  replace (Z.rem (2 * len (data ++ [x])) 2 =? 0) with true
    by (symmetry; apply Z.eqb_eq; rewrite Z.mul_comm; apply Z.rem_mul; lia).
  cbn [negb].
  replace (len (data ++ [x]) <? 3) with false
    by (symmetry; apply Z.ltb_ge; lia).
  cbv zeta. rewrite slice_init, index_last.
  destruct (verifyLRC data x); cbn [negb]; [|reflexivity].
  subst data. rewrite slice_tail2. reflexivity.
Qed.

(** X4. Frames are unambiguous and self-delimiting: different PDUs are
    assembled into different frames, and inside a frame, between the
    leading colon and the closing carriage return and line feed, there is
    no colon, no carriage return and no line feed. *)
Theorem assembleASCIIFrame_unambiguous :
  (forall P Q : pdu, P <> Q -> assembleASCIIFrame P <> assembleASCIIFrame Q) /\
  (forall P : pdu,
      exists interior : list byte,
        assembleASCIIFrame P = COLON :: interior ++ [CR; LF] /\
        Forall (fun c => c <> COLON /\ c <> CR /\ c <> LF) interior).
Proof.
  split.
  - intros P Q Hne E. apply Hne.
    pose proof (decode_frame_assembled P) as HP.
    rewrite E, decode_frame_assembled in HP. congruence.
  - intros P. rewrite assembleASCIIFrame_eq.
    eexists. split; [reflexivity|].
    eapply Forall_impl; [|apply hex_encode_upper].
    intros c Hc. apply is_upper_hex_plain in Hc. tauto.
Qed.

Lemma assembleASCIIFrame_unambiguous_witness :
  mkPdu x01 x03 [x00] <> mkPdu x01 x03 [] /\
  assembleASCIIFrame (mkPdu x01 x03 [x00]) <>
  assembleASCIIFrame (mkPdu x01 x03 []).
Proof.
  assert (H : mkPdu x01 x03 [x00] <> mkPdu x01 x03 []) by discriminate.
  split; [exact H|].
  exact (proj1 assembleASCIIFrame_unambiguous _ _ H).
Defined.

(** What the read loop hands over when it ends at a line feed. *)
Lemma read_loop_inl (inp : list read_outcome) :
  forall colon rxbuf w r w',
    read_loop colon rxbuf inp w = (inl r, w') ->
    exists body : list byte,
      r = rxbuf ++ (if colon then [] else [COLON]) ++ body ++ [LF] /\
      Forall (fun b => b <> LF) body /\
      len r <= maxASCIIFrameLength.
Proof.
  induction inp as [|x rest IH]; intros colon rxbuf w r w' E.
  - discriminate E.
  - destruct x as [b| |e]; cbn [read_loop] in E.
    + destruct (negb colon && negb (byte_eqb b COLON)) eqn:Enoise.
      * exact (IH _ _ _ _ _ E).
      * destruct (maxASCIIFrameLength <? len (rxbuf ++ [b])) eqn:Eover;
          [discriminate E|].
        apply Z.ltb_ge in Eover.
        assert (Hstart : colon = false -> b = COLON).
        { intros ->. cbn in Enoise. apply negb_false_iff in Enoise.
          now apply byte_eqb_eq. }
        destruct (byte_eqb b LF) eqn:Elf.
        -- apply byte_eqb_eq in Elf. inversion E; subst r w'. subst b.
           destruct colon.
           ++ exists []. repeat split; [constructor|exact Eover].
           ++ discriminate (Hstart eq_refl).
        -- destruct (IH _ _ _ _ _ E) as (body & Hr & Hlf & Hlen).
           cbn [app] in Hr.
           assert (Hb : b <> LF).
           { intros ->. rewrite byte_eqb_refl in Elf. discriminate. }
           destruct colon.
           ++ exists (b :: body). split; [|split].
              ** rewrite Hr, <- app_assoc. reflexivity.
              ** constructor; assumption.
              ** exact Hlen.
           ++ rewrite (Hstart eq_refl) in Hr. exists body.
              split; [|split].
              ** rewrite Hr, <- app_assoc. reflexivity.
              ** assumption.
              ** exact Hlen.
    + exact (IH _ _ _ _ _ E).
    + discriminate E.
Qed.

Lemma last_split {A} (l : list A) : l <> [] -> exists l' a, l = l' ++ [a].
Proof.
  intros H. destruct (exists_last H) as (l' & a & E). eauto.
Qed.

(** What a line is when [decode_frame] accepts it. *)
Lemma decode_frame_inl (c0 : byte) (body : list byte) (P : pdu) :
  decode_frame (c0 :: body ++ [LF]) = inl P ->
  exists h : list byte,
    body = h ++ [CR] /\
    hex_Decode h =
    Some (unitId P :: functionCode P :: payload P
          ++ [computeLRC (unitId P :: functionCode P :: payload P)]).
Proof.
  intros E.
  destruct body as [|b0 body0] eqn:Eb.
  { discriminate E. }
  destruct (last_split (b0 :: body0) ltac:(discriminate)) as (h & z & Ez).
  rewrite Ez in E |- *. clear Eb Ez b0 body0.
  assert (Hz : z = CR).
  { unfold decode_frame in E.
    destruct (len (c0 :: (h ++ [z]) ++ [LF]) <? 3); [discriminate E|].
    destruct (byte_eqb (index (c0 :: (h ++ [z]) ++ [LF])
                              (len (c0 :: (h ++ [z]) ++ [LF]) - 2)) CR)
      eqn:Ecr; [|discriminate E].
    apply byte_eqb_eq in Ecr. rewrite <- Ecr.
    unfold index, len. cbn [List.length]. rewrite !length_app.
    cbn [List.length].
    replace (Z.to_nat (Z.of_nat (S (List.length h + 1 + 1)) - 2))
      with (S (List.length h)) by lia.
    cbn [nth]. rewrite <- app_assoc. rewrite app_nth2 by lia.
    rewrite Nat.sub_diag. reflexivity. }
  subst z. exists h. split; [reflexivity|].
  rewrite <- app_assoc in E. cbn [app] in E.
  rewrite decode_frame_framed in E.
  destruct (len h <? 6); [discriminate E|].
  destruct (negb (Z.rem (len h) 2 =? 0)); [discriminate E|].
  destruct (hex_Decode h) as [raw|]; [|discriminate E].
  destruct (len raw <? 3) eqn:Eraw; [discriminate E|].
  apply Z.ltb_ge in Eraw. cbv zeta in E.
  destruct raw as [|d0 [|d1 tl]];
    [cbn in Eraw; lia | cbn in Eraw; lia |].
  destruct tl as [|t0 tl0] eqn:Etl; [cbn in Eraw; lia|].
  destruct (last_split (t0 :: tl0) ltac:(discriminate)) as (mid & l & El).
  rewrite El in E |- *. clear Etl El t0 tl0 Eraw.
  change (d0 :: d1 :: mid ++ [l]) with ((d0 :: d1 :: mid) ++ [l]) in E.
  rewrite slice_init, index_last in E.
  destruct (verifyLRC (d0 :: d1 :: mid) l) eqn:Ev; [|discriminate E].
  cbn [negb] in E. rewrite slice_tail2 in E.
  change (index (d0 :: d1 :: mid) 0) with d0 in E.
  change (index (d0 :: d1 :: mid) 1) with d1 in E.
  inversion E; subst P. cbn [unitId functionCode payload].
  unfold verifyLRC in Ev. apply byte_eqb_eq in Ev. rewrite Ev.
  reflexivity.
Qed.

(** X5. [readASCIIFrame] never returns a PDU the line does not spell
    out with a matching checksum: when it returns [P], the line it has
    accumulated is a colon, an even number of hex digits, carriage return
    and line feed; the digits decode to the unit id, the function code and
    the payload of [P] followed by their LRC; and the payload of [P] has
    at most 252 bytes. *)
Theorem readASCIIFrame_sound :
  forall (w : world) (P : pdu),
    fst (readASCIIFrame w) = inl P ->
    len (payload P) <= 252 /\
    exists h : list byte,
      fst (read_loop false [] (rx w) w) = inl (COLON :: h ++ [CR; LF]) /\
      Forall (fun b => b <> LF) h /\
      hex_Decode h =
      Some (unitId P :: functionCode P :: payload P
            ++ [computeLRC (unitId P :: functionCode P :: payload P)]).
Proof.
  intros w P E. unfold readASCIIFrame in E.
  destruct (read_loop false [] (rx w) w) as [[r|err] w'] eqn:Eloop;
    [|discriminate E].
  cbn [fst] in E |- *.
  destruct (read_loop_inl _ _ _ _ _ _ Eloop) as (body & Hr & Hlf & Hlen).
  cbn [app] in Hr. subst r.
  destruct (decode_frame_inl _ _ _ E) as (h & Hbody & Hdec).
  subst body. apply Forall_app in Hlf. destruct Hlf as [Hlf _].
  split.
  - apply hex_Decode_len in Hdec.
    rewrite len_cons, !len_app in Hlen.
    change (len [CR]) with 1 in Hlen. change (len [LF]) with 1 in Hlen.
    rewrite !len_cons, len_app in Hdec. change (len [?x]) with 1 in Hdec.
    unfold maxASCIIFrameLength in Hlen. lia.
  - exists h. rewrite <- app_assoc. repeat split; assumption.
Qed.

Lemma readASCIIFrame_sound_witness :
  let w := wire (arriving (bytes "??:0103020005f5" ++ [CR; LF])) in
  let P := mkPdu x01 x03 [x02; x00; x05] in
  fst (readASCIIFrame w) = inl P /\
  len (payload P) <= 252 /\
  exists h : list byte,
    fst (read_loop false [] (rx w) w) = inl (COLON :: h ++ [CR; LF]) /\
    Forall (fun b => b <> LF) h /\
    hex_Decode h =
    Some (unitId P :: functionCode P :: payload P
          ++ [computeLRC (unitId P :: functionCode P :: payload P)]).
Proof.
  intros w P.
  assert (H : fst (readASCIIFrame w) = inl P) by (vm_compute; reflexivity).
  split; [exact H|]. exact (readASCIIFrame_sound w P H).
Defined.

(** X6. [readASCIIFrame] looks at the value of the hex digits only, not
    at how they are written: two lines whose regions between the colon
    and the line end have digits of the same values (upper or lower case)
    give the same result. *)
Theorem readASCIIFrame_ignores_digit_case :
  forall (h h' : list byte) (rest : list read_outcome) (w : world),
    Forall2 (fun c d => fromHexChar c = fromHexChar d) h h' ->
    Forall (fun b => b <> LF) h ->
    Forall (fun b => b <> LF) h' ->
    fst (readASCIIFrame
           (set_rx (arriving (COLON :: h ++ [CR; LF]) ++ rest) w)) =
    fst (readASCIIFrame
           (set_rx (arriving (COLON :: h' ++ [CR; LF]) ++ rest) w)).
Proof.
  intros h h' rest w Hsame Hlf Hlf'.
  rewrite !readASCIIFrame_framed by assumption.
  rewrite <- (Forall2_len _ _ _ Hsame).
  destruct (len h + 3 <=? maxASCIIFrameLength); [|reflexivity].
  rewrite !decode_frame_framed.
  rewrite <- (Forall2_len _ _ _ Hsame).
  rewrite (hex_Decode_same_digits _ _ Hsame). reflexivity.
Qed.

Lemma readASCIIFrame_ignores_digit_case_witness :
  let h := bytes "0103020005F5" in
  let h' := bytes "0103020005f5" in
  (Forall2 (fun c d => fromHexChar c = fromHexChar d) h h' /\
   Forall (fun b => b <> LF) h /\ Forall (fun b => b <> LF) h') /\
  fst (readASCIIFrame
         (set_rx (arriving (COLON :: h ++ [CR; LF]) ++ []) (wire []))) =
  fst (readASCIIFrame
         (set_rx (arriving (COLON :: h' ++ [CR; LF]) ++ []) (wire []))).
Proof.
  intros h h'.
  assert (H1 : Forall2 (fun c d => fromHexChar c = fromHexChar d) h h')
    by (repeat constructor).
  assert (H2 : Forall (fun b => b <> LF) h)
    by (repeat constructor; discriminate).
  assert (H3 : Forall (fun b => b <> LF) h')
    by (repeat constructor; discriminate).
  split; [repeat split; assumption|].
  exact (readASCIIFrame_ignores_digit_case h h' [] (wire []) H1 H2 H3).
Defined.

(** X7. A character that is no hex digit anywhere between the colon and
    the line end makes the frame a protocol error, as soon as that region
    has six characters or more (below six, the frame is short). *)
Theorem readASCIIFrame_rejects_non_hex :
  forall (h : list byte) (rest : list read_outcome) (w : world),
    Forall (fun b => b <> LF) h ->
    Exists (fun c => fromHexChar c = None) h ->
    fst (readASCIIFrame
           (set_rx (arriving (COLON :: h ++ [CR; LF]) ++ rest) w)) =
    if len h <? 6 then inr ErrShortFrame else inr ErrProtocolError.
Proof.
  intros h rest w Hlf Hbad.
  rewrite readASCIIFrame_framed by assumption.
  destruct (len h + 3 <=? maxASCIIFrameLength) eqn:Efit.
  - rewrite decode_frame_framed.
    destruct (len h <? 6); [reflexivity|].
    rewrite (hex_Decode_nonhex h Hbad).
    destruct (negb (Z.rem (len h) 2 =? 0)); reflexivity.
  - apply Z.leb_gt in Efit. unfold maxASCIIFrameLength in Efit.
    replace (len h <? 6) with false by (symmetry; apply Z.ltb_ge; lia).
    reflexivity.
Qed.

Lemma readASCIIFrame_rejects_non_hex_witness :
  let h := bytes "01:3020005F5" in
  (Forall (fun b => b <> LF) h /\
   Exists (fun c => fromHexChar c = None) h) /\
  fst (readASCIIFrame
         (set_rx (arriving (COLON :: h ++ [CR; LF]) ++ []) (wire []))) =
  inr ErrProtocolError.
Proof.
  intros h.
  assert (H1 : Forall (fun b => b <> LF) h)
    by (repeat constructor; discriminate).
  assert (H2 : Exists (fun c => fromHexChar c = None) h)
    by (do 2 apply Exists_cons_tl; apply Exists_cons_hd; reflexivity).
  split; [split; assumption|].
  exact (readASCIIFrame_rejects_non_hex h [] (wire []) H1 H2).
Defined.

(** X8. A line whose line feed is not preceded by a carriage return is a
    protocol error, whatever it holds: the empty line [":\n"] and every
    line whose last character before the line feed is not a carriage
    return. *)
Theorem readASCIIFrame_requires_carriage_return :
  forall (body : list byte) (rest : list read_outcome) (w : world),
    Forall (fun b => b <> LF) body ->
    (forall h, body <> h ++ [CR]) ->
    fst (readASCIIFrame
           (set_rx (arriving (COLON :: body ++ [LF]) ++ rest) w)) =
    inr ErrProtocolError.
Proof.
  intros body rest w Hlf Hcr.
  destruct (Z_le_gt_dec (len body + 2) maxASCIIFrameLength) as [Hfit|Hbig].
  - change (fst (readASCIIFrame ?x)) with (fst (outcome (readASCIIFrame x))).
    rewrite readASCIIFrame_line by assumption. cbn [fst].
    destruct (decode_frame (COLON :: body ++ [LF])) as [P|e] eqn:E.
    + destruct (decode_frame_inl _ _ _ E) as (h & Hb & _).
      exfalso. exact (Hcr h Hb).
    + unfold decode_frame in E.
      destruct (len (COLON :: body ++ [LF]) <? 3) eqn:E3;
        [congruence|].
      destruct (byte_eqb (index (COLON :: body ++ [LF])
                                (len (COLON :: body ++ [LF]) - 2)) CR)
        eqn:Ecr; [|cbn [negb] in E; congruence].
      exfalso. apply byte_eqb_eq in Ecr. apply Z.ltb_ge in E3.
      rewrite len_cons, len_app in E3. change (len [LF]) with 1 in E3.
      destruct body as [|b0 body0] eqn:Eb; [cbn in E3; lia|].
      destruct (last_split (b0 :: body0) ltac:(discriminate))
        as (h & z & Ez).
      rewrite Ez in Ecr. apply (Hcr h). rewrite Ez. f_equal. f_equal.
      rewrite <- Ecr. unfold index, len. cbn [List.length].
      rewrite !length_app. cbn [List.length].
      replace (Z.to_nat (Z.of_nat (S (List.length h + 1 + 1)) - 2))
        with (S (List.length h)) by lia.
      cbn [nth]. rewrite <- app_assoc. rewrite app_nth2 by lia.
      rewrite Nat.sub_diag. reflexivity.
  - unfold maxASCIIFrameLength in Hbig.
    apply readASCIIFrame_overflow.
    + rewrite firstn_app.
      replace (Z.to_nat (maxASCIIFrameLength - 1) - List.length body)%nat
        with 0%nat by (unfold maxASCIIFrameLength, len in *; lia).
      cbn [firstn]. rewrite app_nil_r. apply Forall_firstn_of, Hlf.
    + rewrite len_app. change (len [LF]) with 1.
      unfold maxASCIIFrameLength. lia.
Qed.

Lemma readASCIIFrame_requires_carriage_return_witness :
  let body := bytes "0103020005F5" in
  (Forall (fun b => b <> LF) body /\ (forall h, body <> h ++ [CR])) /\
  fst (readASCIIFrame
         (set_rx (arriving (COLON :: body ++ [LF]) ++ []) (wire []))) =
  inr ErrProtocolError /\
  fst (readASCIIFrame
         (set_rx (arriving (COLON :: [] ++ [LF]) ++ []) (wire []))) =
  inr ErrProtocolError.
Proof.
  intros body.
  assert (H1 : Forall (fun b => b <> LF) body)
    by (repeat constructor; discriminate).
  assert (H2 : forall h, body <> h ++ [CR]).
  { intros h E. apply (f_equal (@rev byte)) in E.
    rewrite rev_app_distr in E. discriminate E. }
  assert (H3 : forall h, @nil byte <> h ++ [CR])
    by (intros h E; symmetry in E; apply app_eq_nil in E;
        destruct E; discriminate).
  split; [split; assumption|]. split.
  - exact (readASCIIFrame_requires_carriage_return body [] (wire []) H1 H2).
  - exact (readASCIIFrame_requires_carriage_return
             [] [] (wire []) (Forall_nil _) H3).
Defined.

(** X9. A frame that is well formed but for its checksum is a bad-LRC
    error: for every PDU with at most 252 payload bytes and every byte
    [X] other than the LRC of its unit id, function code and payload, the
    frame that carries [X] in the place of the LRC is refused with
    [ErrBadLRC]. *)
Theorem readASCIIFrame_rejects_wrong_lrc :
  forall (P : pdu) (X : byte) (rest : list read_outcome) (w : world),
    let data := unitId P :: functionCode P :: payload P in
    len (payload P) <= 252 ->
    X <> computeLRC data ->
    fst (readASCIIFrame
           (set_rx (arriving (COLON :: hex_encode (data ++ [X]) ++ [CR; LF])
                      ++ rest) w)) =
    inr ErrBadLRC.
Proof.
  intros P X rest w data Hlen HX.
  rewrite readASCIIFrame_framed.
  - replace (len (hex_encode (data ++ [X])) + 3 <=? maxASCIIFrameLength)
      with true.
    + subst data. change ((unitId P :: functionCode P :: payload P) ++ [X])
        with (unitId P :: functionCode P :: payload P ++ [X]).
      rewrite decode_frame_closed.
      unfold verifyLRC. rewrite byte_eqb_neq by congruence. reflexivity.
    + symmetry. apply Z.leb_le. rewrite hex_encode_len, len_app.
      subst data. rewrite !len_cons. change (len (@nil byte)) with 0.
      unfold maxASCIIFrameLength. lia.
  - eapply Forall_impl; [|apply hex_encode_upper].
    intros c Hc. apply is_upper_hex_plain in Hc. tauto.
Qed.

Lemma readASCIIFrame_rejects_wrong_lrc_witness :
  let P := mkPdu x31 x03 [x04; x11; x22; x33] in
  let data := unitId P :: functionCode P :: payload P in
  (len (payload P) <= 252 /\ x00 <> computeLRC data) /\
  fst (readASCIIFrame
         (set_rx (arriving (COLON :: hex_encode (data ++ [x00]) ++ [CR; LF])
                    ++ [])
                 (wire []))) =
  inr ErrBadLRC.
Proof.
  intros P data.
  assert (H1 : len (payload P) <= 252) by (vm_compute; discriminate).
  assert (H2 : x00 <> computeLRC data) by (vm_compute; discriminate).
  split; [split; assumption|].
  exact (readASCIIFrame_rejects_wrong_lrc P x00 [] (wire []) H1 H2).
Defined.

Lemma read_loop_fst_indep (inp : list read_outcome) (colon : bool)
    (rxbuf : list byte) (w w' : world) :
  fst (read_loop colon rxbuf inp w) = fst (read_loop colon rxbuf inp w').
Proof.
  exact (f_equal fst (read_loop_indep inp colon rxbuf w w')).
Qed.

(** Bytes of a line that has not ended yet go to the buffer. *)
Lemma read_loop_accumulate (body : list byte) (tl : list read_outcome) :
  Forall (fun b => b <> LF) body ->
  forall rxbuf w,
    len rxbuf + len body <= maxASCIIFrameLength ->
    outcome (read_loop true rxbuf (arriving body ++ tl) w) =
    outcome (read_loop true (rxbuf ++ body) tl w).
Proof.
  induction 1 as [|b body Hb _ IH]; intros rxbuf w Hlen.
  - rewrite app_nil_r. reflexivity.
  - cbn [arriving map app read_loop negb andb].
    rewrite len_cons in Hlen. pose proof (len_nonneg body) as Hnn.
    replace (maxASCIIFrameLength <? len (rxbuf ++ [b])) with false
      by (symmetry; apply Z.ltb_ge; rewrite len_app;
          change (len [b]) with 1; lia).
    rewrite (byte_eqb_neq _ _ Hb). fold (arriving body).
    rewrite IH by (rewrite len_app; change (len [b]) with 1; lia).
    rewrite <- app_assoc. apply read_loop_indep.
Qed.

(** X10. A read that fails while [readASCIIFrame] is still waiting for
    the end of a line ends the call: after any line noise and any
    unfinished line, an error of the link is returned as it is, or as
    [ErrRequestTimedOut] when it is a timeout, and so is the expiry of
    the deadline when nothing more arrives; what has been accumulated is
    dropped, and what follows the failed read stays on the link. *)
Theorem readASCIIFrame_gives_up_on_read_error :
  forall (noise line : list byte) (e : error) (rest : list read_outcome)
         (w : world),
    Forall (fun b => b <> COLON) noise ->
    (line = [] \/ exists body, line = COLON :: body) ->
    Forall (fun b => b <> LF) line ->
    len line <= maxASCIIFrameLength ->
    outcome (readASCIIFrame
               (set_rx (arriving (noise ++ line) ++ RdErr e :: rest) w)) =
    (inr (if os_IsTimeout e then ErrRequestTimedOut else e), rest) /\
    outcome (readASCIIFrame (set_rx (arriving (noise ++ line) ++ []) w)) =
    (inr ErrRequestTimedOut, []).
Proof.
  intros noise line e rest w Hnoise Hline Hlf Hlen.
  assert (Hgen : forall tl,
    outcome (readASCIIFrame (set_rx (arriving (noise ++ line) ++ tl) w)) =
    match outcome (read_loop (negb (len line =? 0)) line tl w) with
    | (inl rxbuf, remaining) => (decode_frame rxbuf, remaining)
    | (inr err, remaining) => (inr err, remaining)
    end).
  { intros tl. rewrite readASCIIFrame_outcome. cbn [set_rx rx].
    unfold arriving. rewrite map_app, <- app_assoc.
    fold (arriving noise) (arriving line).
    rewrite (read_loop_noise noise _ Hnoise).
    destruct Hline as [-> | [body ->]].
    - cbn [arriving map app]. change (negb (len (@nil byte) =? 0)) with false.
      rewrite (read_loop_indep tl false [] _ w). reflexivity.
    - replace (negb (len (COLON :: body) =? 0)) with true
        by (rewrite len_cons; pose proof (len_nonneg body);
            symmetry; apply negb_true_iff, Z.eqb_neq; lia).
      cbn [arriving map app read_loop negb andb].
      change (byte_eqb COLON COLON) with true.
      change (byte_eqb COLON LF) with false. cbn [negb].
      change (maxASCIIFrameLength <? len [COLON]) with false. cbv iota.
      fold (arriving body). inversion Hlf; subst.
      rewrite read_loop_accumulate;
        [| assumption
         | rewrite len_cons in Hlen; change (len [COLON]) with 1; lia].
      cbn [app]. rewrite (read_loop_indep tl true _ _ w). reflexivity. }
  split; rewrite Hgen; reflexivity.
Qed.

Lemma readASCIIFrame_gives_up_on_read_error_witness :
  let noise := bytes "xx" in
  let line := COLON :: bytes "0103" in
  (Forall (fun b => b <> COLON) noise /\
   (line = [] \/ exists body, line = COLON :: body) /\
   Forall (fun b => b <> LF) line /\
   len line <= maxASCIIFrameLength) /\
  outcome (readASCIIFrame
             (set_rx (arriving (noise ++ line)
                        ++ RdErr (LinkError false 7) :: [RdByte x30])
                     (wire []))) =
  (inr (LinkError false 7), [RdByte x30]) /\
  outcome (readASCIIFrame
             (set_rx (arriving (noise ++ line) ++ []) (wire []))) =
  (inr ErrRequestTimedOut, []).
Proof.
  intros noise line.
  assert (H1 : Forall (fun b => b <> COLON) noise)
    by (repeat constructor; discriminate).
  assert (H2 : line = [] \/ exists body, line = COLON :: body)
    by (right; eexists; reflexivity).
  assert (H3 : Forall (fun b => b <> LF) line)
    by (repeat constructor; discriminate).
  assert (H4 : len line <= maxASCIIFrameLength)
    by (vm_compute; discriminate).
  split; [repeat split; assumption|].
  exact (readASCIIFrame_gives_up_on_read_error
           noise line (LinkError false 7) [RdByte x30] (wire [])
           H1 H2 H3 H4).
Defined.

Lemma read_loop_skips_empty_read (pre post : list read_outcome) :
  forall colon rxbuf w,
    fst (read_loop colon rxbuf (pre ++ RdNone :: post) w) =
    fst (read_loop colon rxbuf (pre ++ post) w).
Proof.
  induction pre as [|x pre IH]; intros colon rxbuf w.
  - cbn [app read_loop]. apply read_loop_fst_indep.
  - assert (Hrec : forall c b v v',
              fst (read_loop c b (pre ++ RdNone :: post) v) =
              fst (read_loop c b (pre ++ post) v'))
      by (intros c b v v'; rewrite IH; apply read_loop_fst_indep).
    destruct x as [b| |e]; cbn [app read_loop].
    + destruct (negb colon && negb (byte_eqb b COLON)); [apply Hrec|].
      destruct (maxASCIIFrameLength <? len (rxbuf ++ [b])); [reflexivity|].
      destruct (byte_eqb b LF); [reflexivity|apply Hrec].
    + apply Hrec.
    + reflexivity.
Qed.

(** X11. A read that returns no byte and no error is ignored: wherever
    it happens in the stream, the result of [readASCIIFrame] is the one
    it has without it. *)
Theorem readASCIIFrame_ignores_empty_reads :
  forall (pre post : list read_outcome) (w : world),
    fst (readASCIIFrame (set_rx (pre ++ RdNone :: post) w)) =
    fst (readASCIIFrame (set_rx (pre ++ post) w)).
Proof.
  intros pre post w.
  change (fst (readASCIIFrame ?x)) with (fst (outcome (readASCIIFrame x))).
  rewrite !readASCIIFrame_outcome. cbn [set_rx rx].
  pose proof (read_loop_skips_empty_read pre post false []
                (set_rx (pre ++ RdNone :: post) w)) as H.
  rewrite (read_loop_fst_indep (pre ++ post) false [] _
             (set_rx (pre ++ post) w)) in H.
  unfold outcome.
  destruct (read_loop false [] (pre ++ RdNone :: post) _) as [[r1|e1] w1];
  destruct (read_loop false [] (pre ++ post) _) as [[r2|e2] w2];
  cbn [fst snd] in *; congruence.
Qed.

(** Only what the link has to deliver matters to [readASCIIFrame]. *)
Lemma readASCIIFrame_from (l : list read_outcome) (w w' : world) :
  rx w = l ->
  outcome (readASCIIFrame w) = outcome (readASCIIFrame (set_rx l w')).
Proof.
  intros <-. rewrite (readASCIIFrame_indep w).
  rewrite (readASCIIFrame_indep (set_rx (rx w) w')). reflexivity.
Qed.

(** X12. One call, one frame: when two frames arrive back to back, the
    first call of [readASCIIFrame] returns the first PDU and a second
    call, on the link as the first one leaves it, returns the second,
    leaving what follows the two frames. *)
Theorem readASCIIFrame_takes_one_frame_per_call :
  forall (P Q : pdu) (rest : list read_outcome) (w : world),
    len (payload P) <= 252 ->
    len (payload Q) <= 252 ->
    let first :=
      readASCIIFrame
        (set_rx (arriving (assembleASCIIFrame P ++ assembleASCIIFrame Q)
                   ++ rest) w) in
    fst first = inl P /\
    outcome (readASCIIFrame (snd first)) = (inl Q, rest).
Proof.
  intros P Q rest w HP HQ first.
  assert (H1 : outcome first =
               (inl P, arriving (assembleASCIIFrame Q) ++ rest)).
  { subst first. unfold arriving. rewrite map_app, <- app_assoc.
    apply ascii_roundtrip_core. exact HP. }
  pose proof (f_equal fst H1) as Hres. pose proof (f_equal snd H1) as Hrx.
  cbn [outcome fst snd] in Hres, Hrx.
  split; [exact Hres|].
  rewrite (readASCIIFrame_from _ _ w Hrx).
  apply ascii_roundtrip_core. exact HQ.
Qed.

Lemma readASCIIFrame_takes_one_frame_per_call_witness :
  let P := mkPdu x01 x03 [x00; x00; x00; x01] in
  let Q := mkPdu x02 x06 [] in
  let first :=
    readASCIIFrame
      (set_rx (arriving (assembleASCIIFrame P ++ assembleASCIIFrame Q)
                 ++ [RdNone]) (wire [])) in
  (len (payload P) <= 252 /\ len (payload Q) <= 252) /\
  fst first = inl P /\
  outcome (readASCIIFrame (snd first)) = (inl Q, [RdNone]).
Proof.
  intros P Q first.
  assert (H1 : len (payload P) <= 252) by (vm_compute; discriminate).
  assert (H2 : len (payload Q) <= 252) by (vm_compute; discriminate).
  split; [split; assumption|].
  exact (readASCIIFrame_takes_one_frame_per_call P Q [RdNone] (wire [])
           H1 H2).
Defined.

(** ** More about the transport's calls *)

Lemma tick_rx (w : world) : rx (tick w) = rx w.
Proof. unfold tick. destruct (delays w); reflexivity. Qed.

Lemma tick_quiet (w : world) : delays w = [] -> tick w = w.
Proof. intros H. unfold tick. rewrite H. reflexivity. Qed.

Lemma time_Now_rx (w w' : world) (now : Z) :
  time_Now w = (now, w') -> rx w' = rx w.
Proof. unfold time_Now. intros E. inversion E. apply tick_rx. Qed.

Lemma link_SetDeadline_rx (t : Z) (w w' : world) (err : option error) :
  link_SetDeadline t w = (err, w') -> rx w' = rx w.
Proof. unfold link_SetDeadline. intros E. inversion E. apply tick_rx. Qed.

Lemma time_Sleep_rx (d : Z) (w : world) : rx (time_Sleep d w) = rx w.
Proof. unfold time_Sleep. cbn [set_clock rx]. apply tick_rx. Qed.

Lemma link_Write_rx (frame : list byte) (w w' : world)
    (r : Z * option error) :
  link_Write frame w = (r, w') -> rx w' = rx w.
Proof.
  unfold link_Write. intros E. inversion E. cbn [record rx]. apply tick_rx.
Qed.

Lemma ExecuteRequest_unfold (at_ : asciiTransport) (req : pdu) (w : world) :
  ExecuteRequest at_ req w =
  let '(now, w) := time_Now w in
  let '(err, w) := link_SetDeadline (time_Add now (timeout at_)) w in
  match err with
  | Some e => (inr e, at_, w)
  | None =>
      let '(t, w) :=
        time_Since (time_Add (lastActivity at_) (t35 at_)) w in
      let w := if t <? 0 then time_Sleep (dur_neg t) w else w in
      let '(ts, w) := time_Now w in
      let '((n, err), w) := link_Write (assembleASCIIFrame req) w in
      match err with
      | Some e => (inr e, at_, w)
      | None => after_write at_ ts n w
      end
  end.
Proof. reflexivity. Qed.

(** What happens between the write and the return. *)
Lemma after_write_spec (at_ : asciiTransport) (ts n : Z) (w : world) :
  let '(res, at', w') := after_write at_ ts n w in
  listens w w' /\
  (timeout at' = timeout at_ /\ t35 at' = t35 at_ /\ t1 at' = t1 at_) /\
  outcome (readASCIIFrame (set_rx (rx w) w)) =
  (res, if is_framing_error res
        then snd (outcome (readASCIIFrame (set_rx (rx w) w)))
        else rx w') /\
  (is_framing_error res = true ->
   clock w + Z.max 0 (dur_mul maxASCIIFrameLength (t1 at_)) <= clock w') /\
  (res <> inr ErrRequestTimedOut -> lastActivity at' = clock w') /\
  (res = inr ErrRequestTimedOut ->
   lastActivity at' = ts + dur_mul n (t1 at_)).
Proof.
  unfold after_write. cbn [lastActivity set_lastActivity t35 t1 timeout].
  destruct (time_Now w) as [now w1] eqn:E1.
  pose proof (time_Now_rx _ _ _ E1) as R1.
  apply time_Now_spec in E1. destruct E1 as [I1 _].
  set (d := time_Sub _ now).
  destruct (time_Sleep_spec d w1) as [I2 _].
  pose proof (time_Sleep_rx d w1) as R2.
  set (w2 := time_Sleep d w1) in *.
  assert (L2 : listens w w2)
    by (apply idles_listens; eapply idles_trans; eassumption).
  assert (Hread : outcome (readASCIIFrame w2) =
                  outcome (readASCIIFrame (set_rx (rx w) w)))
    by (apply readASCIIFrame_from; congruence).
  pose proof (listens_readASCIIFrame w2) as L3.
  destruct (readASCIIFrame w2) as [res w3].
  cbn [snd] in L3. unfold outcome at 1 in Hread. cbn [fst snd] in Hread.
  fold (is_framing_error res).
  set (w4 := if is_framing_error res
             then discard
                    (time_Sleep (dur_mul maxASCIIFrameLength (t1 at_)) w3)
             else w3).
  assert (L4 : listens w3 w4).
  { subst w4. destruct (is_framing_error res); [|apply listens_refl].
    eapply listens_trans; [apply listens_Sleep|apply listens_discard]. }
  assert (C4 : is_framing_error res = true ->
               clock w + Z.max 0 (dur_mul maxASCIIFrameLength (t1 at_))
               <= clock w4).
  { intros Hf. subst w4. rewrite Hf.
    destruct (time_Sleep_spec (dur_mul maxASCIIFrameLength (t1 at_)) w3)
      as [_ Hs].
    destruct (listens_discard
                (time_Sleep (dur_mul maxASCIIFrameLength (t1 at_)) w3))
      as (Hd & _).
    destruct L2 as (H2 & _). destruct L3 as (H3 & _). lia. }
  assert (R4 : is_framing_error res = false -> rx w4 = rx w3)
    by (intros Hf; subst w4; rewrite Hf; reflexivity).
  assert (Hout : forall w', rx w' = rx w4 ->
            outcome (readASCIIFrame (set_rx (rx w) w)) =
            (res, if is_framing_error res
                  then snd (outcome (readASCIIFrame (set_rx (rx w) w)))
                  else rx w')).
  { intros w' Hrx. rewrite <- Hread.
    destruct (is_framing_error res) eqn:Ef; [reflexivity|].
    rewrite Hrx, (R4 eq_refl). reflexivity. }
  set (timed_out := match res with
                    | inl _ => false
                    | inr e => error_eqb e ErrRequestTimedOut
                    end).
  assert (Hto : timed_out = true <-> res = inr ErrRequestTimedOut).
  { subst timed_out. destruct res as [p|e].
    - split; discriminate.
    - rewrite error_eqb_eq. split; congruence. }
  pose proof (listens_trans _ _ _ L2 (listens_trans _ _ _ L3 L4)) as L.
  destruct (negb timed_out) eqn:Eto.
  - destruct (time_Now w4) as [now5 w5] eqn:E5.
    pose proof (time_Now_rx _ _ _ E5) as R5.
    apply time_Now_spec in E5. destruct E5 as [I5 Enow5].
    cbn [lastActivity set_lastActivity t35 t1 timeout].
    split; [eapply listens_trans; [exact L|apply idles_listens, I5]|].
    split; [repeat split|]. split; [apply Hout, R5|].
    split; [intros Hf; destruct I5 as (? & _); specialize (C4 Hf); lia|].
    split; [intros _; exact Enow5|].
    intros Hres. apply Hto in Hres. rewrite Hres in Eto. discriminate.
  - cbn [lastActivity set_lastActivity t35 t1 timeout].
    split; [exact L|]. split; [repeat split|].
    split; [apply Hout; reflexivity|].
    split; [exact C4|]. split.
    + intros Hres. exfalso. apply Hres, Hto.
      destruct timed_out; [reflexivity|discriminate].
    + intros _. reflexivity.
Qed.

Lemma time_Sleep_quiet (d : Z) (w : world) :
  delays w = [] ->
  clock (time_Sleep d w) = clock w + Z.max 0 d /\
  delays (time_Sleep d w) = [].
Proof.
  intros H. unfold time_Sleep. rewrite (tick_quiet w H).
  split; [reflexivity|exact H].
Qed.

(** From the call to the write: where [ExecuteRequest] stands once the
    link has accepted the deadline. *)
Lemma ExecuteRequest_to_write (at_ : asciiTransport) (req : pdu)
    (w : world) :
  let frame := assembleASCIIFrame req in
  deadline_err w = None ->
  exists (ts : Z) (w5 : world),
    clock w <= ts <= clock w5 /\
    rx w5 = rx w /\
    trace w5 = trace w ++ [EvWrite (clock w5) frame] /\
    (delays w = [] ->
     lastActivity at_ + t35 at_ < clock w + 2 ^ 63 ->
     clock w5 = Z.max (clock w) (lastActivity at_ + t35 at_)) /\
    ExecuteRequest at_ req w =
    match snd (write_result w frame) with
    | Some e => (inr e, at_, w5)
    | None => after_write at_ ts (fst (write_result w frame)) w5
    end.
Proof.
  intros frame Hd. rewrite ExecuteRequest_unfold.
  unfold time_Now at 1. cbv zeta.
  unfold link_SetDeadline. cbv zeta.
  set (w1 := tick (tick w)).
  assert (I1 : idles w w1)
    by (eapply idles_trans; apply idles_tick).
  assert (R1 : rx w1 = rx w) by (subst w1; rewrite !tick_rx; reflexivity).
  assert (Q1 : delays w = [] -> w1 = w)
    by (intros Hq; subst w1; rewrite !(tick_quiet w Hq); reflexivity).
  replace (deadline_err w1) with (@None error)
    by (destruct I1 as (_ & E & _); congruence).
  unfold time_Since, time_Now. cbv zeta.
  set (w2 := tick w1).
  set (t := time_Sub (clock w2) (time_Add (lastActivity at_) (t35 at_))).
  set (w3 := if t <? 0 then time_Sleep (dur_neg t) w2 else w2).
  assert (I2 : idles w1 w2) by apply idles_tick.
  assert (I3 : idles w2 w3)
    by (subst w3; destruct (t <? 0);
        [apply time_Sleep_spec|apply idles_refl]).
  assert (R3 : rx w3 = rx w).
  { subst w3. destruct (t <? 0).
    - rewrite time_Sleep_rx. subst w2. rewrite tick_rx. exact R1.
    - subst w2. rewrite tick_rx. exact R1. }
  set (w4 := tick w3).
  unfold link_Write. cbv zeta.
  set (w5' := tick w4).
  set (w5 := record (EvWrite (clock w5') frame) w5').
  assert (I4 : idles w3 w5')
    by (eapply idles_trans; apply idles_tick).
  pose proof (idles_trans _ _ _ I1 (idles_trans _ _ _ I2
               (idles_trans _ _ _ I3 I4))) as I.
  destruct I as (C & _ & W & T).
  assert (Hw : write_result w5' frame = write_result w frame)
    by (rewrite W; reflexivity).
  exists (clock w4), w5. split; [|split; [|split; [|split]]].
  - subst w5. cbn [record clock].
    destruct (idles_trans _ _ _ I1 (idles_trans _ _ _ I2 I3)) as (C3 & _).
    destruct (idles_tick w3) as (C4 & _).
    destruct (idles_tick w4) as (C5 & _).
    fold w4 in C4. fold w5' in C5. lia.
  - subst w5 w5' w4. cbn [record rx]. rewrite !tick_rx. exact R3.
  - subst w5. cbn [record trace clock]. rewrite T. reflexivity.
  - intros Hq Hfar. subst w5. cbn [record clock].
    assert (E2 : w2 = w) by (subst w2; rewrite (Q1 Hq); apply tick_quiet, Hq).
    assert (Q3 : delays w3 = [] /\
                 clock w3 = Z.max (clock w) (lastActivity at_ + t35 at_)).
    { subst w3. subst t. rewrite E2. unfold time_Sub, time_Add.
      destruct (sat64 (clock w - (lastActivity at_ + t35 at_)) <? 0)
        eqn:Eneg.
      - apply Z.ltb_lt in Eneg.
        destruct (sat64_neg (clock w - (lastActivity at_ + t35 at_)))
          as [_ Hneg]; [lia|exact Eneg|].
        rewrite Hneg.
        destruct (time_Sleep_quiet
                    (- (clock w - (lastActivity at_ + t35 at_))) w Hq)
          as [Hc Hdl].
        split; [exact Hdl|]. rewrite Hc.
        assert (clock w - (lastActivity at_ + t35 at_) < 0)
          by (unfold sat64 in Eneg; lia).
        lia.
      - apply Z.ltb_ge in Eneg. apply sat64_nonneg in Eneg.
        split; [exact Hq|]. lia. }
    destruct Q3 as [Q3 C3].
    subst w5' w4. rewrite !(tick_quiet w3 Q3). exact C3.
  - subst w5. fold frame. rewrite Hw.
    destruct (write_result w frame) as [n [e|]]; reflexivity.
Qed.

Lemma readASCIIFrame_skips_noise (noise : list byte)
    (rest : list read_outcome) (w : world) :
  Forall (fun b => b <> COLON) noise ->
  outcome (readASCIIFrame (set_rx (arriving noise ++ rest) w)) =
  outcome (readASCIIFrame (set_rx rest w)).
Proof.
  intros Hnoise. rewrite !readASCIIFrame_outcome. cbn [set_rx rx].
  rewrite (read_loop_noise noise rest Hnoise).
  rewrite (read_loop_indep rest false [] _ (set_rx rest w)).
  reflexivity.
Qed.

Lemma arrives_after_noise (noise : list byte) (P : pdu)
    (rest : list read_outcome) (w : world) :
  Forall (fun b => b <> COLON) noise ->
  len (payload P) <= 252 ->
  outcome (readASCIIFrame
             (set_rx (arriving (noise ++ assembleASCIIFrame P) ++ rest) w)) =
  (inl P, rest).
Proof.
  intros Hn Hlen. unfold arriving. rewrite map_app, <- app_assoc.
  fold (arriving noise) (arriving (assembleASCIIFrame P)).
  rewrite (readASCIIFrame_skips_noise noise _ w Hn).
  apply ascii_roundtrip_core. exact Hlen.
Qed.

(** X13. [ExecuteRequest] returns the response that arrives: when the
    link accepts the deadline and the write, and then delivers, after any
    line noise, the frame of a PDU with at most 252 payload bytes,
    [ExecuteRequest] returns that PDU, takes nothing off the link beyond
    the frame, and sets [lastActivity] to the current time. *)
Theorem ExecuteRequest_returns_response :
  forall (at_ : asciiTransport) (req resp : pdu) (noise : list byte)
         (rest : list read_outcome) (w : world),
    deadline_err w = None ->
    snd (write_result w (assembleASCIIFrame req)) = None ->
    Forall (fun b => b <> COLON) noise ->
    len (payload resp) <= 252 ->
    rx w = arriving (noise ++ assembleASCIIFrame resp) ++ rest ->
    let '(res, at', w') := ExecuteRequest at_ req w in
    res = inl resp /\ rx w' = rest /\ lastActivity at' = clock w'.
Proof.
  intros at_ req resp noise rest w Hd Hw Hn Hlen Hrx.
  destruct (ExecuteRequest_to_write at_ req w Hd)
    as (ts & w5 & _ & R5 & _ & _ & E).
  rewrite E, Hw.
  pose proof (after_write_spec at_ ts
                (fst (write_result w (assembleASCIIFrame req))) w5) as S.
  destruct (after_write at_ ts _ w5) as [[res at'] w'].
  destruct S as (_ & _ & Hout & _ & Hnow & _).
  rewrite R5, Hrx, arrives_after_noise in Hout by assumption.
  inversion Hout as [[Hres Hrest]]. subst res. cbn [is_framing_error] in *.
  split; [reflexivity|]. split; [reflexivity|].
  apply Hnow. discriminate.
Qed.

Lemma ExecuteRequest_returns_response_witness :
  let at0 := mkTransport 300000000 0 1750000 500000 in
  let req := mkPdu x01 x03 [x00; x00; x00; x01] in
  let resp := mkPdu x01 x03 [x02; x00; x05] in
  let noise := bytes "~~" in
  let w := wire (arriving (noise ++ assembleASCIIFrame resp) ++ [RdNone]) in
  (deadline_err w = None /\
   snd (write_result w (assembleASCIIFrame req)) = None /\
   Forall (fun b => b <> COLON) noise /\
   len (payload resp) <= 252 /\
   rx w = arriving (noise ++ assembleASCIIFrame resp) ++ [RdNone]) /\
  fst (fst (ExecuteRequest at0 req w)) = inl resp /\
  rx (snd (ExecuteRequest at0 req w)) = [RdNone] /\
  lastActivity (snd (fst (ExecuteRequest at0 req w))) =
  clock (snd (ExecuteRequest at0 req w)).
Proof.
  intros at0 req resp noise w.
  assert (H1 : deadline_err w = None) by reflexivity.
  assert (H2 : snd (write_result w (assembleASCIIFrame req)) = None)
    by reflexivity.
  assert (H3 : Forall (fun b => b <> COLON) noise)
    by (repeat constructor; discriminate).
  assert (H4 : len (payload resp) <= 252) by (vm_compute; discriminate).
  assert (H5 : rx w = arriving (noise ++ assembleASCIIFrame resp)
                        ++ [RdNone]) by reflexivity.
  split; [repeat split; assumption|].
  pose proof (ExecuteRequest_returns_response
                at0 req resp noise [RdNone] w H1 H2 H3 H4 H5) as T.
  destruct (ExecuteRequest at0 req w) as [[res at'] w'].
  exact T.
Defined.

(** X14. Once the request is written, [ExecuteRequest] returns what
    [readASCIIFrame] returns on the link.  After a bad-LRC, protocol or
    short-frame error it does not return before 513 character times have
    passed since the call; after any other result, a timeout or another
    link error included, it has taken off the link exactly what
    [readASCIIFrame] has. *)
Theorem ExecuteRequest_recovers_after_framing_errors :
  forall (at_ : asciiTransport) (req : pdu) (w : world),
    deadline_err w = None ->
    snd (write_result w (assembleASCIIFrame req)) = None ->
    let '(res, at', w') := ExecuteRequest at_ req w in
    res = fst (readASCIIFrame (set_rx (rx w) w)) /\
    (res = inr ErrBadLRC \/ res = inr ErrProtocolError \/
     res = inr ErrShortFrame ->
     clock w + Z.max 0 (dur_mul maxASCIIFrameLength (t1 at_)) <= clock w') /\
    (is_framing_error res = false ->
     rx w' = rx (snd (readASCIIFrame (set_rx (rx w) w)))).
Proof.
  intros at_ req w Hd Hw.
  destruct (ExecuteRequest_to_write at_ req w Hd)
    as (ts & w5 & (Hts & C5) & R5 & _ & _ & E).
  rewrite E, Hw.
  pose proof (after_write_spec at_ ts
                (fst (write_result w (assembleASCIIFrame req))) w5) as S.
  destruct (after_write at_ ts _ w5) as [[res at'] w'].
  destruct S as (_ & _ & Hout & Hclock & _ & _).
  rewrite R5 in Hout.
  rewrite (readASCIIFrame_from (rx w) (set_rx (rx w) w5) w eq_refl) in Hout.
  unfold outcome in Hout.
  pose proof (f_equal fst Hout) as H1. pose proof (f_equal snd Hout) as H2.
  cbn [fst snd] in H1, H2.
  split; [symmetry; exact H1|]. split.
  - intros Hres. assert (Hf : is_framing_error res = true)
      by (destruct Hres as [-> | [-> | ->]]; reflexivity).
    specialize (Hclock Hf). lia.
  - intros Hf. rewrite Hf in H2. symmetry. exact H2.
Qed.

Lemma ExecuteRequest_recovers_after_framing_errors_witness :
  let at0 := mkTransport 300000000 0 1750000 500000 in
  let req := mkPdu x01 x03 [x00; x00; x00; x01] in
  let w := wire (arriving (bytes ":0103020005F4" ++ [CR; LF; x3a])) in
  (deadline_err w = None /\
   snd (write_result w (assembleASCIIFrame req)) = None /\
   fst (fst (ExecuteRequest at0 req w)) = inr ErrBadLRC) /\
  clock w + Z.max 0 (dur_mul maxASCIIFrameLength (t1 at0))
  <= clock (snd (ExecuteRequest at0 req w)).
Proof.
  intros at0 req w.
  assert (H1 : deadline_err w = None) by reflexivity.
  assert (H2 : snd (write_result w (assembleASCIIFrame req)) = None)
    by reflexivity.
  assert (H3 : fst (fst (ExecuteRequest at0 req w)) = inr ErrBadLRC)
    by (vm_compute; reflexivity).
  split; [repeat split; assumption|].
  pose proof (ExecuteRequest_recovers_after_framing_errors at0 req w H1 H2)
    as T.
  destruct (ExecuteRequest at0 req w) as [[res at'] w'].
  cbn [fst snd] in *. destruct T as (_ & T & _).
  apply T. left. exact H3.
Defined.

Lemma only_reads (t0 : Z) (l : list event) :
  Forall (is_read_after t0) l -> Forall (fun e => exists t, e = EvRead t) l.
Proof.
  apply Forall_impl. intros [t f|t]; cbn; [tauto|eauto].
Qed.

(** With no delay in the environment, the frame goes out at the end of
    the silence. *)
Lemma ExecuteRequest_writes_at_end_of_silence_core
    (at_ : asciiTransport) (req : pdu) (w : world) :
  delays w = [] ->
  deadline_err w = None ->
  lastActivity at_ + t35 at_ < clock w + 2 ^ 63 ->
  let '(res, at', w') := ExecuteRequest at_ req w in
  exists reads : list event,
    trace w' =
    trace w
    ++ EvWrite (Z.max (clock w) (lastActivity at_ + t35 at_))
               (assembleASCIIFrame req)
       :: reads /\
    Forall (fun e => exists t, e = EvRead t) reads.
Proof.
  intros Hq Hd Hfar.
  destruct (ExecuteRequest_to_write at_ req w Hd)
    as (ts & w5 & _ & _ & T5 & Hexact & E).
  rewrite E. rewrite (Hexact Hq Hfar) in T5.
  destruct (snd (write_result w (assembleASCIIFrame req))) as [e|].
  - exists []. split; [exact T5|constructor].
  - pose proof (after_write_spec at_ ts
                  (fst (write_result w (assembleASCIIFrame req))) w5) as S.
    destruct (after_write at_ ts _ w5) as [[res at'] w'].
    destruct S as ((_ & _ & _ & reads & Ht & F) & _).
    exists reads. split.
    + rewrite Ht, T5, <- app_assoc. reflexivity.
    + exact (only_reads _ _ F).
Qed.

(** X15. [ExecuteRequest] waits for the silence and no longer: when the
    environment itself takes no time (no delay before any call) and the
    link accepts the deadline, the frame is written exactly at the later
    of the time of the call and [lastActivity + t35], and nothing is read
    before it. *)
Theorem ExecuteRequest_writes_at_end_of_silence :
  forall (at_ : asciiTransport) (req : pdu) (w : world),
    delays w = [] ->
    deadline_err w = None ->
    lastActivity at_ + t35 at_ < clock w + 2 ^ 63 ->
    let '(res, at', w') := ExecuteRequest at_ req w in
    exists reads : list event,
      trace w' =
      trace w
      ++ EvWrite (Z.max (clock w) (lastActivity at_ + t35 at_))
                 (assembleASCIIFrame req)
         :: reads /\
      Forall (fun e => exists t, e = EvRead t) reads.
Proof.
  intros at_ req w Hq Hd Hfar.
  exact (ExecuteRequest_writes_at_end_of_silence_core at_ req w Hq Hd Hfar).
Qed.

Lemma ExecuteRequest_writes_at_end_of_silence_witness :
  let at0 := mkTransport 300000000 5000000 1750000 500000 in
  let req := mkPdu x01 x03 [x00; x00; x00; x01] in
  let w := mkWorld 6000000 [] [] None (fun f => (len f, None)) [] in
  (delays w = [] /\ deadline_err w = None /\
   lastActivity at0 + t35 at0 < clock w + 2 ^ 63) /\
  exists reads : list event,
    trace (snd (ExecuteRequest at0 req w)) =
    trace w ++ EvWrite 6750000 (assembleASCIIFrame req) :: reads /\
    Forall (fun e => exists t, e = EvRead t) reads.
Proof.
  intros at0 req w.
  assert (H1 : delays w = []) by reflexivity.
  assert (H2 : deadline_err w = None) by reflexivity.
  assert (H3 : lastActivity at0 + t35 at0 < clock w + 2 ^ 63)
    by (vm_compute; reflexivity).
  split; [repeat split; assumption|].
  pose proof (ExecuteRequest_writes_at_end_of_silence at0 req w H1 H2 H3)
    as T.
  destruct (ExecuteRequest at0 req w) as [[res at'] w'].
  exact T.
Defined.

(** What a call of [ReadRequest] does, case by case. *)
Lemma ReadRequest_run :
  forall (at_ : asciiTransport) (w : world),
    let '(res, at', w') := ReadRequest at_ w in
    match deadline_err w with
    | Some e =>
        res = inr e /\ at' = at_ /\ rx w' = rx w /\ trace w' = trace w
    | None =>
        outcome (res, w') = outcome (readASCIIFrame (set_rx (rx w) w)) /\
        match res with
        | inl _ => at' = set_lastActivity (clock w') at_
        | inr _ => at' = at_
        end
    end.
Proof.
  intros at_ w. unfold ReadRequest.
  destruct (time_Now w) as [now w0] eqn:E0.
  pose proof (time_Now_rx _ _ _ E0) as R0.
  apply time_Now_spec in E0. destruct E0 as [I0 _].
  destruct (link_SetDeadline (time_Add now (timeout at_)) w0)
    as [err w1] eqn:E1.
  pose proof (link_SetDeadline_rx _ _ _ _ E1) as R1.
  apply link_SetDeadline_spec in E1. destruct E1 as [I1 Eerr].
  destruct (idles_trans _ _ _ I0 I1) as (_ & _ & _ & T1).
  assert (Ed : err = deadline_err w) by (rewrite Eerr; apply I0).
  rewrite <- Ed. destruct err as [e|].
  { repeat split; congruence. }
  assert (Hread : outcome (readASCIIFrame w1) =
                  outcome (readASCIIFrame (set_rx (rx w) w)))
    by (apply readASCIIFrame_from; congruence).
  destruct (readASCIIFrame w1) as [[P|e] w2].
  - destruct (time_Now w2) as [now2 w3] eqn:E3.
    pose proof (time_Now_rx _ _ _ E3) as R3.
    apply time_Now_spec in E3. destruct E3 as [_ Enow].
    split; [|rewrite Enow; reflexivity].
    rewrite <- Hread. unfold outcome. cbn [fst snd]. rewrite R3.
    reflexivity.
  - split; [exact Hread|reflexivity].
Qed.

(** X16. [ReadRequest] returns what [readASCIIFrame] returns and takes
    off the link what it takes; it sets [lastActivity] to the current
    time when a request has been read, and leaves the transport as it
    was after every error, a timeout or not.  When the link refuses the
    deadline, that error is returned and nothing is read. *)
Theorem ReadRequest_spec :
  forall (at_ : asciiTransport) (w : world),
    let '(res, at', w') := ReadRequest at_ w in
    match deadline_err w with
    | Some e =>
        res = inr e /\ at' = at_ /\ rx w' = rx w /\ trace w' = trace w
    | None =>
        outcome (res, w') = outcome (readASCIIFrame (set_rx (rx w) w)) /\
        match res with
        | inl _ => at' = set_lastActivity (clock w') at_
        | inr _ => at' = at_
        end
    end.
Proof.
  exact ReadRequest_run.
Qed.

(** What a call of [WriteResponse] does, case by case. *)
Lemma WriteResponse_run :
  forall (at_ : asciiTransport) (res : pdu) (w : world),
    let frame := assembleASCIIFrame res in
    let '(err, at', w') := WriteResponse at_ res w in
    rx w' = rx w /\
    match deadline_err w with
    | Some e => err = Some e /\ at' = at_ /\ trace w' = trace w
    | None =>
        (exists tw : Z,
            trace w' = trace w ++ [EvWrite tw frame] /\
            clock w <= tw <= clock w' /\
            (delays w = [] -> tw = clock w)) /\
        match snd (write_result w frame) with
        | Some e => err = Some e /\ at' = at_
        | None =>
            err = None /\
            at' = set_lastActivity
                    (clock w' + dur_mul (fst (write_result w frame)) (t1 at_))
                    at_
        end
    end.
Proof.
  intros at_ res w frame. unfold WriteResponse.
  unfold time_Now at 1. cbv zeta. unfold link_SetDeadline. cbv zeta.
  set (w1 := tick (tick w)).
  assert (I1 : idles w w1) by (eapply idles_trans; apply idles_tick).
  assert (R1 : rx w1 = rx w) by (subst w1; rewrite !tick_rx; reflexivity).
  assert (Q1 : delays w = [] -> w1 = w)
    by (intros Hq; subst w1; rewrite !(tick_quiet w Hq); reflexivity).
  destruct I1 as (C1 & D1 & W1 & T1). rewrite D1.
  destruct (deadline_err w) as [e|].
  { repeat split; assumption. }
  unfold link_Write. cbv zeta. fold frame.
  set (w2 := tick w1).
  destruct (idles_tick w1) as (C2 & _ & W2 & T2). fold w2 in C2, W2, T2.
  assert (R2 : rx w2 = rx w) by (subst w2; rewrite tick_rx; exact R1).
  assert (Hwr : write_result w2 frame = write_result w frame)
    by (rewrite W2, W1; reflexivity).
  rewrite Hwr.
  assert (Q2 : delays w = [] -> clock w2 = clock w).
  { intros Hq. subst w2. rewrite (Q1 Hq), (tick_quiet w Hq). reflexivity. }
  destruct (write_result w frame) as [n [e|]]; cbn [fst snd].
  - split; [exact R2|]. split; [|split; reflexivity].
    exists (clock w2). split; [cbn; rewrite T2, T1; reflexivity|].
    split; [cbn; lia|exact Q2].
  - unfold time_Now. cbv zeta.
    set (w3 := record (EvWrite (clock w2) frame) w2).
    destruct (idles_tick w3) as (C3 & _ & _ & T3).
    split; [rewrite tick_rx; exact R2|]. split; [|split; reflexivity].
    exists (clock w2). split; [rewrite T3; cbn; rewrite T2, T1; reflexivity|].
    split; [cbn in C3; lia|exact Q2].
Qed.

(** X17. [WriteResponse] writes the frame of the response once, without
    waiting for any silence on the line and without ever reading: when
    the environment takes no time the write is issued at the time of the
    call.  After a successful write [lastActivity] is the time of return
    plus the number of bytes written times t1; when the link refuses the
    deadline nothing is written, and after a failed deadline or write the
    transport is as it was. *)
Theorem WriteResponse_spec :
  forall (at_ : asciiTransport) (res : pdu) (w : world),
    let frame := assembleASCIIFrame res in
    let '(err, at', w') := WriteResponse at_ res w in
    rx w' = rx w /\
    match deadline_err w with
    | Some e => err = Some e /\ at' = at_ /\ trace w' = trace w
    | None =>
        (exists tw : Z,
            trace w' = trace w ++ [EvWrite tw frame] /\
            clock w <= tw <= clock w' /\
            (delays w = [] -> tw = clock w)) /\
        match snd (write_result w frame) with
        | Some e => err = Some e /\ at' = at_
        | None =>
            err = None /\
            at' = set_lastActivity
                    (clock w' + dur_mul (fst (write_result w frame)) (t1 at_))
                    at_
        end
    end.
Proof.
  exact WriteResponse_run.
Qed.

Lemma WriteResponse_spec_witness :
  let at0 := mkTransport 300000000 0 1750000 500000 in
  let res := mkPdu x01 x03 [x02; x00; x05] in
  let w := mkWorld 42 [] [RdByte x3a] None (fun f => (len f, None)) [] in
  delays w = [] /\
  rx (snd (WriteResponse at0 res w)) = rx w /\
  (exists tw : Z,
      trace (snd (WriteResponse at0 res w)) =
      trace w ++ [EvWrite tw (assembleASCIIFrame res)] /\
      clock w <= tw <= clock (snd (WriteResponse at0 res w)) /\
      (delays w = [] -> tw = clock w)) /\
  fst (fst (WriteResponse at0 res w)) = None.
Proof.
  intros at0 res w.
  pose proof (WriteResponse_spec at0 res w) as T.
  destruct (WriteResponse at0 res w) as [[err at'] w'] eqn:E.
  cbn [fst snd]. cbn zeta in T.
  change (deadline_err w) with (@None error) in T.
  change (snd (write_result w (assembleASCIIFrame res)))
    with (@None error) in T.
  cbv iota in T. destruct T as (T1 & T2 & T3 & _).
  repeat split; assumption.
Defined.

(** X18. What [WriteResponse] writes, [ReadRequest] reads back: when a
    response with at most 252 payload bytes has been written without
    error, the frame recorded on the
    writer's link, arriving on the link of another transport after any
    line noise, makes [ReadRequest] there return the same PDU. *)
Theorem WriteResponse_ReadRequest_loopback :
  forall (at_w at_r : asciiTransport) (P : pdu) (ww wr : world)
         (noise : list byte) (rest : list read_outcome) (tw : Z)
         (f : list byte),
    len (payload P) <= 252 ->
    fst (fst (WriteResponse at_w P ww)) = None ->
    In (EvWrite tw f) (skipn (List.length (trace ww))
                             (trace (snd (WriteResponse at_w P ww)))) ->
    Forall (fun b => b <> COLON) noise ->
    deadline_err wr = None ->
    rx wr = arriving (noise ++ f) ++ rest ->
    let '(res, at', w') := ReadRequest at_r wr in
    res = inl P /\ rx w' = rest /\ lastActivity at' = clock w'.
Proof.
  intros at_w at_r P ww wr noise rest tw f Hlen Hok Hin Hn Hd Hrx.
  assert (Hf : f = assembleASCIIFrame P).
  { pose proof (WriteResponse_run at_w P ww) as T. cbv zeta in T.
    destruct (WriteResponse at_w P ww) as [[err at'] w'].
    cbn [fst snd] in Hok, Hin. destruct T as (_ & T).
    destruct (deadline_err ww) as [e|].
    - destruct T as (T & _). congruence.
    - destruct T as ((tw' & Ht & _) & _).
      rewrite Ht, skipn_app, Nat.sub_diag, skipn_all in Hin.
      cbn in Hin. destruct Hin as [Hin|[]]. inversion Hin. reflexivity. }
  subst f.
  pose proof (ReadRequest_run at_r wr) as T.
  destruct (ReadRequest at_r wr) as [[res at'] w'].
  rewrite Hd in T. destruct T as (Hout & Hat).
  rewrite Hrx, arrives_after_noise in Hout by assumption.
  unfold outcome in Hout. cbn [fst snd] in Hout.
  inversion Hout as [[Hres Hrest]]. subst res.
  split; [reflexivity|]. split; [reflexivity|].
  rewrite Hat. reflexivity.
Qed.

Lemma WriteResponse_ReadRequest_loopback_witness :
  let at0 := mkTransport 300000000 0 1750000 500000 in
  let P := mkPdu x01 x03 [x02; x00; x05] in
  let f := assembleASCIIFrame P in
  let wr := wire (arriving (bytes "~" ++ f) ++ [RdNone]) in
  (len (payload P) <= 252 /\
   fst (fst (WriteResponse at0 P (wire []))) = None /\
   In (EvWrite 0 f)
      (skipn (List.length (trace (wire [])))
             (trace (snd (WriteResponse at0 P (wire []))))) /\
   Forall (fun b => b <> COLON) (bytes "~") /\
   deadline_err wr = None /\
   rx wr = arriving (bytes "~" ++ f) ++ [RdNone]) /\
  fst (fst (ReadRequest at0 wr)) = inl P /\
  rx (snd (ReadRequest at0 wr)) = [RdNone] /\
  lastActivity (snd (fst (ReadRequest at0 wr))) =
  clock (snd (ReadRequest at0 wr)).
Proof.
  intros at0 P f wr.
  assert (H1 : len (payload P) <= 252) by (vm_compute; discriminate).
  assert (H2 : fst (fst (WriteResponse at0 P (wire []))) = None)
    by reflexivity.
  assert (H3 : In (EvWrite 0 f)
                  (skipn (List.length (trace (wire [])))
                         (trace (snd (WriteResponse at0 P (wire []))))))
    by (left; reflexivity).
  assert (H4 : Forall (fun b => b <> COLON) (bytes "~"))
    by (repeat constructor; discriminate).
  assert (H5 : deadline_err wr = None) by reflexivity.
  assert (H6 : rx wr = arriving (bytes "~" ++ f) ++ [RdNone])
    by reflexivity.
  split; [repeat split; assumption|].
  pose proof (WriteResponse_ReadRequest_loopback
                at0 at0 P (wire []) wr (bytes "~") [RdNone] 0 f
                H1 H2 H3 H4 H5 H6) as T.
  destruct (ReadRequest at0 wr) as [[res at'] w'].
  exact T.
Defined.

(** ** The handler of the test server *)

(** An index inside a list splits it there. *)
Lemma nth_error_split {A} (l : list A) (k : nat) :
  (k < List.length l)%nat ->
  exists x, nth_error l k = Some x /\ skipn k l = x :: skipn (S k) l.
Proof.
  revert k. induction l as [|a l IH]; intros k Hk; [cbn in Hk; lia|].
  destruct k as [|k].
  - exists a. split; reflexivity.
  - destruct (IH k ltac:(cbn in Hk; lia)) as (x & H1 & H2).
    exists x. split; [exact H1|exact H2].
Qed.

Lemma assign_boundary {A} (p : list A) (x : A) (tl : list A) (v : A) :
  assign (p ++ x :: tl) (List.length p) v = Some (p ++ v :: tl).
Proof.
  induction p as [|a p IH]; cbn [app List.length assign]; [reflexivity|].
  rewrite IH. reflexivity.
Qed.

Lemma assign_window {A} (t vs : list A) (a : nat) (v : A) :
  (a + List.length vs < List.length t)%nat ->
  assign (firstn a t ++ vs ++ skipn (a + List.length vs) t)
         (a + List.length vs) v =
  Some (firstn a t ++ (vs ++ [v]) ++ skipn (a + List.length (vs ++ [v])) t).
Proof.
  intros H.
  destruct (nth_error_split t (a + List.length vs) H) as (x & _ & Hs).
  rewrite Hs.
  transitivity
    (assign ((firstn a t ++ vs) ++ x :: skipn (S (a + List.length vs)) t)
            (List.length (firstn a t ++ vs)) v).
  - f_equal; [now rewrite app_assoc|].
    rewrite length_app, length_firstn. lia.
  - rewrite assign_boundary. f_equal.
    rewrite length_app. cbn [List.length].
    replace (a + (List.length vs + 1))%nat with (S (a + List.length vs))
      by lia.
    rewrite <- !app_assoc. reflexivity.
Qed.

Lemma nth_error_window {A} (t vs : list A) (a : nat) (v : A) (rest : list A) :
  (a <= List.length t)%nat ->
  nth_error (firstn a t ++ (vs ++ [v]) ++ rest) (a + List.length vs) = Some v.
Proof.
  intros H. rewrite nth_error_app2 by (rewrite length_firstn; lia).
  rewrite length_firstn.
  replace (a + List.length vs - Nat.min a (List.length t))%nat
    with (List.length vs) by lia.
  rewrite <- app_assoc. rewrite nth_error_app2 by lia.
  rewrite Nat.sub_diag. reflexivity.
Qed.

Lemma firstn_snoc {A} (l : list A) (i : nat) (v : A) :
  nth_error l i = Some v -> firstn (S i) l = firstn i l ++ [v].
Proof.
  revert i. induction l as [|a l IH]; intros [|i] H; try discriminate.
  - inversion H. reflexivity.
  - change (a :: firstn (S i) l = a :: (firstn i l ++ [v])).
    f_equal. exact (IH i H).
Qed.

(** The loop on a table that is only read. *)
Lemma serve_loop_read {A} (args : list A) (addr : nat) :
  forall (todo i : nat) (table res : list A),
    (addr + i + todo <= List.length table)%nat ->
    serve_loop false args addr todo i table res =
    (Some (res ++ firstn todo (skipn (addr + i) table)), table).
Proof.
  induction todo as [|todo IH]; intros i table res H; cbn [serve_loop].
  - cbn [firstn]. rewrite app_nil_r. reflexivity.
  - destruct (nth_error_split table (addr + i) ltac:(lia)) as (x & Hx & Hs).
    rewrite Hx, IH by lia. rewrite Hs. cbn [firstn].
    rewrite <- app_assoc.
    replace (addr + S i)%nat with (S (addr + i)) by lia. reflexivity.
Qed.

(** The loop on a table that is written: after [i] rounds the first [i]
    arguments are in the table and in the result. *)
Lemma serve_loop_write {A} (args t0 : list A) (addr : nat) :
  forall (todo i : nat),
    (i <= List.length args)%nat ->
    (addr + i + todo <= List.length t0)%nat ->
    serve_loop true args addr todo i
      (firstn addr t0 ++ firstn i args ++ skipn (addr + i) t0)
      (firstn i args) =
    let k := Nat.min (i + todo) (List.length args) in
    (if (i + todo <=? List.length args)%nat
     then Some (firstn k args) else None,
     firstn addr t0 ++ firstn k args ++ skipn (addr + k) t0).
Proof.
  induction todo as [|todo IH]; intros i Hi H; cbn [serve_loop]; cbv zeta.
  - rewrite Nat.add_0_r. replace (i <=? List.length args)%nat with true
      by (symmetry; apply Nat.leb_le; exact Hi).
    rewrite Nat.min_l by exact Hi. reflexivity.
  - destruct (nth_error args i) as [v|] eqn:Ev.
    + assert (Hlt : (i < List.length args)%nat)
        by (apply nth_error_Some; congruence).
      pose proof (assign_window t0 (firstn i args) addr v) as Ha.
      rewrite length_app, !length_firstn in Ha. cbn [List.length] in Ha.
      rewrite !Nat.min_l in Ha by lia.
      rewrite Ha by lia.
      replace (addr + (i + 1))%nat with (addr + S i)%nat by lia.
      pose proof (nth_error_window t0 (firstn i args) addr v
                    (skipn (addr + S i) t0) ltac:(lia)) as Hn.
      rewrite length_firstn, Nat.min_l in Hn by lia.
      rewrite Hn. rewrite <- (firstn_snoc args i v Ev).
      rewrite (IH (S i)) by lia. cbv zeta.
      replace (S i + todo)%nat with (i + S todo)%nat by lia.
      reflexivity.
    + apply nth_error_None in Ev.
      assert (i = List.length args) by lia. subst i.
      replace (List.length args + S todo <=? List.length args)%nat
        with false by (symmetry; apply Nat.leb_gt; lia).
      rewrite Nat.min_r by lia. reflexivity.
Qed.

Lemma serve_wrong_unit {A} (u : byte) (req : request A) (wr : bool)
    (t : list A) :
  UnitId req <> u -> serve u req wr t = (Failed ErrIllegalFunction, t).
Proof.
  intros H. unfold serve. rewrite (byte_eqb_neq _ _ H). reflexivity.
Qed.

Lemma serve_out_of_range {A} (u : byte) (req : request A) (wr : bool)
    (t : list A) :
  UnitId req = u ->
  len t < Z.of_N (Addr req) + Z.of_N (Quantity req) ->
  serve u req wr t = (Failed ErrIllegalDataAddress, t).
Proof.
  intros Hu H. unfold serve. rewrite Hu, byte_eqb_refl. cbn [negb].
  apply Z.ltb_lt in H. unfold len in H. rewrite H. reflexivity.
Qed.

Lemma serve_read {A} (u : byte) (req : request A) (wr : bool) (t : list A) :
  UnitId req = u ->
  Z.of_N (Addr req) + Z.of_N (Quantity req) <= len t ->
  wr && IsWrite req = false ->
  serve u req wr t =
  (Returned (firstn (N.to_nat (Quantity req))
                    (skipn (N.to_nat (Addr req)) t)), t).
Proof.
  intros Hu H Hw. unfold serve. rewrite Hu, byte_eqb_refl. cbn [negb].
  replace (Z.of_nat (List.length t)
           <? Z.of_N (Addr req) + Z.of_N (Quantity req)) with false
    by (symmetry; apply Z.ltb_ge; exact H).
  rewrite Hw, serve_loop_read by (unfold len in H; lia).
  rewrite Nat.add_0_r. reflexivity.
Qed.

Lemma serve_write {A} (u : byte) (req : request A) (t : list A) :
  UnitId req = u ->
  Z.of_N (Addr req) + Z.of_N (Quantity req) <= len t ->
  IsWrite req = true ->
  serve u req true t =
  let a := N.to_nat (Addr req) in
  let k := Nat.min (N.to_nat (Quantity req)) (List.length (Args req)) in
  (if (N.to_nat (Quantity req) <=? List.length (Args req))%nat
   then Returned (firstn k (Args req)) else Panicked,
   firstn a t ++ firstn k (Args req) ++ skipn (a + k) t).
Proof.
  intros Hu H Hw. unfold serve. rewrite Hu, byte_eqb_refl. cbn [negb].
  replace (Z.of_nat (List.length t)
           <? Z.of_N (Addr req) + Z.of_N (Quantity req)) with false
    by (symmetry; apply Z.ltb_ge; exact H).
  rewrite Hw. cbn [andb].
  pose proof (serve_loop_write (Args req) t (N.to_nat (Addr req))
                (N.to_nat (Quantity req)) 0 ltac:(lia)
                ltac:(unfold len in H; lia)) as L.
  cbn [firstn app Nat.add] in L. rewrite Nat.add_0_r in L.
  rewrite firstn_skipn in L. rewrite L. cbv zeta.
  destruct (N.to_nat (Quantity req) <=? List.length (Args req))%nat;
    reflexivity.
Qed.

Lemma set_coils_same (h : harnessHandler) : set_coils (coils h) h = h.
Proof. destruct h; reflexivity. Qed.

Lemma set_holding_same (h : harnessHandler) : set_holding (holding h) h = h.
Proof. destruct h; reflexivity. Qed.

(** X19. Each of the four handlers of the test server refuses a request
    for another unit with the illegal-function error, and a request whose
    window [Addr, Addr + Quantity) runs past the end of its table with the
    illegal-data-address error; in both cases the tables are left as they
    are, write request or not. *)
Theorem handlers_reject_without_change :
  forall (h : harnessHandler) (rb : request bool) (rz : request Z),
    (UnitId rb <> unitID h ->
     HandleCoils h rb = (Failed ErrIllegalFunction, h) /\
     HandleDiscreteInputs h rb = (Failed ErrIllegalFunction, h)) /\
    (UnitId rz <> unitID h ->
     HandleHoldingRegisters h rz = (Failed ErrIllegalFunction, h) /\
     HandleInputRegisters h rz = (Failed ErrIllegalFunction, h)) /\
    (UnitId rb = unitID h ->
     (len (coils h) < Z.of_N (Addr rb) + Z.of_N (Quantity rb) ->
      HandleCoils h rb = (Failed ErrIllegalDataAddress, h)) /\
     (len (discrete h) < Z.of_N (Addr rb) + Z.of_N (Quantity rb) ->
      HandleDiscreteInputs h rb = (Failed ErrIllegalDataAddress, h))) /\
    (UnitId rz = unitID h ->
     (len (holding h) < Z.of_N (Addr rz) + Z.of_N (Quantity rz) ->
      HandleHoldingRegisters h rz = (Failed ErrIllegalDataAddress, h)) /\
     (len (input h) < Z.of_N (Addr rz) + Z.of_N (Quantity rz) ->
      HandleInputRegisters h rz = (Failed ErrIllegalDataAddress, h))).
Proof.
  intros h rb rz.
  unfold HandleCoils, HandleDiscreteInputs, HandleHoldingRegisters,
    HandleInputRegisters.
  split; [|split; [|split]].
  - intros H. rewrite !serve_wrong_unit by exact H.
    rewrite set_coils_same. split; reflexivity.
  - intros H. rewrite !serve_wrong_unit by exact H.
    rewrite set_holding_same. split; reflexivity.
  - intros Hu. split; intros H; rewrite serve_out_of_range by assumption.
    + rewrite set_coils_same. reflexivity.
    + reflexivity.
  - intros Hu. split; intros H; rewrite serve_out_of_range by assumption.
    + rewrite set_holding_same. reflexivity.
    + reflexivity.
Qed.

Lemma handlers_reject_without_change_witness :
  let h := newHarnessHandler x01 in
  let other := mkRequest x02 0 1 true [true] in
  let far := mkRequest x01 130 8 true [1; 2; 3; 4; 5; 6; 7; 8] in
  (UnitId other <> unitID h /\ UnitId far = unitID h /\
   len (holding h) < Z.of_N (Addr far) + Z.of_N (Quantity far)) /\
  HandleCoils h other = (Failed ErrIllegalFunction, h) /\
  HandleHoldingRegisters h far = (Failed ErrIllegalDataAddress, h).
Proof.
  intros h other far.
  assert (H1 : UnitId other <> unitID h) by discriminate.
  assert (H2 : UnitId far = unitID h) by reflexivity.
  assert (H3 : len (holding h) < Z.of_N (Addr far) + Z.of_N (Quantity far))
    by (vm_compute; reflexivity).
  split; [repeat split; assumption|].
  destruct (handlers_reject_without_change h other far)
    as (T1 & _ & _ & _).
  destruct (handlers_reject_without_change h other far)
    as (_ & _ & _ & T4).
  split; [exact (proj1 (T1 H1))|exact (proj1 (T4 H2) H3)].
Defined.

(** X20. A read that fits in the table returns the [Quantity] values
    from [Addr] on, in order, and changes nothing; this holds for the two
    read-only tables whatever the request says, and for coils and holding
    registers when the request is no write.  A quantity of zero gives the
    empty result. *)
Theorem handlers_read_window :
  forall (h : harnessHandler) (rb : request bool) (rz : request Z),
    (UnitId rb = unitID h ->
     (Z.of_N (Addr rb) + Z.of_N (Quantity rb) <= len (coils h) ->
      IsWrite rb = false ->
      HandleCoils h rb = (Returned (window rb (coils h)), h)) /\
     (Z.of_N (Addr rb) + Z.of_N (Quantity rb) <= len (discrete h) ->
      HandleDiscreteInputs h rb = (Returned (window rb (discrete h)), h))) /\
    (UnitId rz = unitID h ->
     (Z.of_N (Addr rz) + Z.of_N (Quantity rz) <= len (holding h) ->
      IsWrite rz = false ->
      HandleHoldingRegisters h rz = (Returned (window rz (holding h)), h)) /\
     (Z.of_N (Addr rz) + Z.of_N (Quantity rz) <= len (input h) ->
      HandleInputRegisters h rz = (Returned (window rz (input h)), h))).
Proof.
  intros h rb rz. unfold window.
  unfold HandleCoils, HandleDiscreteInputs, HandleHoldingRegisters,
    HandleInputRegisters.
  split; intros Hu; split.
  - intros H Hw. rewrite serve_read by (try assumption; now rewrite Hw).
    rewrite set_coils_same. reflexivity.
  - intros H. rewrite serve_read by (try assumption; reflexivity).
    reflexivity.
  - intros H Hw. rewrite serve_read by (try assumption; now rewrite Hw).
    rewrite set_holding_same. reflexivity.
  - intros H. rewrite serve_read by (try assumption; reflexivity).
    reflexivity.
Qed.

Lemma handlers_read_window_witness :
  let h := newHarnessHandler x01 in
  let rb := mkRequest x01 2 3 false [] in
  let rz := mkRequest x01 1 0 false [] in
  (UnitId rb = unitID h /\ UnitId rz = unitID h /\
   Z.of_N (Addr rb) + Z.of_N (Quantity rb) <= len (coils h) /\
   Z.of_N (Addr rb) + Z.of_N (Quantity rb) <= len (discrete h) /\
   Z.of_N (Addr rz) + Z.of_N (Quantity rz) <= len (holding h) /\
   Z.of_N (Addr rz) + Z.of_N (Quantity rz) <= len (input h) /\
   IsWrite rb = false /\ IsWrite rz = false) /\
  HandleCoils h rb = (Returned [true; true; false], h) /\
  HandleDiscreteInputs h rb = (Returned [true; false; true], h) /\
  HandleHoldingRegisters h rz = (Returned [], h) /\
  HandleInputRegisters h rz = (Returned [], h).
Proof.
  intros h rb rz.
  assert (U1 : UnitId rb = unitID h) by reflexivity.
  assert (U2 : UnitId rz = unitID h) by reflexivity.
  assert (H1 : Z.of_N (Addr rb) + Z.of_N (Quantity rb) <= len (coils h))
    by (vm_compute; discriminate).
  assert (H2 : Z.of_N (Addr rb) + Z.of_N (Quantity rb) <= len (discrete h))
    by (vm_compute; discriminate).
  assert (H3 : Z.of_N (Addr rz) + Z.of_N (Quantity rz) <= len (holding h))
    by (vm_compute; discriminate).
  assert (H4 : Z.of_N (Addr rz) + Z.of_N (Quantity rz) <= len (input h))
    by (vm_compute; discriminate).
  assert (W1 : IsWrite rb = false) by reflexivity.
  assert (W2 : IsWrite rz = false) by reflexivity.
  split; [repeat split; assumption|].
  destruct (handlers_read_window h rb rz) as (Tb & Tz).
  destruct (Tb U1) as (T1 & T2). destruct (Tz U2) as (T3 & T4).
  split; [exact (T1 H1 W1)|]. split; [exact (T2 H2)|].
  split; [exact (T3 H3 W2)|exact (T4 H4)].
Defined.

Lemma window_of_written {A} (t vals : list A) (a : nat) :
  (a <= List.length t)%nat ->
  firstn (List.length vals) (skipn a (firstn a t ++ vals ++ skipn (a + List.length vals) t))
  = vals.
Proof.
  intros H.
  rewrite skipn_app, length_firstn, Nat.min_l by exact H.
  rewrite Nat.sub_diag, skipn_all2 by (rewrite length_firstn; lia).
  cbn [skipn app]. rewrite firstn_app, Nat.sub_diag, firstn_all.
  cbn [firstn]. apply app_nil_r.
Qed.

Lemma written_len {A} (t vals : list A) (a : nat) :
  (a + List.length vals <= List.length t)%nat ->
  List.length (firstn a t ++ vals ++ skipn (a + List.length vals) t)
  = List.length t.
Proof.
  intros H. rewrite !length_app, length_firstn, length_skipn. lia.
Qed.

(** X21. A write to the coils or to the holding registers that fits in
    the table and comes with at least [Quantity] values stores the first
    [Quantity] of them from [Addr] on and returns them; the rest of the
    table, its length and the other tables stay as they are, and a read
    of the same window afterwards returns the values written. *)
Theorem handlers_write_then_read :
  forall (h : harnessHandler) (rb : request bool) (rz : request Z),
    (UnitId rb = unitID h -> IsWrite rb = true ->
     Z.of_N (Addr rb) + Z.of_N (Quantity rb) <= len (coils h) ->
     Z.of_N (Quantity rb) <= len (Args rb) ->
     let vals := firstn (N.to_nat (Quantity rb)) (Args rb) in
     let table :=
       firstn (N.to_nat (Addr rb)) (coils h) ++ vals
       ++ skipn (N.to_nat (Addr rb) + N.to_nat (Quantity rb)) (coils h) in
     let h' := set_coils table h in
     HandleCoils h rb = (Returned vals, h') /\
     len table = len (coils h) /\
     HandleCoils h' (mkRequest (UnitId rb) (Addr rb) (Quantity rb) false [])
     = (Returned vals, h')) /\
    (UnitId rz = unitID h -> IsWrite rz = true ->
     Z.of_N (Addr rz) + Z.of_N (Quantity rz) <= len (holding h) ->
     Z.of_N (Quantity rz) <= len (Args rz) ->
     let vals := firstn (N.to_nat (Quantity rz)) (Args rz) in
     let table :=
       firstn (N.to_nat (Addr rz)) (holding h) ++ vals
       ++ skipn (N.to_nat (Addr rz) + N.to_nat (Quantity rz)) (holding h) in
     let h' := set_holding table h in
     HandleHoldingRegisters h rz = (Returned vals, h') /\
     len table = len (holding h) /\
     HandleHoldingRegisters
       h' (mkRequest (UnitId rz) (Addr rz) (Quantity rz) false [])
     = (Returned vals, h')).
Proof.
  intros h rb rz. split.
  - intros Hu Hw Hfit Hargs vals table h'.
    assert (Hv : List.length vals = N.to_nat (Quantity rb))
      by (subst vals; rewrite length_firstn; unfold len in Hargs; lia).
    assert (Hl : List.length table = List.length (coils h))
      by (subst table; rewrite <- Hv; apply written_len;
          unfold len in Hfit; lia).
    split; [|split].
    + unfold HandleCoils. rewrite serve_write by assumption. cbv zeta.
      replace (N.to_nat (Quantity rb) <=? List.length (Args rb))%nat
        with true by (symmetry; apply Nat.leb_le; unfold len in Hargs; lia).
      rewrite Nat.min_l by (unfold len in Hargs; lia). reflexivity.
    + unfold len. rewrite Hl. reflexivity.
    + unfold HandleCoils.
      rewrite serve_read;
        [| exact Hu
         | subst h'; cbn [Addr Quantity set_coils coils]; unfold len in *; lia
         | reflexivity].
      cbn [Addr Quantity]. subst h'. cbn [set_coils coils]. subst table.
      assert (Hwin :
        firstn (N.to_nat (Quantity rb))
          (skipn (N.to_nat (Addr rb))
             (firstn (N.to_nat (Addr rb)) (coils h) ++ vals
              ++ skipn (N.to_nat (Addr rb) + N.to_nat (Quantity rb))
                       (coils h))) = vals)
        by (rewrite <- Hv; apply window_of_written;
            unfold len in Hfit; lia).
      rewrite Hwin. destruct h; reflexivity.
  - intros Hu Hw Hfit Hargs vals table h'.
    assert (Hv : List.length vals = N.to_nat (Quantity rz))
      by (subst vals; rewrite length_firstn; unfold len in Hargs; lia).
    assert (Hl : List.length table = List.length (holding h))
      by (subst table; rewrite <- Hv; apply written_len;
          unfold len in Hfit; lia).
    split; [|split].
    + unfold HandleHoldingRegisters.
      rewrite serve_write by assumption. cbv zeta.
      replace (N.to_nat (Quantity rz) <=? List.length (Args rz))%nat
        with true by (symmetry; apply Nat.leb_le; unfold len in Hargs; lia).
      rewrite Nat.min_l by (unfold len in Hargs; lia). reflexivity.
    + unfold len. rewrite Hl. reflexivity.
    + unfold HandleHoldingRegisters.
      rewrite serve_read;
        [| exact Hu
         | subst h'; cbn [Addr Quantity set_holding holding]; unfold len in *; lia
         | reflexivity].
      cbn [Addr Quantity]. subst h'. cbn [set_holding holding]. subst table.
      assert (Hwin :
        firstn (N.to_nat (Quantity rz))
          (skipn (N.to_nat (Addr rz))
             (firstn (N.to_nat (Addr rz)) (holding h) ++ vals
              ++ skipn (N.to_nat (Addr rz) + N.to_nat (Quantity rz))
                       (holding h))) = vals)
        by (rewrite <- Hv; apply window_of_written;
            unfold len in Hfit; lia).
      rewrite Hwin. destruct h; reflexivity.
Qed.

Lemma handlers_write_then_read_witness :
  let h := newHarnessHandler x09 in
  let rb := mkRequest x09 4 1 true [true] in
  let rz := mkRequest x09 3 2 true [0xabcd; 0x0001; 0x0002] in
  (UnitId rb = unitID h /\ IsWrite rb = true /\
   Z.of_N (Addr rb) + Z.of_N (Quantity rb) <= len (coils h) /\
   Z.of_N (Quantity rb) <= len (Args rb) /\
   UnitId rz = unitID h /\ IsWrite rz = true /\
   Z.of_N (Addr rz) + Z.of_N (Quantity rz) <= len (holding h) /\
   Z.of_N (Quantity rz) <= len (Args rz)) /\
  fst (HandleCoils h rb) = Returned [true] /\
  coils (snd (HandleCoils h rb)) =
  [true; false; true; true; true; false; true; false] /\
  HandleCoils (snd (HandleCoils h rb)) (mkRequest x09 4 1 false [])
  = (Returned [true], snd (HandleCoils h rb)) /\
  fst (HandleHoldingRegisters h rz) = Returned [0xabcd; 0x0001] /\
  HandleHoldingRegisters (snd (HandleHoldingRegisters h rz))
                         (mkRequest x09 3 2 false [])
  = (Returned [0xabcd; 0x0001], snd (HandleHoldingRegisters h rz)).
Proof.
  intros h rb rz.
  assert (U1 : UnitId rb = unitID h) by reflexivity.
  assert (W1 : IsWrite rb = true) by reflexivity.
  assert (F1 : Z.of_N (Addr rb) + Z.of_N (Quantity rb) <= len (coils h))
    by (vm_compute; discriminate).
  assert (A1 : Z.of_N (Quantity rb) <= len (Args rb))
    by (vm_compute; discriminate).
  assert (U2 : UnitId rz = unitID h) by reflexivity.
  assert (W2 : IsWrite rz = true) by reflexivity.
  assert (F2 : Z.of_N (Addr rz) + Z.of_N (Quantity rz) <= len (holding h))
    by (vm_compute; discriminate).
  assert (A2 : Z.of_N (Quantity rz) <= len (Args rz))
    by (vm_compute; discriminate).
  split; [repeat split; assumption|].
  destruct (handlers_write_then_read h rb rz) as (Tb & Tz).
  destruct (Tb U1 W1 F1 A1) as (B1 & _ & B3).
  destruct (Tz U2 W2 F2 A2) as (Z1 & _ & Z3).
  rewrite B1, Z1. cbn [fst snd].
  split; [reflexivity|]. split; [reflexivity|].
  split; [exact B3|]. split; [reflexivity|exact Z3].
Defined.

(** X22. A write to the coils or to the holding registers that asks for
    more values than the request carries does not fail with an error: it
    stores the values there are, then panics on the first missing one
    (index out of range). *)
Theorem handlers_panic_on_missing_values :
  forall (h : harnessHandler) (rb : request bool) (rz : request Z),
    (UnitId rb = unitID h -> IsWrite rb = true ->
     Z.of_N (Addr rb) + Z.of_N (Quantity rb) <= len (coils h) ->
     len (Args rb) < Z.of_N (Quantity rb) ->
     HandleCoils h rb =
     (Panicked,
      set_coils
        (firstn (N.to_nat (Addr rb)) (coils h) ++ Args rb
         ++ skipn (N.to_nat (Addr rb) + List.length (Args rb)) (coils h))
        h)) /\
    (UnitId rz = unitID h -> IsWrite rz = true ->
     Z.of_N (Addr rz) + Z.of_N (Quantity rz) <= len (holding h) ->
     len (Args rz) < Z.of_N (Quantity rz) ->
     HandleHoldingRegisters h rz =
     (Panicked,
      set_holding
        (firstn (N.to_nat (Addr rz)) (holding h) ++ Args rz
         ++ skipn (N.to_nat (Addr rz) + List.length (Args rz)) (holding h))
        h)).
Proof.
  intros h rb rz. split; intros Hu Hw Hfit Hargs.
  - unfold HandleCoils. rewrite serve_write by assumption. cbv zeta.
    replace (N.to_nat (Quantity rb) <=? List.length (Args rb))%nat
      with false by (symmetry; apply Nat.leb_gt; unfold len in Hargs; lia).
    rewrite Nat.min_r by (unfold len in Hargs; lia).
    rewrite firstn_all. reflexivity.
  - unfold HandleHoldingRegisters. rewrite serve_write by assumption.
    cbv zeta.
    replace (N.to_nat (Quantity rz) <=? List.length (Args rz))%nat
      with false by (symmetry; apply Nat.leb_gt; unfold len in Hargs; lia).
    rewrite Nat.min_r by (unfold len in Hargs; lia).
    rewrite firstn_all. reflexivity.
Qed.

Lemma handlers_panic_on_missing_values_witness :
  let h := newHarnessHandler x09 in
  let rb := mkRequest x09 1 3 true [true] in
  let rz := mkRequest x09 0 2 true [] in
  (UnitId rb = unitID h /\ IsWrite rb = true /\
   Z.of_N (Addr rb) + Z.of_N (Quantity rb) <= len (coils h) /\
   len (Args rb) < Z.of_N (Quantity rb) /\
   UnitId rz = unitID h /\ IsWrite rz = true /\
   Z.of_N (Addr rz) + Z.of_N (Quantity rz) <= len (holding h) /\
   len (Args rz) < Z.of_N (Quantity rz)) /\
  fst (HandleCoils h rb) = Panicked /\
  coils (snd (HandleCoils h rb)) =
  [true; true; true; true; false; false; true; false] /\
  HandleHoldingRegisters h rz = (Panicked, h).
Proof.
  intros h rb rz.
  assert (U1 : UnitId rb = unitID h) by reflexivity.
  assert (W1 : IsWrite rb = true) by reflexivity.
  assert (F1 : Z.of_N (Addr rb) + Z.of_N (Quantity rb) <= len (coils h))
    by (vm_compute; discriminate).
  assert (A1 : len (Args rb) < Z.of_N (Quantity rb))
    by (vm_compute; reflexivity).
  assert (U2 : UnitId rz = unitID h) by reflexivity.
  assert (W2 : IsWrite rz = true) by reflexivity.
  assert (F2 : Z.of_N (Addr rz) + Z.of_N (Quantity rz) <= len (holding h))
    by (vm_compute; discriminate).
  assert (A2 : len (Args rz) < Z.of_N (Quantity rz))
    by (vm_compute; reflexivity).
  split; [repeat split; assumption|].
  destruct (handlers_panic_on_missing_values h rb rz) as (Tb & Tz).
  rewrite (Tb U1 W1 F1 A1), (Tz U2 W2 F2 A2).
  repeat split; reflexivity.
Defined.

(** ** Requests in a row *)

Lemma wrap64_range (z : Z) : - 2 ^ 63 <= wrap64 z < 2 ^ 63.
Proof.
  unfold wrap64.
  pose proof (Z.mod_pos_bound (z + 2 ^ 63) (2 ^ 64) ltac:(lia)). lia.
Qed.

Lemma new_writes_split (w w' : world) (ev : list event) :
  trace w' = trace w ++ ev ->
  skipn (List.length (trace w)) (trace w') = ev.
Proof.
  intros ->. rewrite skipn_app, Nat.sub_diag, skipn_all. reflexivity.
Qed.

(** X23. A transport that [newASCIITransport] has just made sends its
    first request at once: whatever the speed and the character time, on
    a clock that reads a time after the Unix epoch, and when the
    environment itself takes no time, the frame is written at the time of
    the call. *)
Theorem first_request_is_not_delayed :
  forall (serialCharTime : N -> Z) (speed : N) (timeout : Z) (req : pdu)
         (w : world),
    delays w = [] ->
    deadline_err w = None ->
    0 <= clock w ->
    let at_ := newASCIITransport serialCharTime speed timeout in
    let '(res, at', w') := ExecuteRequest at_ req w in
    exists reads : list event,
      trace w' =
      trace w ++ EvWrite (clock w) (assembleASCIIFrame req) :: reads /\
      Forall (fun e => exists t, e = EvRead t) reads.
Proof.
  intros sct speed tmo req w Hq Hd Hclock at_.
  assert (Hla : lastActivity at_ = zero_time).
  { subst at_. unfold newASCIITransport.
    destruct (19200 <=? (if (speed =? 0)%N then 19200%N else speed))%N;
      reflexivity. }
  assert (Ht35 : t35 at_ < 2 ^ 63).
  { subst at_. unfold newASCIITransport.
    destruct (19200 <=? (if (speed =? 0)%N then 19200%N else speed))%N;
      cbn [set_t35 t35]; unfold dur_div, dur_mul; apply wrap64_range. }
  assert (Hz : zero_time + 2 ^ 63 < 0) by (vm_compute; reflexivity).
  pose proof (ExecuteRequest_writes_at_end_of_silence_core at_ req w Hq Hd
                ltac:(rewrite Hla; lia)) as T.
  destruct (ExecuteRequest at_ req w) as [[res at'] w'].
  replace (Z.max (clock w) (lastActivity at_ + t35 at_)) with (clock w)
    in T by (rewrite Hla; lia).
  exact T.
Qed.

Lemma first_request_is_not_delayed_witness :
  let sct := fun speed : N => 11000000000 / Z.of_N speed in
  let req := mkPdu x01 x03 [x00; x00; x00; x01] in
  let w := mkWorld 1700000000000000000 [] [] None
                   (fun f => (len f, None)) [] in
  (delays w = [] /\ deadline_err w = None /\ 0 <= clock w) /\
  exists reads : list event,
    trace (snd (ExecuteRequest (newASCIITransport sct 9600 300000000) req w))
    = trace w ++ EvWrite (clock w) (assembleASCIIFrame req) :: reads /\
    Forall (fun e => exists t, e = EvRead t) reads.
Proof.
  intros sct req w.
  assert (H1 : delays w = []) by reflexivity.
  assert (H2 : deadline_err w = None) by reflexivity.
  assert (H3 : 0 <= clock w) by (vm_compute; discriminate).
  split; [repeat split; assumption|].
  pose proof (first_request_is_not_delayed sct 9600 300000000 req w
                H1 H2 H3) as T.
  cbv zeta in T.
  destruct (ExecuteRequest (newASCIITransport sct 9600 300000000) req w)
    as [[res at'] w'].
  exact T.
Defined.

(** X24. Between two requests the line stays silent for t3.5: when a
    call of [ExecuteRequest] has written its frame and has not timed out,
    the next call on the same transport writes its frame no sooner than
    [t35] after the first call has returned. *)
Theorem next_request_waits_for_silence :
  forall (at_ : asciiTransport) (req1 req2 : pdu) (w : world),
    deadline_err w = None ->
    snd (write_result w (assembleASCIIFrame req1)) = None ->
    t35 at_ < 2 ^ 63 ->
    let '(res1, at1, w1) := ExecuteRequest at_ req1 w in
    res1 <> inr ErrRequestTimedOut ->
    let '(res2, at2, w2) := ExecuteRequest at1 req2 w1 in
    forall t f,
      In (EvWrite t f) (skipn (List.length (trace w1)) (trace w2)) ->
      f = assembleASCIIFrame req2 /\ clock w1 + t35 at_ <= t.
Proof.
  intros at_ req1 req2 w Hd Hw Ht35.
  pose proof (ExecuteRequest_run at_ req1 w) as R1. cbv zeta in R1.
  destruct (ExecuteRequest at_ req1 w) as [[res1 at1] w1].
  intros Hres.
  destruct R1 as ((_ & T35 & _) & _ & R1).
  rewrite Hd in R1. destruct R1 as (ts & tw & _ & _ & R1).
  rewrite Hw in R1. destruct R1 as (reads & _ & _ & _ & _ & Hnow).
  specialize (Hnow Hres).
  pose proof (ExecuteRequest_run at1 req2 w1) as R2. cbv zeta in R2.
  destruct (ExecuteRequest at1 req2 w1) as [[res2 at2] w2].
  destruct R2 as (_ & _ & R2). rewrite Hnow, T35 in R2.
  intros t f Hin.
  destruct (deadline_err w1) as [e|].
  - destruct R2 as (_ & _ & Ht).
    rewrite Ht, skipn_all in Hin. contradiction.
  - destruct R2 as (ts2 & tw2 & Hts & Hsil & R2).
    specialize (Hsil ltac:(lia)).
    destruct (snd (write_result w1 (assembleASCIIFrame req2))) as [e|].
    + destruct R2 as (_ & _ & Ht).
      rewrite (new_writes_split _ _ _ Ht) in Hin.
      destruct Hin as [E|[]]. inversion E; subst. split; [reflexivity|lia].
    + destruct R2 as (reads2 & Ht & F & _).
      rewrite (new_writes_split _ _ _ Ht) in Hin.
      destruct Hin as [E|Hin].
      * inversion E; subst. split; [reflexivity|lia].
      * exfalso. exact (reads_hold_no_write _ _ _ _ F Hin).
Qed.

Lemma next_request_waits_for_silence_witness :
  let at0 := mkTransport 300000000 0 1750000 500000 in
  let req := mkPdu x01 x03 [x00; x00; x00; x01] in
  let w := wire (arriving (bytes ":0103020005F5" ++ [CR; LF])) in
  let first := ExecuteRequest at0 req w in
  let second := ExecuteRequest (snd (fst first)) req (snd first) in
  (deadline_err w = None /\
   snd (write_result w (assembleASCIIFrame req)) = None /\
   t35 at0 < 2 ^ 63 /\
   fst (fst first) <> inr ErrRequestTimedOut) /\
  forall t f,
    In (EvWrite t f)
       (skipn (List.length (trace (snd first))) (trace (snd second))) ->
    f = assembleASCIIFrame req /\ clock (snd first) + t35 at0 <= t.
Proof.
  intros at0 req w first second.
  assert (H1 : deadline_err w = None) by reflexivity.
  assert (H2 : snd (write_result w (assembleASCIIFrame req)) = None)
    by reflexivity.
  assert (H3 : t35 at0 < 2 ^ 63) by (vm_compute; reflexivity).
  assert (H4 : fst (fst first) <> inr ErrRequestTimedOut)
    by (vm_compute; discriminate).
  split; [repeat split; assumption|].
  pose proof (next_request_waits_for_silence at0 req req w H1 H2 H3) as T.
  subst second first.
  destruct (ExecuteRequest at0 req w) as [[res1 at1] w1].
  cbn [fst snd] in *. specialize (T H4).
  destruct (ExecuteRequest at1 req w1) as [[res2 at2] w2].
  exact T.
Defined.

(** ** Bus timing of a request *)

Lemma tick_clock (w : world) : clock (tick w) = clock w + delay 0 w.
Proof.
  unfold tick, delay. destruct (delays w) as [|d ds]; cbn; lia.
Qed.

Lemma tick_delay (k : nat) (w : world) : delay k (tick w) = delay (S k) w.
Proof.
  unfold delay, tick. destruct (delays w) as [|d ds] eqn:E.
  - rewrite E. destruct k; reflexivity.
  - reflexivity.
Qed.

Lemma time_Sleep_clock (d : Z) (w : world) :
  clock (time_Sleep d w) = clock w + delay 0 w + Z.max 0 d.
Proof.
  unfold time_Sleep. cbn [set_clock clock]. rewrite tick_clock. reflexivity.
Qed.

Lemma time_Sleep_delay (d : Z) (k : nat) (w : world) :
  delay k (time_Sleep d w) = delay (S k) w.
Proof.
  unfold time_Sleep. rewrite <- tick_delay. reflexivity.
Qed.

(** The sample in terms of the clock at the call and of the delays of the
    environment: three calls lead to the reading of the silence, a sleep
    follows when it has not yet elapsed, and the next call is the
    sample. *)
Lemma write_sample_closed (at_ : asciiTransport) (w : world) :
  write_sample at_ w =
  let c := clock w + delay 0 w + delay 1 w + delay 2 w in
  let t := sat64 (c - (lastActivity at_ + t35 at_)) in
  if t <? 0 then c + delay 3 w + Z.max 0 (dur_neg t) + delay 4 w
  else c + delay 3 w.
Proof.
  unfold write_sample, time_Since, time_Now, link_SetDeadline.
  cbv beta iota zeta. cbn [fst].
  assert (E : clock (tick (tick (tick w)))
              = clock w + delay 0 w + delay 1 w + delay 2 w)
    by (rewrite !tick_clock, !tick_delay; lia).
  unfold time_Sub, time_Add. rewrite E.
  destruct (sat64 (clock w + delay 0 w + delay 1 w + delay 2 w
                   - (lastActivity at_ + t35 at_)) <? 0).
  - rewrite tick_clock, time_Sleep_clock, time_Sleep_delay, E.
    rewrite !tick_delay. lia.
  - rewrite tick_clock, E, !tick_delay. lia.
Qed.

(** Every run of the read loop begins with a read, and the reads that
    follow are not issued before it. *)
Lemma read_loop_first_read (inp : list read_outcome) (colon : bool)
    (rxbuf : list byte) (w : world) :
  exists more : list event,
    trace (snd (read_loop colon rxbuf inp w)) =
    trace w ++ EvRead (clock (tick w)) :: more /\
    Forall (is_read_after (clock (tick w))) more /\
    clock (tick w) <= clock (snd (read_loop colon rxbuf inp w)).
Proof.
  set (w1 := record (EvRead (clock (tick w))) (tick w)).
  assert (T1 : trace w1 = trace w ++ [EvRead (clock (tick w))]).
  { subst w1. cbn [record trace]. f_equal. apply (idles_tick w). }
  assert (Hdone : forall rest,
            exists more,
              trace (set_rx rest w1) =
              trace w ++ EvRead (clock (tick w)) :: more /\
              Forall (is_read_after (clock (tick w))) more /\
              clock (tick w) <= clock (set_rx rest w1)).
  { intros rest. exists []. split; [exact T1|].
    split; [constructor|cbn; lia]. }
  assert (Hgo : forall rest c b,
            exists more,
              trace (snd (read_loop c b rest (set_rx rest w1))) =
              trace w ++ EvRead (clock (tick w)) :: more /\
              Forall (is_read_after (clock (tick w))) more /\
              clock (tick w)
              <= clock (snd (read_loop c b rest (set_rx rest w1)))).
  { intros rest c b.
    destruct (listens_read_loop rest c b (set_rx rest w1))
      as (C & _ & _ & reads & Ht & F).
    exists reads. split; [|split].
    - rewrite Ht. cbn [set_rx trace]. rewrite T1, <- app_assoc.
      reflexivity.
    - exact F.
    - exact C. }
  destruct inp as [|[b| |e] rest]; cbn [read_loop snd]; fold w1.
  - apply Hdone.
  - destruct (negb colon && negb (byte_eqb b COLON)); [apply Hgo|].
    destruct (maxASCIIFrameLength <? len (rxbuf ++ [b])); [apply Hdone|].
    destruct (byte_eqb b LF); [apply Hdone|apply Hgo].
  - apply Hgo.
  - apply Hdone.
Qed.

Lemma readASCIIFrame_first_read (w : world) :
  exists more : list event,
    trace (snd (readASCIIFrame w)) =
    trace w ++ EvRead (clock (tick w)) :: more /\
    Forall (is_read_after (clock (tick w))) more /\
    clock (tick w) <= clock (snd (readASCIIFrame w)).
Proof.
  unfold readASCIIFrame.
  pose proof (read_loop_first_read (rx w) false [] w) as H.
  destruct (read_loop false [] (rx w) w) as [[rxbuf|err] w']; exact H.
Qed.

(** The reads that follow the write: none before the silence that
    follows the estimated end of the transmission, and, when the
    environment takes no time, the first one exactly then. *)
Lemma after_write_reads (at_ : asciiTransport) (ts n : Z) (w : world) :
  let '(res, at', w') := after_write at_ ts n w in
  exists (tr : Z) (more : list event),
    trace w' = trace w ++ EvRead tr :: more /\
    Forall (is_read_after tr) more /\
    clock w <= tr /\
    (ts <= clock w -> dur_mul n (t1 at_) + t35 at_ < 2 ^ 63 ->
     ts + dur_mul n (t1 at_) + t35 at_ <= tr) /\
    (delays w = [] ->
     ts <= clock w -> dur_mul n (t1 at_) + t35 at_ < 2 ^ 63 ->
     tr = Z.max (clock w) (ts + dur_mul n (t1 at_) + t35 at_)).
Proof.
  unfold after_write. cbn [lastActivity set_lastActivity t35 t1 timeout].
  unfold time_Now at 1. cbv zeta.
  set (w1 := tick w).
  set (d := time_Sub (time_Add (time_Add ts (dur_mul n (t1 at_))) (t35 at_))
                     (clock w1)).
  set (w2 := time_Sleep d w1).
  assert (I1 : idles w w1) by apply idles_tick.
  destruct (time_Sleep_spec d w1) as [I2 C2]. fold w2 in I2, C2.
  destruct (idles_trans _ _ _ I1 I2) as (C12 & _ & _ & T12).
  destruct (readASCIIFrame_first_read w2) as (more & Ht & F & C3).
  destruct (readASCIIFrame w2) as [res w3]. cbn [snd] in Ht, C3.
  set (tr := clock (tick w2)) in *.
  assert (Ctr : clock w2 <= tr) by (subst tr; apply (idles_tick w2)).
  set (recover := match res with
                  | inl _ => false
                  | inr e => error_eqb e ErrBadLRC
                             || error_eqb e ErrProtocolError
                             || error_eqb e ErrShortFrame
                  end).
  set (w4 := if recover
             then discard
                    (time_Sleep (dur_mul maxASCIIFrameLength (t1 at_)) w3)
             else w3).
  assert (L4 : listens w3 w4).
  { subst w4. destruct recover; [|apply listens_refl].
    eapply listens_trans; [apply listens_Sleep|apply listens_discard]. }
  assert (Hfinal : forall w', listens w4 w' ->
    exists more',
      trace w' = trace w ++ EvRead tr :: more' /\
      Forall (is_read_after tr) more').
  { intros w' L5.
    destruct (listens_trans _ _ _ L4 L5) as (_ & _ & _ & reads & Ht' & F').
    exists (more ++ reads). split.
    - rewrite Ht', Ht, T12, <- app_assoc. reflexivity.
    - apply Forall_app. split; [exact F|].
      apply (Forall_read_after_le _ (clock w3)); assumption. }
  assert (Hbound : ts <= clock w ->
                   dur_mul n (t1 at_) + t35 at_ < 2 ^ 63 ->
                   ts + dur_mul n (t1 at_) + t35 at_ <= tr).
  { intros Hts Hfit.
    assert (Hd : ts + dur_mul n (t1 at_) + t35 at_ - clock w1 <= d).
    { subst d. unfold time_Sub, time_Add. apply sat64_below.
      destruct I1 as (C1 & _). lia. }
    lia. }
  assert (Hexact : delays w = [] -> ts <= clock w ->
                   dur_mul n (t1 at_) + t35 at_ < 2 ^ 63 ->
                   tr = Z.max (clock w) (ts + dur_mul n (t1 at_) + t35 at_)).
  { intros Hq Hts Hfit. subst tr.
    assert (E1 : w1 = w) by (subst w1; apply tick_quiet, Hq).
    destruct (time_Sleep_quiet d w1 ltac:(rewrite E1; exact Hq))
      as [Hc Hdl].
    fold w2 in Hc, Hdl. rewrite (tick_quiet w2 Hdl), Hc, E1.
    subst d. rewrite E1. unfold time_Sub, time_Add, sat64. lia. }
  set (timed_out := match res with
                    | inl _ => false
                    | inr e => error_eqb e ErrRequestTimedOut
                    end).
  destruct (negb timed_out).
  - destruct (time_Now w4) as [now5 w5] eqn:E5.
    apply time_Now_spec in E5. destruct E5 as [I5 _].
    destruct (Hfinal w5 (idles_listens _ _ I5)) as (more' & Ht' & F').
    exists tr, more'. repeat split; try assumption. lia.
  - destruct (Hfinal w4 (listens_refl w4)) as (more' & Ht' & F').
    exists tr, more'. repeat split; try assumption. lia.
Qed.

(** From the call to the write, with the sample named: where
    [ExecuteRequest] stands once the link has accepted the deadline. *)
Lemma ExecuteRequest_to_write_sampled (at_ : asciiTransport) (req : pdu)
    (w : world) :
  let frame := assembleASCIIFrame req in
  let ts := write_sample at_ w in
  deadline_err w = None ->
  exists w5 : world,
    clock w <= ts <= clock w5 /\
    (lastActivity at_ + t35 at_ < clock w + 2 ^ 63 ->
     lastActivity at_ + t35 at_ <= ts) /\
    trace w5 = trace w ++ [EvWrite (clock w5) frame] /\
    (delays w = [] ->
     lastActivity at_ + t35 at_ < clock w + 2 ^ 63 ->
     ts = Z.max (clock w) (lastActivity at_ + t35 at_) /\
     clock w5 = ts /\ delays w5 = []) /\
    ExecuteRequest at_ req w =
    match snd (write_result w frame) with
    | Some e => (inr e, at_, w5)
    | None => after_write at_ ts (fst (write_result w frame)) w5
    end.
Proof.
  intros frame ts Hd. rewrite ExecuteRequest_unfold.
  unfold time_Now at 1. cbv zeta.
  unfold link_SetDeadline. cbv zeta.
  set (w1 := tick (tick w)).
  assert (I1 : idles w w1)
    by (eapply idles_trans; apply idles_tick).
  assert (Q1 : delays w = [] -> w1 = w)
    by (intros Hq; subst w1; rewrite !(tick_quiet w Hq); reflexivity).
  replace (deadline_err w1) with (@None error)
    by (destruct I1 as (_ & E & _); congruence).
  unfold time_Since, time_Now. cbv zeta.
  set (w2 := tick w1).
  set (t := time_Sub (clock w2) (time_Add (lastActivity at_) (t35 at_))).
  set (w3 := if t <? 0 then time_Sleep (dur_neg t) w2 else w2).
  assert (I2 : idles w1 w2) by apply idles_tick.
  assert (I3 : idles w2 w3)
    by (subst w3; destruct (t <? 0);
        [apply time_Sleep_spec|apply idles_refl]).
  set (w4 := tick w3).
  assert (Ets : ts = clock w4) by reflexivity.
  clearbody ts. subst ts.
  unfold link_Write. cbv zeta.
  set (w5' := tick w4).
  set (w5 := record (EvWrite (clock w5') frame) w5').
  assert (I4 : idles w3 w4) by apply idles_tick.
  assert (I5 : idles w4 w5') by apply idles_tick.
  pose proof (idles_trans _ _ _ I1 (idles_trans _ _ _ I2 I3)) as I03.
  pose proof (idles_trans _ _ _ I03 (idles_trans _ _ _ I4 I5)) as I.
  destruct I as (C & _ & W & T).
  assert (Hw : write_result w5' frame = write_result w frame)
    by (rewrite W; reflexivity).
  assert (Hsil : lastActivity at_ + t35 at_ < clock w + 2 ^ 63 ->
                 lastActivity at_ + t35 at_ <= clock w3).
  { intros Hfar. destruct (idles_trans _ _ _ I1 I2) as (C2 & _).
    subst w3. unfold time_Sub, time_Add in t.
    destruct (t <? 0) eqn:Eneg.
    - apply Z.ltb_lt in Eneg. subst t.
      destruct (sat64_neg (clock w2 - (lastActivity at_ + t35 at_)))
        as [_ Hneg]; [lia|exact Eneg|].
      rewrite Hneg.
      pose proof (proj2 (time_Sleep_spec
                  (- (clock w2 - (lastActivity at_ + t35 at_))) w2)).
      lia.
    - apply Z.ltb_ge in Eneg. subst t.
      apply sat64_nonneg in Eneg. lia. }
  exists w5. split; [|split; [|split; [|split]]].
  - subst w5. cbn [record clock].
    destruct I03 as (C3 & _). destruct I4 as (C4 & _).
    destruct I5 as (C5 & _). lia.
  - intros Hfar. specialize (Hsil Hfar). destruct I4 as (C4 & _). lia.
  - subst w5. cbn [record trace clock]. rewrite T. reflexivity.
  - intros Hq Hfar.
    assert (E2 : w2 = w) by (subst w2; rewrite (Q1 Hq); apply tick_quiet, Hq).
    assert (Q3 : delays w3 = [] /\
                 clock w3 = Z.max (clock w) (lastActivity at_ + t35 at_)).
    { subst w3. subst t. rewrite E2. unfold time_Sub, time_Add.
      destruct (sat64 (clock w - (lastActivity at_ + t35 at_)) <? 0)
        eqn:Eneg.
      - apply Z.ltb_lt in Eneg.
        destruct (sat64_neg (clock w - (lastActivity at_ + t35 at_)))
          as [_ Hneg]; [lia|exact Eneg|].
        rewrite Hneg.
        destruct (time_Sleep_quiet
                    (- (clock w - (lastActivity at_ + t35 at_))) w Hq)
          as [Hc Hdl].
        split; [exact Hdl|]. rewrite Hc.
        assert (clock w - (lastActivity at_ + t35 at_) < 0)
          by (unfold sat64 in Eneg; lia).
        lia.
      - apply Z.ltb_ge in Eneg. apply sat64_nonneg in Eneg.
        split; [exact Hq|]. lia. }
    destruct Q3 as [Q3 C3].
    assert (E4 : w4 = w3) by (subst w4; apply tick_quiet, Q3).
    assert (E5 : w5' = w3)
      by (subst w5'; rewrite E4; apply tick_quiet, Q3).
    split; [rewrite E4; exact C3|]. split.
    + subst w5. cbn [record clock]. rewrite E5, E4. reflexivity.
    + subst w5. cbn [record delays]. rewrite E5. exact Q3.
  - subst w5. fold frame. rewrite Hw.
    destruct (write_result w frame) as [n [e|]]; reflexivity.
Qed.

(** C8, as the code has it.  When the link accepts the deadline and the
    write, and reading the response then fails with the request-timed-out
    error, [lastActivity] keeps the estimate made after the write: the
    instant [ts] sampled just before the write plus the number of bytes
    written times t1.  On every other outcome of that read, success or
    another error, [lastActivity] is the current time when
    [ExecuteRequest] returns.  When [SetDeadline] or [Write] fails,
    [ExecuteRequest] returns that error and leaves [lastActivity] as it
    was.  The sample [ts] is taken after the wait for the inter-frame
    silence and before the write: its value is given from the clock at
    the call and the delays of the environment. *)
Theorem lastActivity_after_ExecuteRequest :
  forall (at_ : asciiTransport) (req : pdu) (w : world),
    let frame := assembleASCIIFrame req in
    let n := fst (write_result w frame) in
    let ts := write_sample at_ w in
    let '(res, at', w') := ExecuteRequest at_ req w in
    match deadline_err w, snd (write_result w frame) with
    | Some e, _ => res = inr e /\ lastActivity at' = lastActivity at_
    | None, Some e => res = inr e /\ lastActivity at' = lastActivity at_
    | None, None =>
        (res = inr ErrRequestTimedOut ->
         lastActivity at' = ts + dur_mul n (t1 at_)) /\
        (res <> inr ErrRequestTimedOut -> lastActivity at' = clock w') /\
        (exists (tw : Z) (reads : list event),
            trace w' = trace w ++ EvWrite tw frame :: reads /\
            Forall (fun e => exists t, e = EvRead t /\ tw <= t) reads /\
            ts <= tw /\
            (delays w = [] ->
             lastActivity at_ + t35 at_ < clock w + 2 ^ 63 -> ts = tw))
    end /\
    ts =
    (let c := clock w + delay 0 w + delay 1 w + delay 2 w in
     let t := sat64 (c - (lastActivity at_ + t35 at_)) in
     if t <? 0 then c + delay 3 w + Z.max 0 (dur_neg t) + delay 4 w
     else c + delay 3 w) /\
    (lastActivity at_ + t35 at_ < clock w + 2 ^ 63 ->
     Z.max (clock w) (lastActivity at_ + t35 at_) <= ts).
Proof.
  intros at_ req w frame n ts.
  assert (Hclosed := write_sample_closed at_ w). fold ts in Hclosed.
  assert (Hlow : lastActivity at_ + t35 at_ < clock w + 2 ^ 63 ->
                 Z.max (clock w) (lastActivity at_ + t35 at_) <= ts).
  { intros Hfar. rewrite Hclosed. cbv zeta.
    set (c := clock w + delay 0 w + delay 1 w + delay 2 w).
    assert (Hc : clock w <= c)
      by (subst c; unfold delay; lia).
    assert (H3 : 0 <= delay 3 w) by (unfold delay; lia).
    assert (H4 : 0 <= delay 4 w) by (unfold delay; lia).
    destruct (sat64 (c - (lastActivity at_ + t35 at_)) <? 0) eqn:Eneg.
    - apply Z.ltb_lt in Eneg.
      destruct (sat64_neg (c - (lastActivity at_ + t35 at_)))
        as [_ Hneg]; [lia|exact Eneg|].
      rewrite Hneg. lia.
    - apply Z.ltb_ge in Eneg. apply sat64_nonneg in Eneg. lia. }
  pose proof (ExecuteRequest_run at_ req w) as R. cbv zeta in R.
  fold frame in R. fold n in R.
  destruct (deadline_err w) as [e|] eqn:Hd.
  - destruct (ExecuteRequest at_ req w) as [[res at'] w'].
    destruct R as (_ & _ & H1 & H2 & _).
    split; [split; assumption|]. split; assumption.
  - destruct (ExecuteRequest_to_write_sampled at_ req w Hd)
      as (w5 & Hts & _ & T5 & Hq & E).
    fold frame in T5, E. fold ts in Hts, Hq, E. fold n in E.
    rewrite E. rewrite E in R.
    destruct (snd (write_result w frame)) as [e|].
    + destruct R as (_ & _ & ts' & tw' & _ & _ & H1 & H2 & _).
      split; [split; assumption|]. split; assumption.
    + clear R.
      pose proof (after_write_spec at_ ts n w5) as S.
      pose proof (after_write_reads at_ ts n w5) as Rd.
      destruct (after_write at_ ts n w5) as [[res at'] w'].
      destruct S as (_ & _ & _ & _ & Hnow & Hto).
      destruct Rd as (tr & more & Ht & F & Ctr & _).
      split; [|split; assumption].
      split; [exact Hto|]. split; [exact Hnow|].
      exists (clock w5), (EvRead tr :: more). split; [|split; [|split]].
      * rewrite Ht, T5, <- app_assoc. reflexivity.
      * constructor; [exists tr; split; [reflexivity|exact Ctr]|].
        eapply Forall_impl; [|exact F].
        intros [t f|t]; cbn; [tauto|]. intros Ht'. exists t.
        split; [reflexivity|lia].
      * lia.
      * intros Hquiet Hfar. destruct (Hq Hquiet Hfar) as (_ & Hc & _).
        symmetry. exact Hc.
Qed.

(** A link that refuses the write: [ExecuteRequest] returns the link's
    error, which is no timeout, and [lastActivity] is not the current
    time but what it was before the call. *)
Lemma write_failure_keeps_lastActivity :
  let at0 := mkTransport 300000000 0 1750000 500000 in
  let req := mkPdu x01 x03 [x00; x00; x00; x01] in
  let w0 := mkWorld 0 [] [] None
                    (fun _ => (0, Some (LinkError false 5))) [] in
  let '(res, at', w') := ExecuteRequest at0 req w0 in
  res = inr (LinkError false 5) /\
  res <> inr ErrRequestTimedOut /\
  lastActivity at' = lastActivity at0 /\
  lastActivity at' <> clock w'.
Proof.
  vm_compute. repeat split; discriminate.
Qed.

Lemma lastActivity_after_ExecuteRequest_witness :
  let at0 := mkTransport 300000000 0 1750000 500000 in
  let req := mkPdu x01 x03 [x00; x00; x00; x01] in
  let frame := assembleASCIIFrame req in
  let silent :=
    mkWorld 1000000 [10%N; 20%N; 30%N; 40%N; 50%N; 60%N] [] None
            (fun f => (len f, None)) [] in
  let answering :=
    wire (arriving (bytes ":0103020005F5" ++ [CR; LF])) in
  (fst (fst (ExecuteRequest at0 req silent)) = inr ErrRequestTimedOut /\
   fst (fst (ExecuteRequest at0 req answering)) <> inr ErrRequestTimedOut /\
   delays answering = [] /\
   lastActivity at0 + t35 at0 < clock silent + 2 ^ 63 /\
   lastActivity at0 + t35 at0 < clock answering + 2 ^ 63) /\
  write_sample at0 silent = 1750090 /\
  lastActivity (snd (fst (ExecuteRequest at0 req silent))) =
  1750090 + dur_mul (fst (write_result silent frame)) (t1 at0) /\
  lastActivity (snd (fst (ExecuteRequest at0 req answering))) =
  clock (snd (ExecuteRequest at0 req answering)) /\
  Z.max (clock silent) (lastActivity at0 + t35 at0)
  <= write_sample at0 silent /\
  exists (tw : Z) (reads : list event),
    trace (snd (ExecuteRequest at0 req answering)) =
    trace answering ++ EvWrite tw frame :: reads /\
    write_sample at0 answering = tw.
Proof.
  intros at0 req frame silent answering.
  assert (H1 : fst (fst (ExecuteRequest at0 req silent))
               = inr ErrRequestTimedOut) by (vm_compute; reflexivity).
  assert (H2 : fst (fst (ExecuteRequest at0 req answering))
               <> inr ErrRequestTimedOut) by (vm_compute; discriminate).
  assert (H3 : delays answering = []) by reflexivity.
  assert (H4 : lastActivity at0 + t35 at0 < clock silent + 2 ^ 63)
    by (vm_compute; reflexivity).
  assert (H5 : lastActivity at0 + t35 at0 < clock answering + 2 ^ 63)
    by (vm_compute; reflexivity).
  split; [repeat split; assumption|].
  pose proof (lastActivity_after_ExecuteRequest at0 req silent) as T1.
  pose proof (lastActivity_after_ExecuteRequest at0 req answering) as T2.
  cbv zeta in T1, T2.
  destruct (ExecuteRequest at0 req silent) as [[res1 at1] w1].
  destruct (ExecuteRequest at0 req answering) as [[res2 at2] w2].
  cbn [fst snd] in *.
  destruct T1 as ((T1to & _) & T1closed & T1low).
  destruct T2 as ((_ & T2now & tw & reads & T2tr & _ & _ & T2q) & _).
  assert (Ets : write_sample at0 silent = 1750090)
    by (rewrite T1closed; vm_compute; reflexivity).
  split; [exact Ets|].
  split; [rewrite <- Ets; exact (T1to H1)|].
  split; [exact (T2now H2)|].
  split; [exact (T1low H4)|].
  exists tw, reads. split; [exact T2tr|exact (T2q H3 H5)].
Defined.



